(** * optibench: baseline and optimized kernels, embedded and verified

    Each C source file of the benchmark corpus is embedded as a module of
    Rocq definitions that follow the C text statement by statement.

    Conventions of the embedding.
    - A C [int] or [long long] is a [Z].  Signed overflow is undefined in C;
      every kernel stays far below 2^31 (resp. 2^63) on the sizes it is
      compiled for, so signed arithmetic is written without wrap-around.
      The one kernel whose values can leave the range on an admissible
      argument is [fibonacci]: its embedding computes the exact integers,
      which are the C values as long as they fit 64 bits, and the statements
      about it carry that bound.  [unsigned int] arithmetic wraps and the
      wrap is written out.
    - An array is a [list]; an access [a[i]] is checked ([load], [store]):
      outside the bounds of the array the C program has no defined
      behaviour and the embedding stops with [Fault (OutOfBounds i len)].
    - A loop is run with an explicit amount of fuel; a loop that would need
      more stops with [Fault OutOfFuel].  A theorem that shows [Ok] therefore
      shows that the loop terminates.
    - A pointer that may be null is an [option]; an access through the null
      pointer stops with [Fault NullPointer]. *)

From Stdlib Require Import ZArith Lia Ascii String Znumtheory.
From stdpp Require Import base tactics option list sorting.

Local Open Scope Z_scope.

(** ** Outcomes of running C code *)

Inductive fault : Type :=
  | OutOfBounds (idx len : Z)
  | NullPointer
  | OutOfFuel.

Inductive result (A : Type) : Type :=
  | Ok (a : A)
  | Fault (f : fault).

Arguments Ok {A} a.
Arguments Fault {A} f.

Definition bind {A B} (m : result A) (k : A → result B) : result B :=
  match m with
  | Ok a => k a
  | Fault f => Fault f
  end.

Notation "x <- m ;; k" := (bind m (fun x => k))
  (at level 100, m at next level, right associativity).

(** ** Arrays *)

Definition len {A} (a : list A) : Z := Z.of_nat (length a).

(** [a[i]] as an rvalue. *)
Definition load {A} (a : list A) (i : Z) : result A :=
  if (0 <=? i) && (i <? len a) then
    match a !! Z.to_nat i with
    | Some v => Ok v
    | None => Fault (OutOfBounds i (len a))
    end
  else Fault (OutOfBounds i (len a)).

(** [a[i] = v]. *)
Definition store {A} (a : list A) (i : Z) (v : A) : result (list A) :=
  if (0 <=? i) && (i <? len a) then Ok (<[Z.to_nat i := v]> a)
  else Fault (OutOfBounds i (len a)).

(** A pointer returned by an allocator: [None] is the null pointer. *)
Definition ptr (A : Type) : Type := option (list A).

(** [!p] *)
Definition is_null {A} (p : ptr A) : bool :=
  match p with
  | None => true
  | Some _ => false
  end.

(** [p[i] = v] through a pointer. *)
Definition pstore {A} (p : ptr A) (i : Z) (v : A) : result (ptr A) :=
  match p with
  | None => Fault NullPointer
  | Some a => a' <- store a i v ;; Ok (Some a')
  end.

(** [p[i]] through a pointer. *)
Definition pload {A} (p : ptr A) (i : Z) : result A :=
  match p with
  | None => Fault NullPointer
  | Some a => load a i
  end.

(** A call [f(p, ...)] whose callee works in place on the buffer behind [p]. *)
Definition with_buffer {A B} (p : ptr A) (f : list A → result B) : result B :=
  match p with
  | None => Fault NullPointer
  | Some a => f a
  end.

(** ** Loops *)

(** [while (cond) body] over the state [s]. *)
Fixpoint while_loop {S} (fuel : nat) (cond : S → bool)
    (body : S → result S) (s : S) : result S :=
  if cond s then
    match fuel with
    | O => Fault OutOfFuel
    | Datatypes.S fuel' => s' <- body s ;; while_loop fuel' cond body s'
    end
  else Ok s.

(** [for (i = ...; i < hi; i += stride) body], where [body] does not assign
    [i]. *)
Fixpoint for_loop {S} (fuel : nat) (i hi stride : Z)
    (body : Z → S → result S) (s : S) : result S :=
  if i <? hi then
    match fuel with
    | O => Fault OutOfFuel
    | Datatypes.S fuel' => s' <- body i s ;; for_loop fuel' (i + stride) hi stride body s'
    end
  else Ok s.

(** [for (i = lo; i < hi; i += stride)]: at most [hi - lo] rounds. *)
Definition for_lt {S} (lo hi stride : Z) (body : Z → S → result S) (s : S)
    : result S :=
  for_loop (Z.to_nat (hi - lo)) lo hi stride body s.

(** [for (i = lo; i <= hi; i += stride)]. *)
Definition for_le {S} (lo hi stride : Z) (body : Z → S → result S) (s : S)
    : result S :=
  for_lt lo (hi + 1) stride body s.

(** What [main] hands back: its exit status and the line it printed, if it
    got that far. *)
Definition exit_status (V : Type) : Type := (Z * option V)%type.

(** ** fibonacci_baseline.c *)
Module FibonacciBaseline.

(** The double recursion; [fuel] bounds the depth of the call stack.  The
    [long long] results are exact integers: they are what the C function
    returns as long as they fit 64 bits, that is up to [n = 92]. *)
Fixpoint fibonacci_rec (fuel : nat) (n : Z) : result Z :=
  if n <=? 1 then Ok n
  else
    match fuel with
    | O => Fault OutOfFuel
    | Datatypes.S fuel' =>
        a <- fibonacci_rec fuel' (n - 1) ;;
        b <- fibonacci_rec fuel' (n - 2) ;;
        Ok (a + b)
    end.

Definition fibonacci (n : Z) : result Z := fibonacci_rec (Z.to_nat n) n.

(** [for (i = 0; i < bound; i++) sum += fibonacci(i);]  The [long long]
    sum is an exact integer; it fits 64 bits up to [bound = 91]. *)
Definition sum_loop (bound : Z) : result Z :=
  for_lt 0 bound 1 (fun i sum => f <- fibonacci i ;; Ok (sum + f)) 0.

Definition main : result (exit_status Z) :=
  sum <- sum_loop 40 ;; Ok (0, Some sum).

End FibonacciBaseline.

(** ** fibonacci_optimized.c *)
Module FibonacciOptimized.

(** The [long long] variables [a], [b], [c] hold exact integers: they are
    the C values as long as they fit 64 bits, that is up to [n = 92], where
    the counter [i] is far from the end of [int]. *)
Definition fibonacci (n : Z) : result Z :=
  if n <=? 1 then Ok n
  else
    ab <- for_le (S := Z * Z) 2 n 1 (fun i '(a, b) =>
            let c := a + b in
            let a := b in
            let b := c in
            Ok (a, b)) (0, 1) ;;
    let '(a, b) := ab in
    Ok b.

(** As in the baseline, the sum is an exact integer and fits 64 bits up to
    [bound = 91]. *)
Definition sum_loop (bound : Z) : result Z :=
  for_lt 0 bound 1 (fun i sum => f <- fibonacci i ;; Ok (sum + f)) 0.

Definition main : result (exit_status Z) :=
  sum <- sum_loop 40 ;; Ok (0, Some sum).

End FibonacciOptimized.

(** ** prime-sieve_baseline.c *)
Module PrimeSieveBaseline.

Definition MAX : Z := 100000.

(** [for (int i = 2; i < n; i++) if (n % i == 0) return false;
    return true;] *)
Fixpoint is_prime_loop (fuel : nat) (n i : Z) : result bool :=
  if i <? n then
    if Z.rem n i =? 0 then Ok false
    else
      match fuel with
      | O => Fault OutOfFuel
      | Datatypes.S fuel' => is_prime_loop fuel' n (i + 1)
      end
  else Ok true.

Definition is_prime (n : Z) : result bool :=
  if n <? 2 then Ok false
  else is_prime_loop (Z.to_nat n) n 2.

(** The scan of [main], with the bound [MAX] as an argument. *)
Definition scan (max : Z) : result (Z * Z) :=
  for_lt (S := Z * Z) 2 max 1 (fun i '(count, sum) =>
    p <- is_prime i ;;
    if p then Ok (count + 1, sum + i) else Ok (count, sum)) (0, 0).

Definition main : result (exit_status (Z * Z)) :=
  cs <- scan MAX ;; Ok (0, Some cs).

End PrimeSieveBaseline.

(** ** prime-sieve_optimized.c *)
Module PrimeSieveOptimized.

Definition MAX : Z := 100000.

(** [(int)sqrt(n)] for an [int n >= 0]: the conversion to [double] is
    exact, the IEEE-754 square root is correctly rounded and, below 2^31,
    never rounds up to the next integer, so the truncation is the integer
    square root. *)
Definition int_sqrt (n : Z) : Z := Z.sqrt n.

(** [for (int i = 3; i <= limit; i += 2) if (n % i == 0) return false;
    return true;] *)
Fixpoint is_prime_loop (fuel : nat) (n limit i : Z) : result bool :=
  if i <=? limit then
    if Z.rem n i =? 0 then Ok false
    else
      match fuel with
      | O => Fault OutOfFuel
      | Datatypes.S fuel' => is_prime_loop fuel' n limit (i + 2)
      end
  else Ok true.

Definition is_prime_optimized (n : Z) : result bool :=
  if n <? 2 then Ok false
  else if n =? 2 then Ok true
  else if Z.rem n 2 =? 0 then Ok false
  else
    let limit := int_sqrt n in
    is_prime_loop (Z.to_nat limit) n limit 3.

(** The loop of [main]; its body advances [i] itself, so [i] is part of
    the state.  [count] and [sum] start at 1 and 2. *)
Definition scan (max : Z) : result (Z * Z) :=
  st <-
    while_loop (S := Z * Z * Z) (Z.to_nat max) (fun '(i, _, _) => i <? max)
      (fun '(i, count, sum) =>
         p <- is_prime_optimized i ;;
         let '(count, sum) := if p then (count + 1, sum + i) else (count, sum) in
         let next := i + 2 in
         q <- (if next <? max then is_prime_optimized next else Ok false) ;;
         let '(count, sum) := if q then (count + 1, sum + next) else (count, sum) in
         let i := i + 2 in
         Ok (i + 2, count, sum))
      (3, 1, 2) ;;
  let '(_, count, sum) := st in
  Ok (count, sum).

Definition main : result (exit_status (Z * Z)) :=
  cs <- scan MAX ;; Ok (0, Some cs).

End PrimeSieveOptimized.

(** ** C strings

    The memory behind a [const char *] is a list of bytes: the object the
    pointer points into.  The string ends at the first NUL byte; whatever
    the list holds after it is what the object happens to hold there.
    [strlen] and the byte reads of the kernels ([peek]) stay in front of the
    terminator or on it; for them a list without a NUL byte stands for the
    string whose terminator follows its last byte.  Only the 16-byte vector
    loads of the optimized search read on behind the terminator: they are
    checked against the size of the object ([load]), like every other array
    access. *)

Definition NUL : ascii := Ascii.zero.

(** [s[i]] for [i >= 0]; a negative index has no defined behaviour. *)
Definition peek (s : list ascii) (i : Z) : result ascii :=
  if i <? 0 then Fault (OutOfBounds i (len s))
  else Ok (nth (Z.to_nat i) s NUL).

Fixpoint strlen (s : list ascii) : Z :=
  match s with
  | [] => 0
  | c :: s' => if Ascii.eqb c NUL then 0 else 1 + strlen s'
  end.

(** [(unsigned char)c] as an array index. *)
Definition uchar (c : ascii) : Z := Z.of_N (N_of_ascii c).

(** The [char] that an [int] converts to. *)
Definition char_of_int (z : Z) : ascii := ascii_of_N (Z.to_N (z mod 256)).

(** The linear congruential step on an [unsigned int] seed, shared by the
    input generators: [seed = seed * 1103515245 + 12345]. *)
Definition lcg_next (seed : Z) : Z := (seed * 1103515245 + 12345) mod 2 ^ 32.

(** ** string-search_baseline.c *)
Module StringSearchBaseline.

Definition TEXT_LEN : Z := 1000000.

(** The string literal ["ABCDABD"]: an array of eight bytes, the seven
    letters and the terminator. *)
Definition PATTERN : list ascii := list_ascii_of_string "ABCDABD" ++ [NUL].

(** [for (j = 0; j < m; j++) if (text[i + j] != pattern[j]) break;]
    The value is [j] after the loop. *)
Fixpoint compare_loop (fuel : nat) (text pattern : list ascii) (i m j : Z)
    : result Z :=
  if j <? m then
    t <- peek text (i + j) ;;
    p <- peek pattern j ;;
    if negb (Ascii.eqb t p) then Ok j
    else
      match fuel with
      | O => Fault OutOfFuel
      | Datatypes.S fuel' => compare_loop fuel' text pattern i m (j + 1)
      end
  else Ok j.

Definition naive_search (text pattern : list ascii) : result Z :=
  let n := strlen text in
  let m := strlen pattern in
  for_le 0 (n - m) 1 (fun i count =>
    j <- compare_loop (Z.to_nat m) text pattern i m 0 ;;
    if j =? m then Ok (count + 1) else Ok count) 0.

(** The text generator of [main], for a buffer of [text_len + 1] bytes. *)
Definition fill_text (text_len : Z) (text : ptr ascii) : result (ptr ascii) :=
  st <- for_lt (S := ptr ascii * Z) 0 text_len 1 (fun i '(text, seed) =>
          let seed := lcg_next seed in
          text <- pstore text i (char_of_int (65 + Z.rem (Z.shiftr seed 16) 8)) ;;
          Ok (text, seed)) (text, 42) ;;
  let '(text, _) := st in
  pstore text text_len NUL.

(** [main], given what [malloc] returned. *)
Definition run (text_len : Z) (malloc_result : ptr ascii) : result (exit_status Z) :=
  let text := malloc_result in
  text <- fill_text text_len text ;;
  count <- with_buffer text (fun text => naive_search text PATTERN) ;;
  Ok (0, Some count).

Definition main (malloc_result : ptr ascii) : result (exit_status Z) :=
  run TEXT_LEN malloc_result.

End StringSearchBaseline.

(** ** string-search_optimized.c *)
Module StringSearchOptimized.

Definition TEXT_LEN : Z := 1000000.

(** The string literal ["ABCDABD"]: an array of eight bytes, the seven
    letters and the terminator. *)
Definition PATTERN : list ascii := list_ascii_of_string "ABCDABD" ++ [NUL].

(** A 128-bit vector of sixteen byte lanes, lane 0 first. *)
Definition m128i : Type := list ascii.

(** The bytes [s[off]], [s[off + 1]], ... of the object behind [s], one per
    lane; each one is an access to the object and is checked. *)
Fixpoint load_lanes (lanes : nat) (s : list ascii) (off : Z) : result m128i :=
  match lanes with
  | O => Ok []
  | Datatypes.S lanes' =>
      c <- load s off ;;
      v <- load_lanes lanes' s (off + 1) ;;
      Ok (c :: v)
  end.

(** [_mm_loadu_si128] applied to the address [s + off]: sixteen bytes. *)
Definition _mm_loadu_si128 (s : list ascii) (off : Z) : result m128i :=
  load_lanes 16 s off.

(** Lane-wise equality: 0xFF where the bytes agree, 0x00 elsewhere. *)
Fixpoint _mm_cmpeq_epi8 (a b : m128i) : m128i :=
  match a, b with
  | x :: a', y :: b' =>
      (if Ascii.eqb x y then char_of_int 255 else NUL) :: _mm_cmpeq_epi8 a' b'
  | _, _ => []
  end.

(** The most significant bit of a byte. *)
Definition msb (c : ascii) : bool :=
  match c with Ascii _ _ _ _ _ _ _ b7 => b7 end.

(** Bit [k] of the mask is the top bit of lane [k]. *)
Fixpoint _mm_movemask_epi8 (v : m128i) : Z :=
  match v with
  | [] => 0
  | c :: v' => Z.b2z (msb c) + 2 * _mm_movemask_epi8 v'
  end.

(** The two passes that fill [int bad_char[256]].  The array is a local
    without initialiser; the first pass writes every entry before
    anything reads one, so its initial content is taken as zeros. *)
Definition build_bad_char (pattern : list ascii) (m : Z) : result (list Z) :=
  let bad_char := replicate 256 0 in
  bad_char <- for_lt 0 256 1 (fun i bad_char => store bad_char i m) bad_char ;;
  for_lt 0 (m - 1) 1 (fun i bad_char =>
    c <- peek pattern i ;;
    store bad_char (uchar c) (m - 1 - i)) bad_char.

(** [while (j >= 0 && pattern[j] == text[i + j]) j--;]  The value is [j]
    after the loop. *)
Fixpoint backward_loop (fuel : nat) (text pattern : list ascii) (i j : Z)
    : result Z :=
  if j >=? 0 then
    p <- peek pattern j ;;
    t <- peek text (i + j) ;;
    if Ascii.eqb p t then
      match fuel with
      | O => Fault OutOfFuel
      | Datatypes.S fuel' => backward_loop fuel' text pattern i (j - 1)
      end
    else Ok j
  else Ok j.

(** The shift taken after a mismatch at alignment [i]. *)
Definition bad_char_shift (bad_char : list Z) (text : list ascii) (i m : Z)
    : result Z :=
  last_char <- peek text (i + m - 1) ;;
  load bad_char (uchar last_char).

(** The function.  The vector [mask] that the C code builds for [m < 16]
    is never read afterwards and is left out. *)
Definition optimized_search (text pattern : list ascii) : result Z :=
  let n := strlen text in
  let m := strlen pattern in
  if (m =? 0) || (n <? m) then Ok 0
  else
    bad_char <- build_bad_char pattern m ;;
    let count := 0 in
    let i := 0 in
    st <-
      (if m <=? 16 then
         pattern_vec <- _mm_loadu_si128 pattern 0 ;;
         while_loop (S := Z * Z) (Z.to_nat (n - m + 1)) (fun '(i, count) => i <=? n - m)
           (fun '(i, count) =>
              text_vec <- _mm_loadu_si128 text i ;;
              let cmp := _mm_cmpeq_epi8 text_vec pattern_vec in
              let mask_res := _mm_movemask_epi8 cmp in
              if Z.land mask_res (Z.shiftl 1 m - 1) =? Z.shiftl 1 m - 1 then
                Ok (i + 1, count + 1)
              else
                shift <- bad_char_shift bad_char text i m ;;
                Ok (i + shift, count))
           (i, count)
       else
         while_loop (S := Z * Z) (Z.to_nat (n - m + 1)) (fun '(i, count) => i <=? n - m)
           (fun '(i, count) =>
              let j := m - 1 in
              j <- backward_loop (Z.to_nat m) text pattern i j ;;
              if j <? 0 then
                Ok (i + 1, count + 1)
              else
                shift <- bad_char_shift bad_char text i m ;;
                Ok (i + shift, count))
           (i, count)) ;;
    let '(_, count) := st in
    Ok count.

Definition fill_text (text_len : Z) (text : ptr ascii) : result (ptr ascii) :=
  st <- for_lt (S := ptr ascii * Z) 0 text_len 1 (fun i '(text, seed) =>
          let seed := lcg_next seed in
          text <- pstore text i (char_of_int (65 + Z.rem (Z.shiftr seed 16) 8)) ;;
          Ok (text, seed)) (text, 42) ;;
  let '(text, _) := st in
  pstore text text_len NUL.

Definition run (text_len : Z) (malloc_result : ptr ascii) : result (exit_status Z) :=
  let text := malloc_result in
  text <- fill_text text_len text ;;
  count <- with_buffer text (fun text => optimized_search text PATTERN) ;;
  Ok (0, Some count).

Definition main (malloc_result : ptr ascii) : result (exit_status Z) :=
  run TEXT_LEN malloc_result.

End StringSearchOptimized.

(** ** bubble-sort_baseline.c *)
Module BubbleSortBaseline.

Definition N : Z := 10000.

Definition bubble_sort (arr : list Z) (n : Z) : result (list Z) :=
  for_lt 0 (n - 1) 1 (fun i arr =>
    for_lt 0 (n - i - 1) 1 (fun j arr =>
      x <- load arr j ;;
      y <- load arr (j + 1) ;;
      if x >? y then
        temp <- load arr j ;;
        v <- load arr (j + 1) ;;
        arr <- store arr j v ;;
        store arr (j + 1) temp
      else Ok arr) arr) arr.

(** The input generator of [main] for [n] elements. *)
Definition generate (n : Z) (arr : ptr Z) : result (ptr Z) :=
  st <- for_lt (S := ptr Z * Z) 0 n 1 (fun i '(arr, seed) =>
          let seed := lcg_next seed in
          arr <- pstore arr i (Z.land (Z.shiftr seed 16) 32767) ;;
          Ok (arr, seed)) (arr, 12345) ;;
  let '(arr, _) := st in
  Ok arr.

(** [for (i = 0; i < n; i++) checksum += arr[i] * (long long)(i + 1);] *)
Definition checksum_loop (n : Z) (arr : ptr Z) : result Z :=
  for_lt 0 n 1 (fun i checksum =>
    v <- pload arr i ;;
    Ok (checksum + v * (i + 1))) 0.

(** [main] for [n] elements, given what [malloc] returned. *)
Definition run (n : Z) (malloc_result : ptr Z) : result (exit_status Z) :=
  let arr := malloc_result in
  arr <- generate n arr ;;
  sorted <- with_buffer arr (fun a => bubble_sort a n) ;;
  let arr : ptr Z := Some sorted in
  checksum <- checksum_loop n arr ;;
  Ok (0, Some checksum).

Definition main (malloc_result : ptr Z) : result (exit_status Z) :=
  run N malloc_result.

End BubbleSortBaseline.

(** ** bubble-sort_optimized.c *)
Module BubbleSortOptimized.

Definition N : Z := 10000.
Definition MAX_VAL : Z := 32768.

(** What [calloc(k, sizeof(int))] returns when it succeeds. *)
Definition calloc (k : Z) : ptr Z := Some (replicate (Z.to_nat k) 0).

(** The two [while] loops that emit [c] copies of [val] from [idx] on.
    The state is [(arr, idx, c)]. *)
Definition emit (val : Z) (st : list Z * Z * Z) : result (list Z * Z * Z) :=
  let '(_, _, c0) := st in
  st <- while_loop (Z.to_nat c0) (fun '(_, _, c) => c >=? 8)
          (fun '(arr, idx, c) =>
             arr <- store arr idx val ;;
             arr <- store arr (idx + 1) val ;;
             arr <- store arr (idx + 2) val ;;
             arr <- store arr (idx + 3) val ;;
             arr <- store arr (idx + 4) val ;;
             arr <- store arr (idx + 5) val ;;
             arr <- store arr (idx + 6) val ;;
             arr <- store arr (idx + 7) val ;;
             let idx := idx + 8 in
             let c := c - 8 in
             Ok (arr, idx, c)) st ;;
  while_loop (Z.to_nat c0) (fun '(_, _, c) => c >? 0)
    (fun '(arr, idx, c) =>
       arr <- store arr idx val ;;
       let idx := idx + 1 in
       let c := c - 1 in
       Ok (arr, idx, c)) st.

(** The body of [optimized_sort], with the table size and the pointer that
    [calloc] returned as arguments. *)
Definition optimized_sort_with (max_val : Z) (count : ptr Z)
    (arr : list Z) (n : Z) : result (list Z) :=
  count <- for_lt 0 n 1 (fun i count =>
             v <- load arr i ;;
             c <- pload count v ;;
             pstore count v (c + 1)) count ;;
  let idx := 0 in
  st <- for_lt (S := list Z * Z) 0 max_val 1 (fun val '(arr, idx) =>
          c <- pload count val ;;
          if c >? 0 then
            st <- emit val (arr, idx, c) ;;
            let '(arr, idx, _) := st in
            Ok (arr, idx)
          else Ok (arr, idx)) (arr, idx) ;;
  let '(arr, _) := st in
  Ok arr.

Definition optimized_sort (arr : list Z) (n : Z) : result (list Z) :=
  optimized_sort_with MAX_VAL (calloc MAX_VAL) arr n.

(** The input generator of [main], four elements per round. *)
Definition generate (n : Z) (arr : ptr Z) : result (ptr Z) :=
  let mult := 1103515245 in
  let add := 12345 in
  st <- for_lt (S := ptr Z * Z) 0 n 4 (fun i '(arr, seed) =>
          let seed := (seed * mult + add) mod 2 ^ 32 in
          arr <- pstore arr i (Z.land (Z.shiftr seed 16) 32767) ;;
          st <- (if i + 1 <? n then
                   let seed := (seed * mult + add) mod 2 ^ 32 in
                   arr <- pstore arr (i + 1) (Z.land (Z.shiftr seed 16) 32767) ;;
                   Ok (arr, seed)
                 else Ok (arr, seed)) ;;
          let '(arr, seed) := st in
          st <- (if i + 2 <? n then
                   let seed := (seed * mult + add) mod 2 ^ 32 in
                   arr <- pstore arr (i + 2) (Z.land (Z.shiftr seed 16) 32767) ;;
                   Ok (arr, seed)
                 else Ok (arr, seed)) ;;
          let '(arr, seed) := st in
          (if i + 3 <? n then
             let seed := (seed * mult + add) mod 2 ^ 32 in
             arr <- pstore arr (i + 3) (Z.land (Z.shiftr seed 16) 32767) ;;
             Ok (arr, seed)
           else Ok (arr, seed))) (arr, 12345) ;;
  let '(arr, _) := st in
  Ok arr.

(** The unrolled checksum of [main]: four partial sums, a remainder
    branch, and the final assignment to [checksum]. *)
Definition checksum_loop (n : Z) (arr : ptr Z) : result Z :=
  let checksum := 0 in
  st <- for_lt (S := Z * Z * Z * Z * Z) 0 n 4
          (fun i '(checksum, sum1, sum2, sum3, sum4) =>
             let base := i + 1 in
             if i + 3 <? n then
               a0 <- pload arr i ;;
               a1 <- pload arr (i + 1) ;;
               a2 <- pload arr (i + 2) ;;
               a3 <- pload arr (i + 3) ;;
               Ok (checksum, sum1 + a0 * base, sum2 + a1 * (base + 1),
                   sum3 + a2 * (base + 2), sum4 + a3 * (base + 3))
             else
               st <- while_loop (S := Z * Z) 4
                       (fun '(j, _) => (j <? n) && (j <? i + 4))
                       (fun '(j, checksum) =>
                          v <- pload arr j ;;
                          Ok (j + 1, checksum + v * (j + 1)))
                       (i, checksum) ;;
               let '(_, checksum) := st in
               Ok (checksum, sum1, sum2, sum3, sum4))
          (checksum, 0, 0, 0, 0) ;;
  let '(checksum, sum1, sum2, sum3, sum4) := st in
  let checksum := sum1 + sum2 + sum3 + sum4 in
  Ok checksum.

Definition run (n : Z) (malloc_result : ptr Z) : result (exit_status Z) :=
  let arr := malloc_result in
  arr <- generate n arr ;;
  sorted <- with_buffer arr (fun a => optimized_sort a n) ;;
  let arr : ptr Z := Some sorted in
  checksum <- checksum_loop n arr ;;
  Ok (0, Some checksum).

Definition main (malloc_result : ptr Z) : result (exit_status Z) :=
  run N malloc_result.

End BubbleSortOptimized.

(** ** Floating point

    The kernels on [double] are embedded over an arbitrary carrier [T] with
    its own zero, addition, multiplication, division and conversion from
    [int]; nothing is assumed about them.  IEEE-754 binary64 with its
    rounding is one such carrier, the integers and the rationals are
    others. *)

(** ** matrix-multiply_baseline.c *)
Module MatrixMultiplyBaseline.

Definition N : Z := 256.

Section Arith.
Context {T : Type} (zero : T) (add mul div : T → T → T) (of_int : Z → T).

(** [matrix_multiply] for [n] by [n] matrices. *)
Definition matrix_multiply_n (n : Z) (A B C : list T) : result (list T) :=
  for_lt 0 n 1 (fun i C =>
    for_lt 0 n 1 (fun j C =>
      let sum := zero in
      sum <- for_lt 0 n 1 (fun k sum =>
               a <- load A (i * n + k) ;;
               b <- load B (k * n + j) ;;
               Ok (add sum (mul a b))) sum ;;
      store C (i * n + j) sum) C) C.

Definition matrix_multiply (A B C : list T) : result (list T) :=
  matrix_multiply_n N A B C.

(** The initialisation loop of [main]. *)
Definition init (n : Z) (A B : ptr T) : result (ptr T * ptr T) :=
  for_lt (S := ptr T * ptr T) 0 (n * n) 1 (fun i '(A, B) =>
    A <- pstore A i (div (of_int (Z.rem i 100)) (of_int 100)) ;;
    B <- pstore B i (div (of_int (Z.rem (i * 7) 100)) (of_int 100)) ;;
    Ok (A, B)) (A, B).

(** [for (i = 0; i < count; i++) checksum += C[i];] *)
Definition checksum_loop (count : Z) (C : list T) : result T :=
  for_lt 0 count 1 (fun i checksum =>
    c <- load C i ;;
    Ok (add checksum c)) zero.

(** [main] for [n] by [n] matrices, given what the three calls of
    [malloc] returned. *)
Definition run (n : Z) (mA mB mC : ptr T) : result (exit_status T) :=
  AB <- init n mA mB ;;
  let '(A, B) := AB in
  C <- with_buffer A (fun A =>
         with_buffer B (fun B =>
           with_buffer mC (fun C => matrix_multiply_n n A B C))) ;;
  checksum <- checksum_loop (n * n) C ;;
  Ok (0, Some checksum).

Definition main (mA mB mC : ptr T) : result (exit_status T) :=
  run N mA mB mC.

End Arith.

End MatrixMultiplyBaseline.

(** ** matrix-multiply_optimized.c *)
Module MatrixMultiplyOptimized.

Definition N : Z := 256.

Section Arith.
Context {T : Type} (zero : T) (add mul div : T → T → T) (of_int : Z → T).

(** A 256-bit vector of four [double] lanes. *)
Definition m256d : Type := (T * T * T * T)%type.

Definition _mm256_loadu_pd (a : list T) (off : Z) : result m256d :=
  x0 <- load a off ;;
  x1 <- load a (off + 1) ;;
  x2 <- load a (off + 2) ;;
  x3 <- load a (off + 3) ;;
  Ok (x0, x1, x2, x3).

Definition _mm256_storeu_pd (a : list T) (off : Z) (v : m256d)
    : result (list T) :=
  let '(x0, x1, x2, x3) := v in
  a <- store a off x0 ;;
  a <- store a (off + 1) x1 ;;
  a <- store a (off + 2) x2 ;;
  store a (off + 3) x3.

Definition _mm256_set1_pd (x : T) : m256d := (x, x, x, x).

Definition _mm256_setzero_pd : m256d := (zero, zero, zero, zero).

Definition _mm256_mul_pd (u v : m256d) : m256d :=
  let '(u0, u1, u2, u3) := u in
  let '(v0, v1, v2, v3) := v in
  (mul u0 v0, mul u1 v1, mul u2 v2, mul u3 v3).

Definition _mm256_add_pd (u v : m256d) : m256d :=
  let '(u0, u1, u2, u3) := u in
  let '(v0, v1, v2, v3) := v in
  (add u0 v0, add u1 v1, add u2 v2, add u3 v3).

(** [matrix_multiply] for [n] by [n] matrices.  [b_ptr] and [c_ptr] are
    offsets into [B] and [C]; [j] survives the vector loop and starts
    the remainder loop. *)
Definition matrix_multiply_n (n : Z) (A B C : list T) : result (list T) :=
  C <- for_lt 0 (n * n) 1 (fun i C => store C i zero) C ;;
  for_lt 0 n 1 (fun i C =>
    for_lt 0 n 1 (fun k C =>
      a_val <- load A (i * n + k) ;;
      let b_ptr := k * n in
      let c_ptr := i * n in
      st <- while_loop (S := Z * list T) (Z.to_nat n)
              (fun '(j, _) => j <=? n - 4)
              (fun '(j, C) =>
                 c_vec <- _mm256_loadu_pd C (c_ptr + j) ;;
                 b_vec <- _mm256_loadu_pd B (b_ptr + j) ;;
                 let a_vec := _mm256_set1_pd a_val in
                 let prod := _mm256_mul_pd a_vec b_vec in
                 let c_vec := _mm256_add_pd c_vec prod in
                 C <- _mm256_storeu_pd C (c_ptr + j) c_vec ;;
                 Ok (j + 4, C))
              (0, C) ;;
      st <- while_loop (S := Z * list T) (Z.to_nat n)
              (fun '(j, _) => j <? n)
              (fun '(j, C) =>
                 c <- load C (c_ptr + j) ;;
                 b <- load B (b_ptr + j) ;;
                 C <- store C (c_ptr + j) (add c (mul a_val b)) ;;
                 Ok (j + 1, C))
              st ;;
      let '(_, C) := st in
      Ok C) C) C.

Definition matrix_multiply (A B C : list T) : result (list T) :=
  matrix_multiply_n N A B C.

Definition init (n : Z) (A B : ptr T) : result (ptr T * ptr T) :=
  for_lt (S := ptr T * ptr T) 0 (n * n) 1 (fun i '(A, B) =>
    A <- pstore A i (div (of_int (Z.rem i 100)) (of_int 100)) ;;
    B <- pstore B i (div (of_int (Z.rem (i * 7) 100)) (of_int 100)) ;;
    Ok (A, B)) (A, B).

(** The vectorised reduction of [main] over [count] elements: four
    running lanes, their horizontal sum, then the remaining elements. *)
Definition checksum_loop (count : Z) (C : list T) : result T :=
  let sum_vec := _mm256_setzero_pd in
  st <- while_loop (S := Z * m256d) (Z.to_nat count)
          (fun '(i, _) => i <=? count - 4)
          (fun '(i, sum_vec) =>
             v <- _mm256_loadu_pd C i ;;
             Ok (i + 4, _mm256_add_pd sum_vec v))
          (0, sum_vec) ;;
  let '(i, sum_vec) := st in
  let '(t0, t1, t2, t3) := sum_vec in
  let checksum := add (add (add t0 t1) t2) t3 in
  st <- while_loop (S := Z * T) (Z.to_nat count)
          (fun '(i, _) => i <? count)
          (fun '(i, checksum) =>
             c <- load C i ;;
             Ok (i + 1, add checksum c))
          (i, checksum) ;;
  let '(_, checksum) := st in
  Ok checksum.

(** [main] for [n] by [n] matrices, given what the three calls of
    [aligned_alloc] returned. *)
Definition run (n : Z) (mA mB mC : ptr T) : result (exit_status T) :=
  if is_null mA || is_null mB || is_null mC then Ok (1, None)
  else
    AB <- init n mA mB ;;
    let '(A, B) := AB in
    C <- with_buffer A (fun A =>
           with_buffer B (fun B =>
             with_buffer mC (fun C => matrix_multiply_n n A B C))) ;;
    checksum <- checksum_loop (n * n) C ;;
    Ok (0, Some checksum).

Definition main (mA mB mC : ptr T) : result (exit_status T) :=
  run N mA mB mC.

End Arith.

End MatrixMultiplyOptimized.

(** ** array-sum_baseline.c *)
Module ArraySumBaseline.

Definition N : Z := 100000000.

Section Arith.
Context {T : Type} (zero : T) (add div : T → T → T) (of_int : Z → T).

Definition array_sum (arr : list T) (n : Z) : result T :=
  for_lt 0 n 1 (fun i sum =>
    v <- load arr i ;;
    Ok (add sum v)) zero.

(** [for (i = 0; i < n; i++) arr[i] = 1.0 / (i + 1);] *)
Definition fill (n : Z) (arr : ptr T) : result (ptr T) :=
  for_lt 0 n 1 (fun i arr =>
    pstore arr i (div (of_int 1) (of_int (i + 1)))) arr.

Definition run (n : Z) (malloc_result : ptr T) : result (exit_status T) :=
  let arr := malloc_result in
  arr <- fill n arr ;;
  r <- with_buffer arr (fun a => array_sum a n) ;;
  Ok (0, Some r).

Definition main (malloc_result : ptr T) : result (exit_status T) :=
  run N malloc_result.

End Arith.

End ArraySumBaseline.

(** ** array-sum_optimized.c *)
Module ArraySumOptimized.

Definition N : Z := 100000000.

Section Arith.
Context {T : Type} (div : T → T → T) (of_int : Z → T).

(** [array_sum] is an OpenMP reduction: how the runtime splits the range
    and in which order it combines the partial sums is not fixed by the
    source, so the function is taken as given. *)
Context (array_sum : list T → Z → result T).

(** The [schedule(static)] loop writes each [arr[i]] once, whatever
    thread runs the iteration; its effect is that of the plain loop. *)
Definition fill (n : Z) (arr : ptr T) : result (ptr T) :=
  for_lt 0 n 1 (fun i arr =>
    pstore arr i (div (of_int 1) (of_int (i + 1)))) arr.

Definition run (n : Z) (malloc_result : ptr T) : result (exit_status T) :=
  let arr := malloc_result in
  if is_null arr then Ok (1, None)
  else
    arr <- fill n arr ;;
    r <- with_buffer arr (fun a => array_sum a n) ;;
    Ok (0, Some r).

Definition main (malloc_result : ptr T) : result (exit_status T) :=
  run N malloc_result.

End Arith.

End ArraySumOptimized.

(** ** Reference functions and predicates used by the statements *)

(** A string literal as the bytes of a C string. *)
Definition c_string (s : string) : list ascii := list_ascii_of_string s.

(** [char a[size] = "..."]: an array of [size] bytes that holds the string
    and NUL bytes behind it. *)
Definition char_array (size : nat) (s : string) : list ascii :=
  take size (list_ascii_of_string s ++ replicate size NUL).

(** The objects behind [text] and [pattern] cover the sixteen bytes of every
    vector load that [optimized_search] can make: the load of the pattern,
    and the loads of the text at the alignments 0 to
    [strlen text - strlen pattern].  Nothing is asked of a pattern longer
    than sixteen bytes or longer than the text, for which no vector load is
    made. *)
Definition loads_in_bounds (text pattern : list ascii) : Prop :=
  strlen pattern ≤ 16 → strlen pattern ≤ strlen text →
  16 ≤ len pattern ∧ strlen text - strlen pattern + 16 ≤ len text.

(** [wp m P Q]: the computation [m] ends in a value that satisfies [P] or in
    a fault that satisfies [Q]. *)
Definition wp {A} (m : result A) (P : A → Prop) (Q : fault → Prop) : Prop :=
  match m with
  | Ok a => P a
  | Fault f => Q f
  end.

(** No fault at all. *)
Definition no_fault : fault → Prop := fun _ => False.

(** The Fibonacci numbers. *)
Fixpoint fib (n : nat) : Z :=
  match n with
  | O => 0
  | Datatypes.S n' =>
      match n' with
      | O => 1
      | Datatypes.S n'' => fib n' + fib n''
      end
  end.

(** Primality as a boolean. *)
Definition primeb (n : Z) : bool := if prime_dec n then true else false.

(** Number and sum of the primes in [[2, 2 + k)]. *)
Fixpoint prime_tally (k : nat) : Z * Z :=
  match k with
  | O => (0, 0)
  | Datatypes.S k' =>
      let '(count, sum) := prime_tally k' in
      let i := 2 + Z.of_nat k' in
      if primeb i then (count + 1, sum + i) else (count, sum)
  end.

(** [s[i]] as a value. *)
Definition char_at (s : list ascii) (i : Z) : ascii := nth (Z.to_nat i) s NUL.

(** The pattern occurs in the text at alignment [i]. *)
Definition occurs_at (text pattern : list ascii) (i : Z) : bool :=
  forallb (fun j => Ascii.eqb (char_at text (i + j)) (char_at pattern j))
          (seqZ 0 (strlen pattern)).

(** Number of alignments in [[0, k)] at which the pattern occurs. *)
Fixpoint occurrences_below (text pattern : list ascii) (k : nat) : Z :=
  match k with
  | O => 0
  | Datatypes.S k' =>
      occurrences_below text pattern k' + Z.b2z (occurs_at text pattern (Z.of_nat k'))
  end.

(** Number of occurrences of the pattern in the text, overlapping ones
    included: the alignments run from 0 to [strlen text - strlen pattern]. *)
Definition occurrences (text pattern : list ascii) : Z :=
  occurrences_below text pattern (Z.to_nat (strlen text - strlen pattern + 1)).

(** What the shift table holds for the byte [c] once the first [i] bytes of
    the pattern are entered: [m] if [c] is not among them, and otherwise
    [m - 1 - k] for the last position [k] of [c]. *)
Definition bad_char_entry (pattern : list ascii) (m i : Z) (c : ascii) (s : Z) : Prop :=
  ((∀ k, 0 ≤ k < i → char_at pattern k ≠ c) ∧ s = m)
  ∨ (∃ k, 0 ≤ k < i ∧ char_at pattern k = c
          ∧ (∀ k', k < k' < i → char_at pattern k' ≠ c) ∧ s = m - 1 - k).

(** A table of 256 entries, one per byte, each as [bad_char_entry] says. *)
Definition bad_char_table (pattern : list ascii) (m i : Z) (bad_char : list Z) : Prop :=
  length bad_char = 256%nat
  ∧ ∀ c, ∃ s, bad_char !! Z.to_nat (uchar c) = Some s ∧ bad_char_entry pattern m i c s.

(** Invariant of the two search loops of [optimized_search]: [count] is the
    number of occurrences at the alignments already passed. *)
Definition search_inv (text pattern : list ascii) (st : Z * Z) : Prop :=
  let '(i, count) := st in
  0 ≤ i
  ∧ count = occurrences_below text pattern
              (Z.to_nat (Z.min i (strlen text - strlen pattern + 1))).

(** Their variant: the alignments still ahead. *)
Definition search_var (text pattern : list ascii) (st : Z * Z) : Z :=
  let '(i, _) := st in strlen text - strlen pattern + 1 - i.

(** The value domain of the counting sort. *)
Definition in_domain (max_val v : Z) : Prop := 0 ≤ v < max_val.

(** Number of occurrences of [v] in [arr]. *)
Definition occ (arr : list Z) (v : Z) : Z := Z.of_nat (count_occ Z.eq_dec arr v).

(** What the reconstruction loop has written after the values below [k]:
    each value [v] as many times as [cnt v] says, in ascending order. *)
Fixpoint emitted (cnt : Z → Z) (k : nat) : list Z :=
  match k with
  | O => []
  | Datatypes.S k' =>
      emitted cnt k' ++ replicate (Z.to_nat (cnt (Z.of_nat k'))) (Z.of_nat k')
  end.

(** The array [a'] is [a] with the cells from [idx] up to [p] overwritten by
    [val]; only its first [p] cells matter. *)
Definition filled (a : list Z) (idx val : Z) (a' : list Z) (p : Z) : Prop :=
  idx ≤ p ∧ len a' = len a
  ∧ take (Z.to_nat p) a' = take (Z.to_nat idx) a ++ replicate (Z.to_nat (p - idx)) val.

(** Faults of the counting sort: some element of [arr] outside the domain
    was used as an index into the table of [max_val] counters. *)
Definition domain_fault (max_val : Z) (arr : list Z) (f : fault) : Prop :=
  ∃ v, v ∈ arr ∧ ¬ in_domain max_val v ∧ f = OutOfBounds v max_val.

(** The seed after [k] steps of the generator. *)
Fixpoint lcg_state (k : nat) (seed : Z) : Z :=
  match k with
  | O => seed
  | Datatypes.S k' => lcg_next (lcg_state k' seed)
  end.

(** The [k]-th value of the sort kernel's input, counting from 0. *)
Definition lcg_value (seed : Z) (k : nat) : Z :=
  Z.land (Z.shiftr (lcg_state (Datatypes.S k) seed) 16) 32767.

(** The first [n] values. *)
Definition lcg_values (seed : Z) (n : nat) : list Z :=
  map (lcg_value seed) (seq 0 n).

(** State of a generator loop that has produced the first [k] of [n]
    values. *)
Definition gen_inv (n k : Z) (st : ptr Z * Z) : Prop :=
  let '(arr, seed) := st in
  ∃ buf, arr = Some buf ∧ len buf = n
         ∧ take (Z.to_nat k) buf = lcg_values 12345 (Z.to_nat k)
         ∧ seed = lcg_state (Z.to_nat k) 12345.

(** The plain sequential checksum of the first [k] elements:
    the sum of [a[p] * (p + 1)]. *)
Fixpoint weighted_sum (a : list Z) (k : nat) : Z :=
  match k with
  | O => 0
  | Datatypes.S k' => weighted_sum a k' + nth k' a 0 * (Z.of_nat k' + 1)
  end.

Section MatrixReference.
Context {T : Type} (zero : T) (add mul : T → T → T).

(** Entry [(i, j)] of the row-major [n] by [n] matrix [M]. *)
Definition entry (n : Z) (M : list T) (i j : Z) : T :=
  nth (Z.to_nat (i * n + j)) M zero.

(** The triple product, entry [(i, j)]: the sum over the first [k] values
    of the inner index of [A[i][k'] * B[k'][j]], accumulated from zero in
    ascending order of [k']. *)
Fixpoint dot (n : Z) (A B : list T) (i j : Z) (k : nat) : T :=
  match k with
  | O => zero
  | Datatypes.S k' =>
      add (dot n A B i j k')
          (mul (entry n A i (Z.of_nat k')) (entry n B (Z.of_nat k') j))
  end.

(** The [n] by [n] matrix [C] holds [f i j] in its cell [(i, j)]. *)
Definition cells (n : Z) (C : list T) (f : Z → Z → T) : Prop :=
  len C = n * n
  ∧ ∀ i j, 0 ≤ i < n → 0 ≤ j < n → C !! Z.to_nat (i * n + j) = Some (f i j).
End MatrixReference.

(** The plain left-to-right sum of the first [k] elements, from [zero]. *)
Fixpoint seq_sum {T : Type} (zero : T) (add : T → T → T) (C : list T) (k : nat) : T :=
  match k with
  | O => zero
  | Datatypes.S k' => add (seq_sum zero add C k') (nth k' C zero)
  end.

(** The horizontal sum of a vector of four lanes, as [main] computes it. *)
Definition hsum {T : Type} (add : T → T → T) (v : T * T * T * T) : T :=
  let '(t0, t1, t2, t3) := v in add (add (add t0 t1) t2) t3.

(** The terms of the array-sum kernel: [1.0 / (i + 1)] for [i] below [n]. *)
Definition harmonic_terms {T : Type} (div : T → T → T) (of_int : Z → T) (n : Z) : list T :=
  map (fun i => div (of_int 1) (of_int (i + 1))) (seqZ 0 n).

(** A letter of the alphabet of the generated text, ['A'] to ['H']. *)
Definition letter (c : ascii) : Prop := 65 ≤ uchar c ≤ 72.

(** State of the text generator after [i] characters. *)
Definition text_inv (text_len i : Z) (st : ptr ascii * Z) : Prop :=
  let '(text, seed) := st in
  ∃ buf, text = Some buf ∧ len buf = text_len + 1 ∧ 0 ≤ seed < 2 ^ 32
         ∧ ∀ p, 0 ≤ p < i → letter (char_at buf p).

(** Inputs at which the statements are instantiated. *)
Definition ones_matrix : list Z := replicate (Z.to_nat (256 * 256)) 1.
Definition zero_buffer : list Z := replicate (Z.to_nat 10000) 0.

(** * Proofs *)

(** ** Rules for [result] and the loops *)

Lemma wp_bind {A B} (m : result A) (k : A → result B) P Q :
  wp m (fun a => wp (k a) P Q) Q → wp (bind m k) P Q.
Proof. destruct m; simpl; auto. Qed.

Lemma wp_mono {A} (m : result A) (P P' : A → Prop) (Q Q' : fault → Prop) :
  wp m P Q → (∀ a, P a → P' a) → (∀ f, Q f → Q' f) → wp m P' Q'.
Proof. destruct m; simpl; auto. Qed.

Lemma wp_ok {A} (m : result A) (P : A → Prop) :
  wp m P no_fault ↔ ∃ a, m = Ok a ∧ P a.
Proof.
  destruct m; simpl; split.
  - eauto.
  - intros (? & [= <-] & ?); auto.
  - intros [].
  - intros (? & [=] & _).
Qed.

Lemma wp_ok_elim {A} (m : result A) (P : A → Prop) :
  wp m P no_fault → ∃ a, m = Ok a ∧ P a.
Proof. apply wp_ok. Qed.

Lemma wp_eq {A} (m : result A) (a : A) (Q : fault → Prop) :
  m = Ok a → ∀ P : A → Prop, P a → wp m P Q.
Proof. intros -> P HP. exact HP. Qed.

Lemma Ok_inj {A} (a b : A) : Ok a = Ok b → a = b.
Proof. intros [= ->]. reflexivity. Qed.

Lemma bind_ok {A B} (m : result A) (k : A → result B) a :
  m = Ok a → bind m k = k a.
Proof. intros ->. reflexivity. Qed.

Lemma bind_ok_inv {A B} (m : result A) (k : A → result B) b :
  bind m k = Ok b → ∃ a, m = Ok a ∧ k a = Ok b.
Proof. destruct m; simpl; [eauto | discriminate]. Qed.

(** ** Arrays *)

Lemma len_nonneg {A} (a : list A) : 0 ≤ len a.
Proof. unfold len. lia. Qed.

Lemma load_ok {A} (a : list A) i v :
  0 ≤ i → a !! Z.to_nat i = Some v → load a i = Ok v.
Proof.
  intros Hi Hv. unfold load.
  pose proof (lookup_lt_Some _ _ _ Hv) as Hlt.
  assert (i < len a) by (unfold len; lia).
  destruct (Z.leb_spec 0 i); [| lia].
  destruct (Z.ltb_spec i (len a)); [| lia].
  simpl. rewrite Hv. reflexivity.
Qed.

Lemma load_in_range {A} (a : list A) i :
  0 ≤ i < len a → ∃ v, load a i = Ok v ∧ a !! Z.to_nat i = Some v.
Proof.
  intros Hi. destruct (lookup_lt_is_Some_2 a (Z.to_nat i)) as [v Hv].
  { unfold len in Hi. lia. }
  exists v. split; [apply load_ok; [lia | done] | done].
Qed.

Lemma load_out_of_range {A} (a : list A) i :
  ¬ (0 ≤ i < len a) → load a i = Fault (OutOfBounds i (len a)).
Proof.
  intros Hi. unfold load.
  destruct (Z.leb_spec 0 i); destruct (Z.ltb_spec i (len a)); simpl; try done; lia.
Qed.

Lemma store_ok {A} (a : list A) i v :
  0 ≤ i < len a → store a i v = Ok (<[Z.to_nat i := v]> a).
Proof.
  intros Hi. unfold store.
  destruct (Z.leb_spec 0 i); [| lia].
  destruct (Z.ltb_spec i (len a)); [| lia]. reflexivity.
Qed.

Lemma store_out_of_range {A} (a : list A) i v :
  ¬ (0 ≤ i < len a) → store a i v = Fault (OutOfBounds i (len a)).
Proof.
  intros Hi. unfold store.
  destruct (Z.leb_spec 0 i); destruct (Z.ltb_spec i (len a)); simpl; try done; lia.
Qed.

Lemma len_insert {A} (a : list A) i v : len (<[i := v]> a) = len a.
Proof. unfold len. by rewrite length_insert. Qed.

(** ** Loops *)

Lemma wp_for_loop {S} (I : Z → S → Prop) (Q : fault → Prop)
    hi stride (body : Z → S → result S) :
  0 < stride →
  (∀ i s, i < hi → I i s → wp (body i s) (I (i + stride)) Q) →
  ∀ fuel i s,
    (Z.to_nat (hi - i) ≤ fuel)%nat → I i s →
    wp (for_loop fuel i hi stride body s)
       (fun s' => ∃ i', I i' s' ∧ hi ≤ i' ∧ (i' = i ∨ i' < hi + stride)) Q.
Proof.
  intros Hstride Hbody fuel. induction fuel as [| fuel IH]; intros i s Hfuel HI; simpl.
  - destruct (Z.ltb_spec i hi); [lia |]. simpl. exists i. auto.
  - destruct (Z.ltb_spec i hi) as [Hlt | Hge].
    + apply wp_bind. eapply wp_mono; [apply Hbody; eauto | | auto].
      intros s' HI'. eapply wp_mono; [apply IH; [lia | exact HI'] | | auto].
      simpl. intros s'' (i' & HI'' & Hhi & Hi'). exists i'. repeat split; auto.
      right. lia.
    + simpl. exists i. auto.
Qed.

(** The rule for [for (i = lo; i < hi; i += stride)]. *)
Lemma wp_for_lt {S} (I : Z → S → Prop) (Q : fault → Prop)
    lo hi stride (body : Z → S → result S) s :
  0 < stride →
  I lo s →
  (∀ i s, lo ≤ i < hi → I i s → wp (body i s) (I (i + stride)) Q) →
  wp (for_lt lo hi stride body s)
     (fun s' => ∃ i', I i' s' ∧ hi ≤ i' ∧ (i' = lo ∨ i' < hi + stride)) Q.
Proof.
  intros Hstride HI Hbody. unfold for_lt.
  pose (I' := fun i s => lo ≤ i ∧ I i s).
  eapply wp_mono;
    [apply (wp_for_loop I' Q hi stride body Hstride) with (i := lo) (s := s) | |].
  - intros i s0 Hi [Hlo HI0]. eapply wp_mono; [apply Hbody; [lia | done] | | auto].
    intros s' HI'. split; [lia | done].
  - lia.
  - split; [lia | done].
  - simpl. intros s' (i' & [_ HI'] & ?). eauto.
  - auto.
Qed.

(** The same for a unit stride: the loop stops at [hi] exactly. *)
Lemma wp_for_lt_1 {S} (I : Z → S → Prop) (Q : fault → Prop)
    lo hi (body : Z → S → result S) s :
  lo ≤ hi →
  I lo s →
  (∀ i s, lo ≤ i < hi → I i s → wp (body i s) (I (i + 1)) Q) →
  wp (for_lt lo hi 1 body s) (I hi) Q.
Proof.
  intros Hle HI Hbody.
  eapply wp_mono; [apply (wp_for_lt I Q lo hi 1 body s); [lia | done | done] | | auto].
  simpl. intros s' (i' & HI' & Hhi & Hi').
  replace hi with i' by lia. done.
Qed.

(** A loop over an empty range does nothing. *)
Lemma for_lt_empty {S} lo hi stride (body : Z → S → result S) s :
  hi ≤ lo → for_lt lo hi stride body s = Ok s.
Proof.
  intros Hle. unfold for_lt. replace (Z.to_nat (hi - lo)) with O by lia. simpl.
  destruct (Z.ltb_spec lo hi); [lia | done].
Qed.

(** The rule for [while]: an invariant [I] and a variant [V] that the body
    decreases and that is positive whenever the loop goes on. *)
Lemma wp_while {S} (I : S → Prop) (V : S → Z) (Q : fault → Prop)
    (cond : S → bool) (body : S → result S) :
  (∀ s, I s → cond s = true →
        0 < V s ∧ wp (body s) (fun s' => I s' ∧ V s' < V s) Q) →
  ∀ fuel s,
    V s ≤ Z.of_nat fuel → I s →
    wp (while_loop fuel cond body s) (fun s' => I s' ∧ cond s' = false) Q.
Proof.
  intros Hbody fuel. induction fuel as [| fuel IH]; intros s Hfuel HI; simpl.
  - destruct (cond s) eqn:Hc; simpl; [| done].
    destruct (Hbody s HI Hc) as [HV _]. lia.
  - destruct (cond s) eqn:Hc; simpl; [| done].
    destruct (Hbody s HI Hc) as [HV Hwp].
    apply wp_bind. eapply wp_mono; [exact Hwp | | auto].
    simpl. intros s' [HI' HV']. apply IH; [lia | done].
Qed.

(** From here on the loops are used through their rules only. *)
#[local] Arguments for_loop : simpl never.
#[local] Arguments for_lt : simpl never.
#[local] Arguments for_le : simpl never.
#[local] Arguments while_loop : simpl never.

(** ** Fibonacci *)

Lemma fib_step n :
  2 ≤ n → fib (Z.to_nat n) = fib (Z.to_nat (n - 1)) + fib (Z.to_nat (n - 2)).
Proof.
  intros Hn.
  replace (Z.to_nat n) with (Datatypes.S (Datatypes.S (Z.to_nat (n - 2)))) by lia.
  replace (Z.to_nat (n - 1)) with (Datatypes.S (Z.to_nat (n - 2))) by lia.
  reflexivity.
Qed.

Lemma fib_nonneg k : 0 ≤ fib k.
Proof.
  assert (H : 0 ≤ fib k ∧ 0 ≤ fib (Datatypes.S k)).
  { induction k as [| k [IH1 IH2]]; [simpl; lia |].
    split; [done |]. change (fib (Datatypes.S (Datatypes.S k))) with (fib (Datatypes.S k) + fib k). lia. }
  tauto.
Qed.

Lemma baseline_fibonacci_rec_ok fuel : ∀ n,
  0 ≤ n → (Z.to_nat n ≤ Datatypes.S fuel)%nat →
  FibonacciBaseline.fibonacci_rec fuel n = Ok (fib (Z.to_nat n)).
Proof.
  induction fuel as [| fuel IH]; intros n Hn Hfuel; simpl.
  - destruct (Z.leb_spec n 1); [| lia].
    assert (n = 0 ∨ n = 1) as [-> | ->] by lia; reflexivity.
  - destruct (Z.leb_spec n 1).
    + assert (n = 0 ∨ n = 1) as [-> | ->] by lia; reflexivity.
    + rewrite (IH (n - 1)) by lia. simpl.
      rewrite (IH (n - 2)) by lia. simpl.
      by rewrite (fib_step n) by lia.
Qed.

Lemma baseline_fibonacci_spec n :
  FibonacciBaseline.fibonacci n = Ok (if n <? 0 then n else fib (Z.to_nat n)).
Proof.
  unfold FibonacciBaseline.fibonacci. destruct (Z.ltb_spec n 0).
  - replace (Z.to_nat n) with O by lia. simpl.
    destruct (Z.leb_spec n 1); [done | lia].
  - apply baseline_fibonacci_rec_ok; lia.
Qed.

Lemma optimized_fibonacci_spec n :
  FibonacciOptimized.fibonacci n = Ok (if n <? 0 then n else fib (Z.to_nat n)).
Proof.
  unfold FibonacciOptimized.fibonacci.
  destruct (Z.leb_spec n 1).
  - destruct (Z.ltb_spec n 0); [done |].
    assert (n = 0 ∨ n = 1) as [-> | ->] by lia; reflexivity.
  - destruct (Z.ltb_spec n 0); [lia |].
    pose (I := fun (i : Z) (ab : Z * Z) =>
                 ab = (fib (Z.to_nat (i - 2)), fib (Z.to_nat (i - 1)))).
    lazymatch goal with
    | |- bind ?m _ = _ => assert (Hloop : wp m (I (n + 1)) no_fault)
    end.
    { unfold for_le. apply wp_for_lt_1; [lia | reflexivity |].
      intros i [a b] Hi [= -> ->]. simpl. unfold I. f_equal.
      - f_equal. lia.
      - rewrite (fib_step (i + 1 - 1)) by lia. rewrite Z.add_comm. do 2 f_equal; lia. }
    destruct (wp_ok_elim _ _ Hloop) as ([a b] & -> & [= -> ->]). simpl.
    do 2 f_equal. lia.
Qed.

(** ** Trial division *)

#[local] Arguments primeb : simpl never.

Lemma primeb_true n : primeb n = true ↔ Z.prime n.
Proof.
  rewrite prime_alt. unfold primeb.
  destruct (prime_dec n); split; auto; discriminate.
Qed.

Lemma primeb_eq (b : bool) n : (b = true ↔ Z.prime n) → b = primeb n.
Proof.
  intros H. destruct b, (primeb n) eqn:E; try done.
  - apply proj1 in H. specialize (H eq_refl). apply primeb_true in H. congruence.
  - apply primeb_true in E. apply H in E. done.
Qed.

Lemma rem_zero_divide n d : d ≠ 0 → (Z.rem n d =? 0) = true ↔ (d | n).
Proof. intros Hd. rewrite Z.eqb_eq. by apply Z.rem_divide. Qed.

Lemma prime_no_divisor n :
  2 ≤ n → (Z.prime n ↔ ∀ d, 2 ≤ d < n → ¬ (d | n)).
Proof.
  intros Hn. unfold Z.prime. split.
  - intros [_ H] d Hd. apply H. lia.
  - intros H. split; [lia |]. intros d Hd. apply H. lia.
Qed.

Lemma baseline_is_prime_loop_spec fuel : ∀ n i,
  2 ≤ i → (Z.to_nat (n - i) ≤ fuel)%nat →
  ∃ b, PrimeSieveBaseline.is_prime_loop fuel n i = Ok b
       ∧ (b = true ↔ ∀ d, i ≤ d < n → ¬ (d | n)).
Proof.
  induction fuel as [| fuel IH]; intros n i Hi Hfuel; simpl.
  - destruct (Z.ltb_spec i n); [lia |]. exists true. split; [done |].
    split; [intros _ d Hd; lia | done].
  - destruct (Z.ltb_spec i n) as [Hlt | Hge].
    + destruct (Z.rem n i =? 0) eqn:Hrem.
      * exists false. split; [done |]. split; [done |]. intros H. exfalso.
        apply (H i); [lia |]. apply rem_zero_divide in Hrem; [done | lia].
      * destruct (IH n (i + 1)) as (b & -> & Hb); [lia | lia |].
        exists b. split; [done |]. rewrite Hb. split.
        -- intros H d Hd. destruct (decide (d = i)) as [-> | Hne].
           ++ intros Hdiv. apply rem_zero_divide in Hdiv; [congruence | lia].
           ++ apply H. lia.
        -- intros H d Hd. apply H. lia.
    + exists true. split; [done |]. split; [intros _ d Hd; lia | done].
Qed.

Lemma baseline_is_prime_spec n :
  PrimeSieveBaseline.is_prime n = Ok (primeb n).
Proof.
  unfold PrimeSieveBaseline.is_prime. destruct (Z.ltb_spec n 2) as [Hlt | Hge].
  - f_equal. apply primeb_eq. split; [done |]. intros Hp.
    apply Z.prime_ge_2 in Hp. lia.
  - destruct (baseline_is_prime_loop_spec (Z.to_nat n) n 2) as (b & -> & Hb); [lia | lia |].
    f_equal. apply primeb_eq. rewrite Hb. symmetry. by apply prime_no_divisor.
Qed.

Lemma optimized_is_prime_loop_spec fuel : ∀ n limit i,
  3 ≤ i → Z.odd i = true → (Z.to_nat (limit - i + 1) ≤ fuel)%nat →
  ∃ b, PrimeSieveOptimized.is_prime_loop fuel n limit i = Ok b
       ∧ (b = true ↔ ∀ d, i ≤ d ≤ limit → Z.odd d = true → ¬ (d | n)).
Proof.
  induction fuel as [| fuel IH]; intros n limit i Hi Hodd Hfuel; simpl.
  - destruct (Z.leb_spec i limit); [lia |]. exists true. split; [done |].
    split; [intros _ d Hd; lia | done].
  - destruct (Z.leb_spec i limit) as [Hle | Hgt].
    + destruct (Z.rem n i =? 0) eqn:Hrem.
      * exists false. split; [done |]. split; [done |]. intros H. exfalso.
        apply (H i); [lia | done |]. apply rem_zero_divide in Hrem; [done | lia].
      * destruct (IH n limit (i + 2)) as (b & -> & Hb); [lia | | lia |].
        { rewrite Z.odd_add, Hodd. reflexivity. }
        exists b. split; [done |]. rewrite Hb. split.
        -- intros H d Hd Hd_odd. destruct (decide (d = i)) as [-> | Hne].
           ++ intros Hdiv. apply rem_zero_divide in Hdiv; [congruence | lia].
           ++ apply H; [| done]. destruct (decide (d = i + 1)) as [-> | Hne']; [| lia].
              rewrite Z.odd_add, Hodd in Hd_odd. discriminate.
        -- intros H d Hd. apply H. lia.
    + exists true. split; [done |]. split; [intros _ d Hd; lia | done].
Qed.

(** A composite odd number has an odd divisor between 3 and its square
    root. *)
Lemma odd_composite_small_divisor n d :
  Z.odd n = true → 2 ≤ d < n → (d | n) →
  ∃ e, 3 ≤ e ≤ Z.sqrt n ∧ Z.odd e = true ∧ (e | n).
Proof.
  intros Hodd Hd [q Hq].
  assert (Hq2 : 2 ≤ q) by nia.
  assert (Hfactor_odd : ∀ a b, n = a * b → Z.odd a = true).
  { intros a b ->. rewrite Z.odd_mul in Hodd. by apply andb_true_iff in Hodd as [? _]. }
  assert (Hd_odd : Z.odd d = true) by (apply (Hfactor_odd d q); lia).
  assert (Hq_odd : Z.odd q = true) by (apply (Hfactor_odd q d); lia).
  assert (Hge3 : ∀ a, 2 ≤ a → Z.odd a = true → 3 ≤ a).
  { intros a Ha Hoa. destruct (decide (a = 2)) as [-> | ?]; [discriminate | lia]. }
  destruct (Z.le_gt_cases d q) as [Hle | Hgt].
  - exists d. split; [split |]; [apply Hge3; [lia | done] | | split; [done | by exists q]].
    apply Z.sqrt_le_square; nia.
  - exists q. split; [split |]; [apply Hge3; [lia | done] | | split; [done | exists d; lia]].
    apply Z.sqrt_le_square; nia.
Qed.

Lemma optimized_is_prime_spec n :
  PrimeSieveOptimized.is_prime_optimized n = Ok (primeb n).
Proof.
  unfold PrimeSieveOptimized.is_prime_optimized, PrimeSieveOptimized.int_sqrt.
  destruct (Z.ltb_spec n 2) as [Hlt | Hge].
  { f_equal. apply primeb_eq. split; [done |]. intros Hp. apply Z.prime_ge_2 in Hp. lia. }
  destruct (Z.eqb_spec n 2) as [-> | Hne2].
  { f_equal. apply primeb_eq. split; [intros _; apply Z.prime_2 | done]. }
  destruct (Z.rem n 2 =? 0) eqn:Hrem.
  { f_equal. apply primeb_eq. split; [done |]. intros Hp. exfalso.
    apply rem_zero_divide in Hrem; [| lia].
    apply (proj1 (prime_no_divisor n Hge) Hp 2); [lia | done]. }
  assert (Hodd : Z.odd n = true).
  { rewrite Z.eqb_neq in Hrem. rewrite Z.rem_mod_nonneg in Hrem by lia.
    apply Z.odd_spec. exists (n / 2).
    pose proof (Z.div_mod n 2). pose proof (Z.mod_pos_bound n 2). lia. }
  destruct (optimized_is_prime_loop_spec (Z.to_nat (Z.sqrt n)) n (Z.sqrt n) 3)
    as (b & -> & Hb); [lia | done | lia |].
  f_equal. apply primeb_eq. rewrite Hb, (prime_no_divisor n Hge). split.
  - intros H d Hd Hdiv.
    destruct (odd_composite_small_divisor n d Hodd Hd Hdiv) as (e & He & He_odd & He_div).
    by apply (H e).
  - intros H d Hd _. apply H.
    assert (Z.sqrt n < n) by (apply Z.sqrt_lt_lin; lia). lia.
Qed.

Lemma prime_tally_succ k :
  prime_tally (Datatypes.S k) =
    let i := 2 + Z.of_nat k in
    if primeb i then ((prime_tally k).1 + 1, (prime_tally k).2 + i) else prime_tally k.
Proof. simpl. destruct (prime_tally k), (primeb _); reflexivity. Qed.

Lemma prime_tally_next i :
  2 ≤ i →
  prime_tally (Z.to_nat (i + 1 - 2)) =
    if primeb i then ((prime_tally (Z.to_nat (i - 2))).1 + 1,
                      (prime_tally (Z.to_nat (i - 2))).2 + i)
    else prime_tally (Z.to_nat (i - 2)).
Proof.
  intros Hi. replace (Z.to_nat (i + 1 - 2)) with (Datatypes.S (Z.to_nat (i - 2))) by lia.
  rewrite prime_tally_succ. simpl. replace (2 + Z.of_nat (Z.to_nat (i - 2))) with i by lia.
  reflexivity.
Qed.

Lemma even_not_prime i : 2 < i → Z.even i = true → primeb i = false.
Proof.
  intros Hi Heven. destruct (primeb i) eqn:E; [| done].
  apply primeb_true in E. exfalso.
  apply (proj1 (prime_no_divisor i ltac:(lia)) E 2); [lia |].
  apply Z.even_spec in Heven as [k ->]. exists k. lia.
Qed.

(** The baseline scan counts and sums the primes in [[2, max)]. *)
Lemma baseline_scan_spec max :
  2 ≤ max →
  PrimeSieveBaseline.scan max = Ok (prime_tally (Z.to_nat (max - 2))).
Proof.
  intros Hmax. unfold PrimeSieveBaseline.scan.
  pose (I := fun (i : Z) (cs : Z * Z) => cs = prime_tally (Z.to_nat (i - 2))).
  lazymatch goal with
  | |- ?m = _ => assert (Hloop : wp m (I max) no_fault)
  end.
  { apply wp_for_lt_1; [done | reflexivity |].
    intros i [count sum] Hi HI. rewrite baseline_is_prime_spec. simpl.
    unfold I in *. rewrite prime_tally_next by lia. rewrite <- HI.
    destruct (primeb i); reflexivity. }
  destruct (wp_ok_elim _ _ Hloop) as (cs & -> & ->). reflexivity.
Qed.

(** The optimized scan visits the odd numbers two at a time and reaches the
    same pair. *)
Lemma optimized_scan_spec max :
  3 ≤ max →
  PrimeSieveOptimized.scan max = Ok (prime_tally (Z.to_nat (max - 2))).
Proof.
  intros Hmax. unfold PrimeSieveOptimized.scan.
  pose (I := fun (st : Z * Z * Z) =>
               let '(i, count, sum) := st in
               3 ≤ i ∧ Z.odd i = true
               ∧ (count, sum) = prime_tally (Z.to_nat (Z.min i max - 2))).
  pose (V := fun (st : Z * Z * Z) => let '(i, _, _) := st in max - i).
  lazymatch goal with
  | |- bind ?m _ = _ => assert (Hloop : wp m (fun st => I st ∧ max ≤ st.1.1) no_fault)
  end.
  { eapply wp_mono; [eapply (wp_while I V no_fault) | |].
    - intros [[i count] sum] (Hi & Hodd & Htally) Hcond.
      apply Z.ltb_lt in Hcond. simpl. split; [lia |].
      rewrite optimized_is_prime_spec. simpl.
      assert (Heven1 : primeb (i + 1) = false).
      { apply even_not_prime; [lia |]. rewrite Z.even_add, <- Z.negb_odd, Hodd. done. }
      assert (Hodd2 : Z.odd (i + 2) = true) by (rewrite Z.odd_add, Hodd; done).
      assert (Heven3 : primeb (i + 3) = false).
      { apply even_not_prime; [lia |]. rewrite Z.even_add, <- Z.negb_odd, Hodd. done. }
      assert (Hodd4 : Z.odd (i + 2 + 2) = true) by (rewrite Z.odd_add, Hodd2; done).
      rewrite Z.min_l in Htally by lia.
      assert (H1 : prime_tally (Z.to_nat (i + 1 - 2)) =
                   if primeb i then (count + 1, sum + i) else (count, sum)).
      { rewrite prime_tally_next by lia. rewrite <- Htally. done. }
      assert (H2 : prime_tally (Z.to_nat (i + 2 - 2)) = prime_tally (Z.to_nat (i + 1 - 2))).
      { replace (i + 2) with (i + 1 + 1) by lia.
        rewrite (prime_tally_next (i + 1)) by lia. by rewrite Heven1. }
      destruct (Z.ltb_spec (i + 2) max) as [Hlt | Hge].
      + rewrite optimized_is_prime_spec. simpl.
        assert (H3 : prime_tally (Z.to_nat (i + 3 - 2)) =
                     let cs := prime_tally (Z.to_nat (i + 2 - 2)) in
                     if primeb (i + 2) then (cs.1 + 1, cs.2 + (i + 2)) else cs).
        { replace (i + 3) with (i + 2 + 1) by lia.
          by rewrite (prime_tally_next (i + 2)) by lia. }
        assert (H4 : prime_tally (Z.to_nat (Z.min (i + 2 + 2) max - 2)) =
                     prime_tally (Z.to_nat (i + 3 - 2))).
        { destruct (decide (max = i + 3)) as [-> | Hne].
          - rewrite Z.min_r by lia. done.
          - rewrite Z.min_l by lia. replace (i + 2 + 2) with (i + 3 + 1) by lia.
            rewrite (prime_tally_next (i + 3)) by lia. by rewrite Heven3. }
        rewrite H2, H1 in H3. simpl in H3.
        destruct (primeb i), (primeb (i + 2)); simpl;
          (split; [split; [lia | split; [done | by rewrite H4, H3]] | lia]).
      + simpl.
        assert (H4 : prime_tally (Z.to_nat (Z.min (i + 2 + 2) max - 2)) =
                     prime_tally (Z.to_nat (i + 1 - 2))).
        { rewrite Z.min_r by lia. destruct (decide (max = i + 1)) as [-> | Hne]; [done |].
          replace max with (i + 2) by lia. done. }
        destruct (primeb i); simpl;
          (split; [split; [lia | split; [done | by rewrite H4, H1]] | lia]).
    - simpl. lia.
    - simpl. split; [lia | split; [done |]]. rewrite Z.min_l by lia.
      change (Z.to_nat (3 - 2)) with 1%nat. rewrite prime_tally_succ. simpl.
      change (2 + Z.of_nat 0) with 2.
      assert (primeb 2 = true) as -> by apply primeb_true, Z.prime_2. reflexivity.
    - simpl. intros [[i count] sum] [HI Hcond]. split; [done |].
      apply Z.ltb_ge in Hcond. done.
    - auto. }
  destruct (wp_ok_elim _ _ Hloop) as ([[i count] sum] & -> & (Hi & Hodd & Htally) & Hge).
  simpl in *. rewrite Z.min_r in Htally by lia. by rewrite Htally.
Qed.

(** ** Substring search *)

Lemma peek_ok s i : 0 ≤ i → peek s i = Ok (char_at s i).
Proof. intros Hi. unfold peek. destruct (Z.ltb_spec i 0); [lia | done]. Qed.

Lemma strlen_nonneg s : 0 ≤ strlen s.
Proof. induction s as [| c s IH]; simpl; [lia |]. destruct (Ascii.eqb c NUL); lia. Qed.

Lemma strlen_le_len s : strlen s ≤ len s.
Proof.
  unfold len. induction s as [| c s IH]; simpl; [lia |].
  destruct (Ascii.eqb c NUL); lia.
Qed.

(** Before the terminator no byte is NUL, and the terminator is. *)
Lemma strlen_not_nul s i : 0 ≤ i < strlen s → char_at s i ≠ NUL.
Proof.
  unfold char_at. revert i. induction s as [| c s IH]; intros i Hi; simpl in *; [lia |].
  destruct (Ascii.eqb_spec c NUL) as [-> | Hc]; [lia |].
  destruct (Z.to_nat i) as [| k] eqn:Hk; [done |].
  specialize (IH (i - 1)). replace (Z.to_nat (i - 1)) with k in IH by lia.
  apply IH. lia.
Qed.

Lemma strlen_nul s : char_at s (strlen s) = NUL.
Proof.
  unfold char_at. induction s as [| c s IH]; simpl; [done |].
  destruct (Ascii.eqb_spec c NUL) as [-> | Hc]; [done |].
  pose proof (strlen_nonneg s).
  replace (Z.to_nat (1 + strlen s)) with (Datatypes.S (Z.to_nat (strlen s))) by lia.
  done.
Qed.

Lemma occurs_at_spec text pattern i :
  occurs_at text pattern i = true ↔
  ∀ k, 0 ≤ k < strlen pattern → char_at text (i + k) = char_at pattern k.
Proof.
  unfold occurs_at. rewrite forallb_forall. split.
  - intros H k Hk. apply Ascii.eqb_eq. apply (H k).
    apply (proj1 (list_elem_of_In _ _)), elem_of_seqZ. lia.
  - intros H k Hk. apply list_elem_of_In in Hk. apply elem_of_seqZ in Hk.
    apply Ascii.eqb_eq, H. lia.
Qed.

Lemma occurrences_below_nonneg text pattern k : 0 ≤ occurrences_below text pattern k.
Proof. induction k as [| k IH]; simpl; [lia |]. destruct (occurs_at _ _ _); simpl; lia. Qed.

Lemma occurrences_below_le text pattern k :
  occurrences_below text pattern k ≤ Z.of_nat k.
Proof. induction k as [| k IH]; simpl; [lia |]. destruct (occurs_at _ _ _); simpl; lia. Qed.

Lemma occurrences_below_next text pattern i :
  0 ≤ i →
  occurrences_below text pattern (Z.to_nat (i + 1)) =
    occurrences_below text pattern (Z.to_nat i) + Z.b2z (occurs_at text pattern i).
Proof.
  intros Hi. replace (Z.to_nat (i + 1)) with (Datatypes.S (Z.to_nat i)) by lia.
  simpl. by rewrite Z2Nat.id by lia.
Qed.

(** Alignments without an occurrence do not change the count. *)
Lemma occurrences_below_skip text pattern i d :
  0 ≤ i → 0 ≤ d →
  (∀ i', i ≤ i' < i + d → occurs_at text pattern i' = false) →
  occurrences_below text pattern (Z.to_nat (i + d)) =
    occurrences_below text pattern (Z.to_nat i).
Proof.
  intros Hi Hd. pattern d. apply natlike_ind; [| | exact Hd].
  - intros _. by rewrite Z.add_0_r.
  - clear d Hd. intros d Hd IH Hnone.
    replace (i + Z.succ d) with (i + d + 1) by lia.
    rewrite occurrences_below_next by lia.
    rewrite (Hnone (i + d)) by lia. simpl. rewrite IH; [lia |].
    intros i' Hi'. apply Hnone. lia.
Qed.

Lemma compare_loop_spec text pattern i m fuel : ∀ j,
  0 ≤ i → 0 ≤ j ≤ m → (Z.to_nat (m - j) ≤ fuel)%nat →
  ∃ j', StringSearchBaseline.compare_loop fuel text pattern i m j = Ok j'
        ∧ (j' = m ↔ ∀ k, j ≤ k < m → char_at text (i + k) = char_at pattern k).
Proof.
  induction fuel as [| fuel IH]; intros j Hi Hj Hfuel; simpl.
  - destruct (Z.ltb_spec j m); [lia |]. exists j. split; [done |].
    split; [intros _ k Hk; lia | lia].
  - destruct (Z.ltb_spec j m) as [Hlt | Hge].
    + rewrite !peek_ok by lia. simpl.
      destruct (Ascii.eqb_spec (char_at text (i + j)) (char_at pattern j)) as [Heq | Hne]; simpl.
      * destruct (IH (j + 1)) as (j' & -> & Hj'); [lia | lia | lia |].
        exists j'. split; [done |]. rewrite Hj'. split.
        -- intros H k Hk. destruct (decide (k = j)) as [-> | ?]; [done | apply H; lia].
        -- intros H k Hk. apply H. lia.
      * exists j. split; [done |]. split; [lia |]. intros H. exfalso. apply Hne, H. lia.
    + exists j. split; [done |]. split; [intros _ k Hk; lia | lia].
Qed.

(** The baseline counts every alignment at which the pattern occurs. *)
Lemma naive_search_spec text pattern :
  StringSearchBaseline.naive_search text pattern = Ok (occurrences text pattern).
Proof.
  unfold StringSearchBaseline.naive_search, occurrences, for_le.
  set (n := strlen text). set (m := strlen pattern).
  pose proof (strlen_nonneg pattern) as Hm. fold m in Hm.
  destruct (Z.le_gt_cases 0 (n - m + 1)) as [Hle | Hgt].
  - pose (I := fun (i count : Z) => count = occurrences_below text pattern (Z.to_nat i)).
    lazymatch goal with
    | |- ?l = _ => assert (Hloop : wp l (I (n - m + 1)) no_fault)
    end.
    { apply wp_for_lt_1; [done | reflexivity |].
      intros i count Hi ->.
      destruct (compare_loop_spec text pattern i m (Z.to_nat m) 0) as (j & -> & Hj);
        [lia | lia | lia |]. simpl. unfold I.
      rewrite occurrences_below_next by lia.
      destruct (Z.eqb_spec j m) as [Heq | Hne]; simpl.
      - assert (occurs_at text pattern i = true) as ->; [| done].
        apply occurs_at_spec. intros k Hk. apply Hj; [done | lia].
      - assert (occurs_at text pattern i = false) as ->; [| simpl; f_equal; lia].
        apply not_true_is_false. intros Hocc. apply Hne, Hj.
        intros k Hk. apply (proj1 (occurs_at_spec text pattern i) Hocc). fold m. lia. }
    destruct (wp_ok_elim _ _ Hloop) as (count & -> & ->). done.
  - rewrite for_lt_empty by lia. replace (Z.to_nat (n - m + 1)) with O by lia. done.
Qed.

Lemma uchar_range c : 0 ≤ uchar c < 256.
Proof. unfold uchar. pose proof (N_ascii_bounded c). lia. Qed.

Lemma uchar_inj c c' : uchar c = uchar c' → c = c'.
Proof.
  unfold uchar. intros H. apply N2Z.inj in H.
  rewrite <- (ascii_N_embedding c), <- (ascii_N_embedding c'). by rewrite H.
Qed.

Lemma bad_char_entry_bounds pattern m i c s :
  0 ≤ i ≤ m - 1 → bad_char_entry pattern m i c s → 1 ≤ s ≤ m.
Proof. intros Hi [[_ ->] | (k & Hk & _ & _ & ->)]; lia. Qed.

(** The entry never exceeds the distance from an occurrence of the byte to
    the last position of the pattern. *)
Lemma bad_char_entry_safe pattern m i c s k :
  bad_char_entry pattern m i c s →
  0 ≤ k < i → char_at pattern k = c → s ≤ m - 1 - k.
Proof.
  intros [[Hnone ->] | (k0 & Hk0 & Hc & Hlast & ->)] Hk Hkc.
  - by destruct (Hnone k Hk).
  - destruct (Z.le_gt_cases k k0); [lia |]. destruct (Hlast k); [lia | done].
Qed.

Lemma build_bad_char_spec pattern m :
  1 ≤ m →
  ∃ bad_char, StringSearchOptimized.build_bad_char pattern m = Ok bad_char
              ∧ bad_char_table pattern m (m - 1) bad_char.
Proof.
  intros Hm. unfold StringSearchOptimized.build_bad_char.
  pose (I1 := fun (i : Z) (bc : list Z) =>
                length bc = 256%nat ∧ ∀ x, 0 ≤ x < i → bc !! Z.to_nat x = Some m).
  lazymatch goal with
  | |- ∃ _, bind ?l _ = _ ∧ _ => assert (Hloop1 : wp l (I1 256) no_fault)
  end.
  { apply wp_for_lt_1; [lia | |].
    - split; [reflexivity | intros x Hx; lia].
    - intros i bc Hi [Hlen Hset]. rewrite store_ok by (unfold len; lia). simpl. split.
      + by rewrite length_insert.
      + intros x Hx. destruct (decide (x = i)) as [-> | Hne].
        * apply list_lookup_insert_eq. lia.
        * rewrite list_lookup_insert_ne by lia. apply Hset. lia. }
  destruct (wp_ok_elim _ _ Hloop1) as (bc1 & -> & Hlen1 & Hset1). simpl.
  pose (I2 := fun (i : Z) (bc : list Z) => bad_char_table pattern m i bc).
  lazymatch goal with
  | |- ∃ _, ?l = _ ∧ _ => assert (Hloop2 : wp l (I2 (m - 1)) no_fault)
  end.
  { apply wp_for_lt_1; [lia | |].
    - split; [done |]. intros c. exists m. split.
      + apply Hset1, uchar_range.
      + left. split; [intros k Hk; lia | done].
    - intros i bc Hi [Hlen Htab]. rewrite peek_ok by lia. simpl.
      pose proof (uchar_range (char_at pattern i)) as Hrange.
      rewrite store_ok by (unfold len; lia). simpl. split.
      + by rewrite length_insert.
      + intros c. destruct (ascii_dec c (char_at pattern i)) as [-> | Hne].
        * exists (m - 1 - i). split; [apply list_lookup_insert_eq; lia |].
          right. exists i. repeat split; [lia | lia | intros k' Hk'; lia].
        * destruct (Htab c) as (s & Hs & Hentry). exists s. split.
          -- rewrite list_lookup_insert_ne; [done |].
             intros Heq. apply Hne. symmetry. apply uchar_inj.
             pose proof (uchar_range c). lia.
          -- destruct Hentry as [[Hnone ->] | (k & Hk & Hc & Hlast & ->)].
             ++ left. split; [| done]. intros k Hk.
                destruct (decide (k = i)) as [-> | ?]; [congruence | apply Hnone; lia].
             ++ right. exists k. repeat split; [lia | lia | done |].
                intros k' Hk'.
                destruct (decide (k' = i)) as [-> | ?]; [congruence | apply Hlast; lia]. }
  destruct (wp_ok_elim _ _ Hloop2) as (bc2 & -> & Htab).
  exists bc2. split; [reflexivity | exact Htab].
Qed.

(** After a mismatch the shift skips no occurrence. *)
Lemma bad_char_shift_spec text pattern bad_char i :
  let n := strlen text in
  let m := strlen pattern in
  1 ≤ m → 0 ≤ i →
  bad_char_table pattern m (m - 1) bad_char →
  occurs_at text pattern i = false →
  ∃ s, StringSearchOptimized.bad_char_shift bad_char text i m = Ok s
       ∧ 1 ≤ s ≤ m
       ∧ ∀ i', i ≤ i' < i + s → occurs_at text pattern i' = false.
Proof.
  intros n m Hm Hi [Hlen Htab] Hmiss. unfold StringSearchOptimized.bad_char_shift.
  rewrite peek_ok by lia. simpl.
  destruct (Htab (char_at text (i + m - 1))) as (s & Hs & Hentry).
  pose proof (uchar_range (char_at text (i + m - 1))).
  rewrite (load_ok _ _ s) by (done || lia).
  exists s. split; [done |].
  assert (Hbounds : 1 ≤ s ≤ m).
  { eapply (bad_char_entry_bounds pattern m (m - 1)); [lia | exact Hentry]. }
  split; [done |].
  intros i' Hi'. destruct (decide (i' = i)) as [-> | Hne]; [done |].
  apply not_true_is_false. intros Hocc.
  pose proof (proj1 (occurs_at_spec text pattern i') Hocc (m - 1 - (i' - i))) as Hchar.
  fold m in Hchar. specialize (Hchar ltac:(lia)).
  replace (i' + (m - 1 - (i' - i))) with (i + m - 1) in Hchar by lia.
  assert (s ≤ m - 1 - (m - 1 - (i' - i))); [| lia].
  eapply (bad_char_entry_safe pattern m (m - 1)); [exact Hentry | lia | by symmetry].
Qed.

Lemma load_char_at (s : list ascii) i :
  0 ≤ i < len s → load s i = Ok (char_at s i).
Proof.
  intros Hi. destruct (load_in_range s i Hi) as (c & -> & Hc).
  unfold char_at. by rewrite (nth_lookup_Some _ _ NUL _ Hc).
Qed.

(** Lanes that lie inside the object are read as they are. *)
Lemma load_lanes_spec k : ∀ s off,
  0 ≤ off → off + Z.of_nat k ≤ len s →
  ∃ v, StringSearchOptimized.load_lanes k s off = Ok v
       ∧ ∀ j, (j < k)%nat → v !! j = Some (char_at s (off + Z.of_nat j)).
Proof.
  induction k as [| k IH]; intros s off Hoff Hend; simpl.
  - exists []. split; [done | intros j Hj; lia].
  - rewrite load_char_at by lia. simpl.
    destruct (IH s (off + 1)) as (v & -> & Hv); [lia | lia |]. simpl.
    exists (char_at s off :: v). split; [done |].
    intros [| j] Hj; simpl.
    + by rewrite Z.add_0_r.
    + rewrite Hv by lia. do 2 f_equal. lia.
Qed.


Lemma movemask_cmpeq_testbit (v1 : list ascii) : ∀ (v2 : list ascii) (j : nat),
  Z.testbit (StringSearchOptimized._mm_movemask_epi8
               (StringSearchOptimized._mm_cmpeq_epi8 v1 v2)) (Z.of_nat j) =
    match v1 !! j, v2 !! j with
    | Some x, Some y => Ascii.eqb x y
    | _, _ => false
    end.
Proof.
  induction v1 as [| x v1 IH]; intros [| y v2] j; simpl.
  - by rewrite Z.testbit_0_l.
  - by rewrite Z.testbit_0_l.
  - rewrite Z.testbit_0_l. by destruct (_ !! j).
  - rewrite Z.add_comm. destruct j as [| j].
    + rewrite Z.testbit_0_r. simpl. by destruct (Ascii.eqb x y).
    + rewrite Nat2Z.inj_succ, Z.testbit_succ_r by lia. rewrite IH. done.
Qed.

Lemma land_ones_full x m :
  0 ≤ m →
  (Z.land x (Z.shiftl 1 m - 1) =? Z.shiftl 1 m - 1) = true ↔
  ∀ j, 0 ≤ j < m → Z.testbit x j = true.
Proof.
  intros Hm. rewrite Z.eqb_eq, Z.sub_1_r. change (Z.pred (Z.shiftl 1 m)) with (Z.ones m).
  split.
  - intros H j Hj.
    assert (Hbit : Z.testbit (Z.land x (Z.ones m)) j = Z.testbit (Z.ones m) j) by by rewrite H.
    rewrite Z.land_spec, Z.ones_spec_low in Hbit by lia. by rewrite andb_true_r in Hbit.
  - intros H. apply Z.bits_inj'. intros j Hj. rewrite Z.land_spec.
    destruct (Z.lt_ge_cases j m).
    + rewrite Z.ones_spec_low, H by lia. done.
    + rewrite Z.ones_spec_high by lia. apply andb_false_r.
Qed.

(** The vector comparison of the fast path decides whether the pattern
    occurs at the alignment; the lanes beyond the pattern are masked out. *)
Lemma simd_test_spec text pattern i :
  let m := strlen pattern in
  m ≤ 16 → 0 ≤ i → i + 16 ≤ len text → 16 ≤ len pattern →
  ∃ text_vec pattern_vec,
    StringSearchOptimized._mm_loadu_si128 text i = Ok text_vec
    ∧ StringSearchOptimized._mm_loadu_si128 pattern 0 = Ok pattern_vec
    ∧ (Z.land (StringSearchOptimized._mm_movemask_epi8
                 (StringSearchOptimized._mm_cmpeq_epi8 text_vec pattern_vec))
              (Z.shiftl 1 m - 1) =? Z.shiftl 1 m - 1)
      = occurs_at text pattern i.
Proof.
  intros m Hm Hi Htext Hpattern. unfold StringSearchOptimized._mm_loadu_si128.
  destruct (load_lanes_spec 16 text i Hi ltac:(lia)) as (tv & Htv & Htv_lanes).
  destruct (load_lanes_spec 16 pattern 0 ltac:(lia) ltac:(lia)) as (pv & Hpv & Hpv_lanes).
  exists tv, pv. split; [done |]. split; [done |].
  pose proof (strlen_nonneg pattern) as Hm0. fold m in Hm0.
  apply eq_true_iff_eq. rewrite land_ones_full by done. rewrite occurs_at_spec. fold m.
  assert (Hbit : ∀ j, 0 ≤ j < m →
            Z.testbit (StringSearchOptimized._mm_movemask_epi8
                         (StringSearchOptimized._mm_cmpeq_epi8 tv pv)) j
            = Ascii.eqb (char_at text (i + j)) (char_at pattern j)).
  { intros j Hj. rewrite <- (Z2Nat.id j) at 1 by lia. rewrite movemask_cmpeq_testbit.
    rewrite Htv_lanes, Hpv_lanes by lia. rewrite Z2Nat.id by lia. done. }
  split.
  - intros H j Hj. apply Ascii.eqb_eq. rewrite <- Hbit by done. by apply H.
  - intros H j Hj. rewrite Hbit by done. apply Ascii.eqb_eq. by apply H.
Qed.

Lemma backward_loop_spec text pattern i fuel : ∀ j,
  0 ≤ i → -1 ≤ j → (Z.to_nat (j + 1) ≤ fuel)%nat →
  ∃ j', StringSearchOptimized.backward_loop fuel text pattern i j = Ok j'
        ∧ ((j' <? 0) = true ↔ ∀ k, 0 ≤ k ≤ j → char_at text (i + k) = char_at pattern k).
Proof.
  induction fuel as [| fuel IH]; intros j Hi Hj Hfuel; simpl.
  - destruct (Z.geb_spec j 0); [lia |]. exists j. split; [done |].
    rewrite Z.ltb_lt. split; [intros _ k Hk; lia | lia].
  - destruct (Z.geb_spec j 0) as [Hge | Hlt].
    + rewrite !peek_ok by lia. simpl.
      destruct (Ascii.eqb_spec (char_at pattern j) (char_at text (i + j))) as [Heq | Hne].
      * destruct (IH (j - 1)) as (j' & -> & Hj'); [lia | lia | lia |].
        exists j'. split; [done |]. rewrite Hj'. split.
        -- intros H k Hk. destruct (decide (k = j)) as [-> | ?]; [done | apply H; lia].
        -- intros H k Hk. apply H. lia.
      * exists j. split; [done |]. rewrite Z.ltb_lt. split; [lia |].
        intros H. exfalso. apply Hne. symmetry. apply H. lia.
    + exists j. split; [done |]. rewrite Z.ltb_lt. split; [intros _ k Hk; lia | lia].
Qed.

(** One round of either search loop, once the test of the alignment is
    known to say whether the pattern occurs there. *)
Lemma search_step text pattern bad_char i count (found : bool) :
  let n := strlen text in
  let m := strlen pattern in
  1 ≤ m → i ≤ n - m →
  bad_char_table pattern m (m - 1) bad_char →
  search_inv text pattern (i, count) →
  found = occurs_at text pattern i →
  wp (if found then Ok (i + 1, count + 1)
      else shift <- StringSearchOptimized.bad_char_shift bad_char text i m ;;
           Ok (i + shift, count))
     (fun st => search_inv text pattern st
                ∧ search_var text pattern st < search_var text pattern (i, count))
     no_fault.
Proof.
  intros n m Hm Hin Htab [Hi Hcount] ->. fold n m in Hcount.
  rewrite Z.min_l in Hcount by lia.
  destruct (occurs_at text pattern i) eqn:Hocc; simpl.
  - fold n m. split; [split; [lia |] | lia].
    rewrite Z.min_l by lia. rewrite occurrences_below_next by lia.
    rewrite Hocc. simpl. lia.
  - destruct (bad_char_shift_spec text pattern bad_char i Hm Hi Htab Hocc)
      as (s & Hs & Hbounds & Hskip). fold m in Hs.
    rewrite Hs. simpl. fold n m. split; [split; [lia |] | lia].
    rewrite Hcount. symmetry.
    replace (Z.min (i + s) (n - m + 1)) with (i + Z.min s (n - m + 1 - i)) by lia.
    apply occurrences_below_skip; [lia | lia |].
    intros i' Hi'. apply Hskip. lia.
Qed.

(** The optimized search counts every alignment at which a non-empty
    pattern occurs, provided its vector loads stay inside the objects. *)
Lemma optimized_search_spec text pattern :
  strlen pattern ≠ 0 → loads_in_bounds text pattern →
  StringSearchOptimized.optimized_search text pattern = Ok (occurrences text pattern).
Proof.
  intros Hm0 Hloads. unfold StringSearchOptimized.optimized_search, occurrences.
  set (n := strlen text). set (m := strlen pattern).
  pose proof (strlen_nonneg pattern) as Hm. fold m in Hm, Hm0.
  destruct (Z.eqb_spec m 0) as [? | _]; [done |]. cbn [orb].
  destruct (Z.ltb_spec n m) as [Hlt | Hge].
  { replace (Z.to_nat (n - m + 1)) with O by lia. done. }
  destruct (build_bad_char_spec pattern m ltac:(lia)) as (bad_char & -> & Htab). cbn [bind].
  lazymatch goal with
  | |- bind ?l _ = _ =>
      assert (Hloop : wp l (fun st => search_inv text pattern st
                                      ∧ (st.1 <=? n - m) = false) no_fault)
  end.
  { destruct (Z.leb_spec m 16) as [Hshort | Hlong].
    - destruct (Hloads Hshort Hge) as [Hpattern Htext]. fold n m in Htext.
      destruct (simd_test_spec text pattern 0 Hshort ltac:(lia) ltac:(lia) Hpattern)
        as (_ & pv & _ & Hpv & _).
      rewrite Hpv. cbn [bind].
      eapply wp_mono;
        [eapply (wp_while (search_inv text pattern) (search_var text pattern) no_fault) | |].
      + intros [i count] HI Hcond. apply Z.leb_le in Hcond.
        split; [simpl; fold n m; lia |].
        destruct HI as [Hi Hcount].
        destruct (simd_test_spec text pattern i Hshort Hi ltac:(lia) Hpattern)
          as (tv & pv' & -> & Hpv' & Htest).
        fold m in Htest. cbn [bind].
        assert (pv' = pv) as -> by congruence.
        apply (search_step text pattern bad_char i count); try done; fold n m; lia.
      + simpl. fold n m. lia.
      + simpl. split; [lia |]. by rewrite Z.min_l by lia.
      + simpl. intros [i count] [HI Hcond]. done.
      + auto.
    - eapply wp_mono;
        [eapply (wp_while (search_inv text pattern) (search_var text pattern) no_fault) | |].
      + intros [i count] HI Hcond. apply Z.leb_le in Hcond.
        split; [simpl; fold n m; lia |].
        destruct HI as [Hi Hcount].
        destruct (backward_loop_spec text pattern i (Z.to_nat m) (m - 1)) as (j & -> & Hj);
          [lia | lia | lia |]. cbn [bind].
        apply (search_step text pattern bad_char i count); try done; [fold n m; lia |].
        apply eq_true_iff_eq. rewrite Hj, occurs_at_spec. fold m.
        split; intros H k Hk; apply H; lia.
      + simpl. fold n m. lia.
      + simpl. split; [lia |]. by rewrite Z.min_l by lia.
      + simpl. intros [i count] [HI Hcond]. done.
      + auto. }
  destruct (wp_ok_elim _ _ Hloop) as ([i count] & -> & [Hi Hcount] & Hcond). simpl in *.
  apply Z.leb_gt in Hcond. fold n m in Hcount. rewrite Z.min_r in Hcount by lia.
  by rewrite Hcount.
Qed.

Lemma occurs_at_empty_pattern text pattern i :
  strlen pattern = 0 → occurs_at text pattern i = true.
Proof. intros Hm. apply occurs_at_spec. intros k Hk. lia. Qed.

Lemma occurrences_below_empty_pattern text pattern k :
  strlen pattern = 0 → occurrences_below text pattern k = Z.of_nat k.
Proof.
  intros Hm. induction k as [| k IH]; [done |].
  cbn [occurrences_below]. rewrite IH, occurs_at_empty_pattern by done. simpl. lia.
Qed.

(** On the empty pattern every alignment counts, the one at the terminator
    included. *)
Lemma occurrences_empty_pattern text pattern :
  strlen pattern = 0 → occurrences text pattern = strlen text + 1.
Proof.
  intros Hm. unfold occurrences. rewrite occurrences_below_empty_pattern by done.
  pose proof (strlen_nonneg text). lia.
Qed.

(** The guard of the optimized search, which precedes every access. *)
Lemma optimized_search_guard text pattern :
  strlen pattern = 0 ∨ strlen text < strlen pattern →
  StringSearchOptimized.optimized_search text pattern = Ok 0.
Proof.
  intros H. unfold StringSearchOptimized.optimized_search.
  destruct (Z.eqb_spec (strlen pattern) 0); [done |].
  destruct (Z.ltb_spec (strlen text) (strlen pattern)); [done | lia].
Qed.


(** ** Exchange sort *)

Lemma sorted_by_index (a : list Z) :
  (∀ (i j : nat) x y, (i < j)%nat → a !! i = Some x → a !! j = Some y → x ≤ y) →
  StronglySorted Z.le a.
Proof.
  induction a as [| x a IH]; intros H; constructor.
  - apply IH. intros i j u v Hij Hu Hv.
    apply (H (Datatypes.S i) (Datatypes.S j)); [lia | done | done].
  - apply Forall_lookup. intros j y Hy.
    apply (H O (Datatypes.S j)); [lia | done | done].
Qed.

Lemma load_nat {A} (a : list A) (j : Z) v :
  0 ≤ j → a !! Z.to_nat j = Some v → load a j = Ok v.
Proof. apply load_ok. Qed.

(** One pass of the inner loop over the first [b + 1] elements moves their
    maximum to position [b] and leaves the rest of the array alone. *)
Lemma bubble_pass_spec (pre suf : list Z) (b : Z) :
  0 ≤ b → len pre = b + 1 →
  wp (for_lt 0 b 1 (fun j arr =>
        x <- load arr j ;;
        y <- load arr (j + 1) ;;
        if x >? y then
          temp <- load arr j ;;
          v <- load arr (j + 1) ;;
          arr <- store arr j v ;;
          store arr (j + 1) temp
        else Ok arr) (pre ++ suf))
     (fun a' => ∃ pre', a' = pre' ++ suf ∧ pre' ≡ₚ pre
                ∧ ∃ y, pre' !! Z.to_nat b = Some y ∧ ∀ x, x ∈ pre' → x ≤ y)
     no_fault.
Proof.
  intros Hb Hlen.
  pose (I := fun (j : Z) (a' : list Z) =>
               ∃ pre', a' = pre' ++ suf ∧ pre' ≡ₚ pre
                 ∧ ∃ y, pre' !! Z.to_nat j = Some y
                        ∧ ∀ (k : nat) x, (k ≤ Z.to_nat j)%nat → pre' !! k = Some x → x ≤ y).
  eapply wp_mono; [apply (wp_for_lt_1 I no_fault) | |].
  - done.
  - exists pre. split; [done |]. split; [done |].
    destruct (lookup_lt_is_Some_2 pre 0) as [y Hy]; [unfold len in Hlen; lia |].
    exists y. split; [done |]. intros k x Hk Hx.
    replace k with O in Hx by lia. simpl in Hy. rewrite Hy in Hx. injection Hx as ->. lia.
  - intros j a' Hj (pre' & -> & Hperm & y & Hy & Hmax).
    assert (Hlen' : length pre' = Z.to_nat (b + 1)).
    { rewrite (Permutation_length Hperm). unfold len in Hlen. lia. }
    destruct (lookup_lt_is_Some_2 pre' (Z.to_nat (j + 1))) as [z Hz]; [lia |].
    assert (Hload_j : load (pre' ++ suf) j = Ok y).
    { apply load_ok; [lia |]. rewrite lookup_app_l by lia. done. }
    assert (Hload_j1 : load (pre' ++ suf) (j + 1) = Ok z).
    { apply load_ok; [lia |]. rewrite lookup_app_l by lia. done. }
    cbn beta. rewrite Hload_j. cbn [bind]. rewrite Hload_j1. cbn [bind].
    destruct (Z.gtb_spec y z) as [Hgt | Hle].
    + cbn [bind].
      rewrite store_ok by (unfold len; rewrite length_app; lia). cbn [bind].
      rewrite store_ok by (rewrite len_insert; unfold len; rewrite length_app; lia).
      cbn [wp].
      exists (<[Z.to_nat (j + 1) := y]> (<[Z.to_nat j := z]> pre')). split.
      { rewrite !insert_app_l by (rewrite ?length_insert; lia). done. }
      split.
      { rewrite <- Hperm. by apply Permutation_insert_swap. }
      exists y. split.
      { apply list_lookup_insert_eq. rewrite length_insert. lia. }
      intros k x Hk Hx.
      destruct (decide (k = Z.to_nat (j + 1))) as [-> | Hne1].
      { rewrite list_lookup_insert_eq in Hx by (rewrite length_insert; lia).
        injection Hx as ->. lia. }
      rewrite list_lookup_insert_ne in Hx by lia.
      destruct (decide (k = Z.to_nat j)) as [-> | Hne2].
      { rewrite list_lookup_insert_eq in Hx by lia. injection Hx as ->. lia. }
      rewrite list_lookup_insert_ne in Hx by lia. apply (Hmax k); [lia | done].
    + cbn [wp]. exists pre'. split; [done |]. split; [done |].
      exists z. split; [done |]. intros k x Hk Hx.
      destruct (decide (k = Z.to_nat (j + 1))) as [-> | Hne1].
      { rewrite Hz in Hx. injection Hx as ->. lia. }
      assert (x ≤ y) by (apply (Hmax k); [lia | done]). lia.
  - cbn beta. intros a' (pre' & -> & Hperm & y & Hy & Hmax).
    exists pre'. split; [done |]. split; [done |]. exists y. split; [done |].
    intros x Hx. apply list_elem_of_lookup in Hx as [k Hk].
    apply (Hmax k); [| done].
    pose proof (lookup_lt_Some _ _ _ Hk) as Hlt.
    rewrite (Permutation_length Hperm) in Hlt. unfold len in Hlen. lia.
  - auto.
Qed.

(** The baseline sort returns a non-decreasing permutation of any array. *)
Lemma bubble_sort_spec (arr : list Z) :
  ∃ out, BubbleSortBaseline.bubble_sort arr (len arr) = Ok out
         ∧ StronglySorted Z.le out ∧ out ≡ₚ arr.
Proof.
  unfold BubbleSortBaseline.bubble_sort. set (n := len arr).
  destruct (Z.le_gt_cases n 1) as [Hsmall | Hbig].
  { rewrite for_lt_empty by lia. exists arr. split; [done |]. split; [| done].
    apply sorted_by_index. intros i j x y Hij Hx Hy.
    apply lookup_lt_Some in Hy. unfold n, len in Hsmall. lia. }
  pose (I := fun (i : Z) (a : list Z) =>
               a ≡ₚ arr
               ∧ ∀ (k l : nat) x y, (k < l)%nat → n - i ≤ Z.of_nat l →
                   a !! k = Some x → a !! l = Some y → x ≤ y).
  lazymatch goal with
  | |- ∃ _, ?m = _ ∧ _ => assert (Hloop : wp m (I (n - 1)) no_fault)
  end.
  { apply wp_for_lt_1; [lia | |].
    - split; [done |]. intros k l x y Hkl Hl Hx Hy.
      apply lookup_lt_Some in Hy. unfold n, len in Hl. lia.
    - intros i a Hi [Hperm Hsorted].
      assert (Hlen : length a = Z.to_nat n).
      { rewrite (Permutation_length Hperm). unfold n, len. lia. }
      set (b := n - i - 1).
      rewrite <- (take_drop (Z.to_nat (b + 1)) a) at 1.
      eapply wp_mono; [apply (bubble_pass_spec _ _ b) | |].
      + lia.
      + unfold len. rewrite length_take. lia.
      + cbn beta. intros a' (pre' & -> & Hperm' & y & Hy & Hmax).
        assert (Hlen' : length pre' = Z.to_nat (b + 1)).
        { rewrite (Permutation_length Hperm'), length_take. lia. }
        split.
        { rewrite Hperm', take_drop. done. }
        intros k l u v Hkl Hl Hu Hv.
        assert (Hprefix : ∀ (p : nat) w, (p < Z.to_nat (b + 1))%nat →
                  (pre' ++ drop (Z.to_nat (b + 1)) a) !! p = Some w →
                  ∃ p' : nat, (p' < Z.to_nat (b + 1))%nat ∧ a !! p' = Some w).
        { intros p w Hp Hw. rewrite lookup_app_l in Hw by lia.
          assert (Hin : w ∈ take (Z.to_nat (b + 1)) a).
          { rewrite <- Hperm'. apply list_elem_of_lookup. eauto. }
          apply list_elem_of_lookup in Hin as [p' Hp'].
          pose proof (lookup_lt_Some _ _ _ Hp') as Hlt. rewrite length_take in Hlt.
          exists p'. split; [lia |]. rewrite lookup_take in Hp'.
          case_decide; [done | lia]. }
        assert (Hsuffix : ∀ (p : nat) w, (Z.to_nat (b + 1) ≤ p)%nat →
                  (pre' ++ drop (Z.to_nat (b + 1)) a) !! p = Some w → a !! p = Some w).
        { intros p w Hp Hw. rewrite lookup_app_r in Hw by lia.
          rewrite lookup_drop in Hw. rewrite <- Hw. f_equal. lia. }
        destruct (decide (l = Z.to_nat b)) as [-> | Hne].
        * rewrite lookup_app_l in Hv by lia. rewrite Hy in Hv. injection Hv as <-.
          apply Hmax. rewrite lookup_app_l in Hu by lia.
          apply list_elem_of_lookup. eauto.
        * apply Hsuffix in Hv; [| unfold b in *; lia].
          destruct (decide (k < Z.to_nat (b + 1))%nat) as [Hk | Hk].
          -- destruct (Hprefix k u Hk Hu) as (p' & Hp' & Hu').
             apply (Hsorted p' l); [unfold b in *; lia | unfold b in *; lia | done | done].
          -- apply Hsuffix in Hu; [| lia].
             apply (Hsorted k l); [lia | unfold b in *; lia | done | done].
      + auto. }
  destruct (wp_ok_elim _ _ Hloop) as (out & -> & Hperm & Hsorted).
  exists out. split; [done |]. split; [| done].
  apply sorted_by_index. intros i j x y Hij Hx Hy.
  apply (Hsorted i j); [done | lia | done | done].
Qed.

(** ** Counting sort *)

Lemma count_occ_replicate n (x v : Z) :
  count_occ Z.eq_dec (replicate n x) v = if decide (x = v) then n else O.
Proof.
  induction n as [| n IH]; simpl.
  - by destruct (decide _).
  - rewrite IH. destruct (Z.eq_dec x v), (decide (x = v)); done.
Qed.

Lemma emitted_count cnt k v :
  count_occ Z.eq_dec (emitted cnt k) v =
    if decide (0 ≤ v < Z.of_nat k) then Z.to_nat (cnt v) else O.
Proof.
  induction k as [| k IH]; simpl.
  - destruct (decide _); [lia | done].
  - rewrite count_occ_app, IH, count_occ_replicate.
    destruct (decide (0 ≤ v < Z.of_nat k)), (decide (Z.of_nat k = v)),
      (decide (0 ≤ v < Z.of_nat (Datatypes.S k))); subst; lia.
Qed.

Lemma emitted_bound cnt k : Forall (fun x => 0 ≤ x < Z.of_nat k) (emitted cnt k).
Proof.
  induction k as [| k IH]; simpl; [constructor |].
  apply Forall_app. split.
  - eapply Forall_impl; [exact IH |]. simpl. lia.
  - apply Forall_replicate. lia.
Qed.

Lemma emitted_sorted cnt k : StronglySorted Z.le (emitted cnt k).
Proof.
  induction k as [| k IH]; simpl; [constructor |].
  apply StronglySorted_app. split; [| split; [done |]].
  - intros x y Hx Hy. apply elem_of_replicate in Hy as [-> _].
    pose proof (proj1 (Forall_forall _ _) (emitted_bound cnt k) x Hx). simpl in *. lia.
  - apply sorted_by_index. intros i j x y _ Hx Hy.
    apply lookup_replicate in Hx as [-> _]. apply lookup_replicate in Hy as [-> _]. lia.
Qed.

Lemma occ_nonneg arr v : 0 ≤ occ arr v.
Proof. unfold occ. lia. Qed.

Lemma occ_app arr arr' v : occ (arr ++ arr') v = occ arr v + occ arr' v.
Proof. unfold occ. rewrite count_occ_app. lia. Qed.

Lemma count_occ_filter (P : Z → Prop) `{!∀ x, Decision (P x)} (arr : list Z) v :
  count_occ Z.eq_dec (filter P arr) v =
    if decide (P v) then count_occ Z.eq_dec arr v else O.
Proof.
  induction arr as [| x arr IH]; simpl.
  - by destruct (decide _).
  - destruct (decide (P x)) as [HPx | HPx].
    + rewrite filter_cons_True by done. simpl. rewrite IH.
      destruct (Z.eq_dec x v) as [-> | ?], (decide (P v)); done.
    + rewrite filter_cons_False by done. rewrite IH.
      destruct (Z.eq_dec x v) as [-> | ?], (decide (P v)); done.
Qed.

(** What has been emitted below [k] is a rearrangement of the elements of
    the array that lie in [[0, k)]. *)
Lemma emitted_filter arr k :
  emitted (occ arr) k ≡ₚ filter (fun x => 0 ≤ x < Z.of_nat k) arr.
Proof.
  apply (Permutation_count_occ Z.eq_dec). intros v.
  rewrite emitted_count, count_occ_filter. unfold occ.
  destruct (decide _); lia.
Qed.

Lemma emitted_length_le arr k : (length (emitted (occ arr) k) ≤ length arr)%nat.
Proof. rewrite (Permutation_length (emitted_filter arr k)). apply length_filter. Qed.

Lemma emitted_perm arr max_val :
  Forall (in_domain max_val) arr → emitted (occ arr) (Z.to_nat max_val) ≡ₚ arr.
Proof.
  intros Hdom. rewrite emitted_filter.
  replace (filter _ arr) with arr; [done |].
  induction Hdom as [| x arr Hx Hdom IH]; [done |].
  rewrite filter_cons_True by (unfold in_domain in Hx; lia). by rewrite <- IH.
Qed.

Lemma store_filled a idx val a' p q :
  filled a idx val a' p → 0 ≤ idx → p < len a → q = p + 1 →
  ∃ a'', store a' p val = Ok a'' ∧ filled a idx val a'' q.
Proof.
  intros (Hp & Hlen & Htake) Hidx Hlt ->.
  rewrite store_ok by lia. eexists. split; [done |].
  split; [lia |]. split; [by rewrite len_insert |].
  replace (Z.to_nat (p + 1)) with (Datatypes.S (Z.to_nat p)) by lia.
  rewrite (take_S_r _ _ val) by (apply list_lookup_insert_eq; unfold len in *; lia).
  rewrite take_insert_ge by lia. rewrite Htake.
  replace (Z.to_nat (p + 1 - idx)) with (Datatypes.S (Z.to_nat (p - idx))) by lia.
  rewrite replicate_S_end. by rewrite app_assoc.
Qed.

(** The two emitting loops write [c] copies of [val] from [idx] on. *)
Lemma emit_spec val a idx c :
  0 ≤ idx → 0 ≤ c → idx + c ≤ len a →
  ∃ a', BubbleSortOptimized.emit val (a, idx, c) = Ok (a', idx + c, 0)
        ∧ filled a idx val a' (idx + c).
Proof.
  intros Hidx Hc Hlen. unfold BubbleSortOptimized.emit.
  pose (I := fun (st : list Z * Z * Z) =>
               let '(a', p, c') := st in
               0 ≤ c' ∧ p + c' = idx + c ∧ filled a idx val a' p).
  pose (V := fun (st : list Z * Z * Z) => let '(_, _, c') := st in c').
  lazymatch goal with
  | |- ∃ _, bind ?l _ = _ ∧ _ =>
      assert (Hloop1 : wp l (fun st => I st ∧ (st.2 <? 8) = true) no_fault)
  end.
  { eapply wp_mono; [eapply (wp_while I V no_fault) | |].
    - intros [[a' p] c'] (Hc' & Hsum & Hfill) Hcond.
      destruct (Z.geb_spec c' 8) as [Hge | ?]; [| done].
      split; [simpl; lia |].
      destruct (store_filled a idx val a' p (p + 1) Hfill) as (a1 & -> & H1); [lia .. |].
      cbn [bind].
      destruct (store_filled a idx val a1 (p + 1) (p + 2) H1) as (a2 & -> & H2); [lia .. |].
      cbn [bind].
      destruct (store_filled a idx val a2 (p + 2) (p + 3) H2) as (a3 & -> & H3); [lia .. |].
      cbn [bind].
      destruct (store_filled a idx val a3 (p + 3) (p + 4) H3) as (a4 & -> & H4); [lia .. |].
      cbn [bind].
      destruct (store_filled a idx val a4 (p + 4) (p + 5) H4) as (a5 & -> & H5); [lia .. |].
      cbn [bind].
      destruct (store_filled a idx val a5 (p + 5) (p + 6) H5) as (a6 & -> & H6); [lia .. |].
      cbn [bind].
      destruct (store_filled a idx val a6 (p + 6) (p + 7) H6) as (a7 & -> & H7); [lia .. |].
      cbn [bind].
      destruct (store_filled a idx val a7 (p + 7) (p + 8) H7) as (a8 & -> & H8); [lia .. |].
      cbn [bind]. simpl. split; [split; [lia | split; [lia | done]] | lia].
    - simpl. lia.
    - simpl. split; [lia |]. split; [lia |]. split; [lia |]. split; [done |].
      rewrite Z.sub_diag. simpl. by rewrite app_nil_r.
    - cbn beta. intros [[a' p] c'] [HI Hcond]. split; [done |]. simpl.
      destruct (Z.geb_spec c' 8); [done |]. apply Z.ltb_lt. lia.
    - auto. }
  destruct (wp_ok_elim _ _ Hloop1) as ([[a1 p1] c1] & -> & (Hc1 & Hsum1 & Hfill1) & Hlt1).
  cbn [bind]. simpl in Hlt1. apply Z.ltb_lt in Hlt1.
  pose proof (proj1 Hfill1) as Hp1.
  lazymatch goal with
  | |- ∃ _, ?l = _ ∧ _ =>
      assert (Hloop2 : wp l (fun st => I st ∧ st.2 = 0) no_fault)
  end.
  { eapply wp_mono; [eapply (wp_while I V no_fault) | |].
    - intros [[a' p] c'] (Hc' & Hsum & Hfill) Hcond.
      destruct (Z.gtb_spec c' 0) as [Hgt | ?]; [| done].
      split; [simpl; lia |].
      destruct (store_filled a idx val a' p (p + 1) Hfill) as (a2 & -> & H2); [lia .. |].
      cbn [bind]. simpl. split; [split; [lia | split; [lia | done]] | lia].
    - simpl. lia.
    - simpl. done.
    - cbn beta. intros [[a' p] c'] [HI Hcond]. split; [done |]. simpl.
      destruct HI as (Hc' & _). destruct (Z.gtb_spec c' 0); [done | lia].
    - auto. }
  destruct (wp_ok_elim _ _ Hloop2) as ([[a2 p2] c2] & -> & (Hc2 & Hsum2 & Hfill2) & Hzero).
  simpl in Hzero. subst c2. replace p2 with (idx + c) in * by lia.
  exists a2. done.
Qed.

Lemma occ_take_succ arr (i : nat) v w :
  arr !! i = Some v →
  occ (take (Datatypes.S i) arr) w = occ (take i arr) w + (if decide (v = w) then 1 else 0).
Proof.
  intros Hv. rewrite (take_S_r _ _ _ Hv), occ_app. f_equal.
  unfold occ. simpl. destruct (Z.eq_dec v w), (decide (v = w)); done.
Qed.

(** The counting pass: either every element is in the domain and the table
    holds the number of occurrences of each value, or an element outside
    the domain was used as an index. *)
Lemma tally_spec max_val arr :
  0 ≤ max_val →
  wp (for_lt 0 (len arr) 1 (fun i count =>
        v <- load arr i ;;
        c <- pload count v ;;
        pstore count v (c + 1)) (BubbleSortOptimized.calloc max_val))
     (fun count => ∃ tbl, count = Some tbl
        ∧ Forall (in_domain max_val) arr
        ∧ ∀ v, in_domain max_val v → tbl !! Z.to_nat v = Some (occ arr v))
     (domain_fault max_val arr).
Proof.
  intros Hmax.
  pose (I := fun (i : Z) (count : ptr Z) =>
               ∃ tbl, count = Some tbl ∧ len tbl = max_val
                 ∧ Forall (in_domain max_val) (take (Z.to_nat i) arr)
                 ∧ ∀ v, in_domain max_val v →
                     tbl !! Z.to_nat v = Some (occ (take (Z.to_nat i) arr) v)).
  eapply wp_mono; [apply (wp_for_lt_1 I (domain_fault max_val arr)) | |].
  - apply len_nonneg.
  - eexists. split; [done |]. split; [unfold len; rewrite length_replicate; lia |].
    split; [constructor |]. intros v Hv. apply lookup_replicate. split; [done |].
    unfold in_domain in Hv. lia.
  - intros i count Hi (tbl & -> & Hlen & Hdom & Htbl). cbn beta.
    destruct (load_in_range arr i Hi) as (v & -> & Hv). cbn [bind pload].
    unfold I. replace (Z.to_nat (i + 1)) with (Datatypes.S (Z.to_nat i)) by lia.
    destruct (decide (in_domain max_val v)) as [Hin | Hout].
    + rewrite (load_ok tbl v _ (proj1 Hin) (Htbl v Hin)). cbn [bind pstore].
      rewrite store_ok by (unfold in_domain in Hin; lia). cbn [bind wp].
      eexists. split; [done |]. split; [by rewrite len_insert |]. split.
      * rewrite (take_S_r _ _ _ Hv). apply Forall_app. split; [done |]. by constructor.
      * intros w Hw. rewrite (occ_take_succ _ _ _ _ Hv).
        destruct (decide (v = w)) as [-> | Hne].
        -- apply list_lookup_insert_eq. unfold in_domain, len in *. lia.
        -- rewrite list_lookup_insert_ne by (unfold in_domain in *; lia).
           rewrite Z.add_0_r. by apply Htbl.
    + rewrite load_out_of_range by (unfold in_domain in Hout; lia). cbn [bind wp].
      exists v. split; [apply list_elem_of_lookup; eauto |]. split; [done |]. by rewrite Hlen.
  - cbn beta. intros count (tbl & -> & Hlen & Hdom & Htbl).
    rewrite take_ge in Hdom, Htbl by (unfold len; lia). eauto.
  - auto.
Qed.

(** The optimized sort: on an array inside the domain it returns the values
    in ascending order, each as often as it occurs; otherwise it indexes the
    table with a value outside the domain. *)
Lemma optimized_sort_with_spec max_val arr :
  0 ≤ max_val →
  wp (BubbleSortOptimized.optimized_sort_with max_val
        (BubbleSortOptimized.calloc max_val) arr (len arr))
     (fun out => Forall (in_domain max_val) arr
                 ∧ out = emitted (occ arr) (Z.to_nat max_val))
     (domain_fault max_val arr).
Proof.
  intros Hmax. unfold BubbleSortOptimized.optimized_sort_with.
  apply wp_bind. eapply wp_mono; [apply (tally_spec max_val arr Hmax) | | auto].
  cbn beta. intros count (tbl & -> & Hdom & Htbl).
  pose (I := fun (val : Z) (st : list Z * Z) =>
               let '(a, idx) := st in
               0 ≤ idx ∧ len a = len arr
               ∧ idx = len (emitted (occ arr) (Z.to_nat val))
               ∧ take (Z.to_nat idx) a = emitted (occ arr) (Z.to_nat val)).
  apply wp_bind. eapply wp_mono; [apply (wp_for_lt_1 I (domain_fault max_val arr)) | |].
  - done.
  - simpl. done.
  - intros val [a idx] Hval (Hidx & Hlen & Hidx_eq & Htake). cbn beta iota delta [pload].
    rewrite (load_ok tbl val _ (proj1 Hval) (Htbl val Hval)). cbn [bind].
    pose proof (occ_nonneg arr val) as Hocc.
    assert (Hnext : emitted (occ arr) (Z.to_nat (val + 1)) =
                    emitted (occ arr) (Z.to_nat val)
                    ++ replicate (Z.to_nat (occ arr val)) val).
    { replace (Z.to_nat (val + 1)) with (Datatypes.S (Z.to_nat val)) by lia.
      simpl. rewrite Z2Nat.id by lia. done. }
    assert (Hroom : idx + occ arr val ≤ len arr).
    { pose proof (emitted_length_le arr (Z.to_nat (val + 1))) as Hle.
      rewrite Hnext, length_app, length_replicate in Hle. unfold len in *. lia. }
    destruct (Z.gtb_spec (occ arr val) 0) as [Hpos | Hzero].
    + destruct (emit_spec val a idx (occ arr val)) as (a' & -> & Hfill); [lia .. |].
      cbn [bind wp]. unfold I. destruct Hfill as (_ & Hlen' & Htake').
      split; [lia |]. split; [lia |]. split.
      * rewrite Hnext. unfold len in *. rewrite length_app, length_replicate. lia.
      * rewrite Htake', Hnext, Htake. do 2 f_equal. lia.
    + cbn [wp]. unfold I. replace (occ arr val) with 0 in * by lia.
      rewrite Hnext. simpl. rewrite app_nil_r. done.
  - cbn beta. intros [a idx] (Hidx & Hlen & Hidx_eq & Htake). cbn [wp].
    split; [done |].
    assert (Hfull : len (emitted (occ arr) (Z.to_nat max_val)) = len arr).
    { unfold len. by rewrite (Permutation_length (emitted_perm arr max_val Hdom)). }
    rewrite <- Htake. symmetry. apply take_ge. unfold len in *. lia.
  - auto.
Qed.

(** ** The input generator of the sort kernel *)

Lemma lcg_value_range seed k : in_domain 32768 (lcg_value seed k).
Proof.
  unfold lcg_value, in_domain. change 32767 with (Z.ones 15).
  rewrite Z.land_ones by lia. apply Z.mod_pos_bound. lia.
Qed.

Lemma lcg_values_length seed n : length (lcg_values seed n) = n.
Proof. unfold lcg_values. by rewrite length_map, length_seq. Qed.

Lemma lcg_values_succ seed n :
  lcg_values seed (Datatypes.S n) = lcg_values seed n ++ [lcg_value seed n].
Proof. unfold lcg_values. rewrite seq_S, map_app. done. Qed.

Lemma lcg_values_in_domain seed n : Forall (in_domain 32768) (lcg_values seed n).
Proof.
  unfold lcg_values. apply Forall_forall. intros v Hv.
  apply list_elem_of_fmap in Hv as (k & -> & _). apply lcg_value_range.
Qed.

(** One generated element: the seed advances and [arr[k]] is written. *)
Lemma gen_write n k arr seed :
  gen_inv n k (arr, seed) → 0 ≤ k < n →
  ∃ arr', pstore arr k (Z.land (Z.shiftr (lcg_next seed) 16) 32767) = Ok arr'
          ∧ gen_inv n (k + 1) (arr', lcg_next seed).
Proof.
  intros (buf & -> & Hlen & Htake & ->) Hk. cbn [pstore].
  rewrite store_ok by lia. cbn [bind]. eexists. split; [done |].
  eexists. split; [done |]. split; [by rewrite len_insert |].
  replace (Z.to_nat (k + 1)) with (Datatypes.S (Z.to_nat k)) by lia.
  split; [| done].
  rewrite (take_S_r _ _ (lcg_value 12345 (Z.to_nat k)))
    by (apply list_lookup_insert_eq; unfold len in Hlen; lia).
  rewrite take_insert_ge by lia. rewrite Htake, lcg_values_succ. done.
Qed.

Lemma gen_inv_full n buf seed :
  0 ≤ n → gen_inv n n (Some buf, seed) → buf = lcg_values 12345 (Z.to_nat n).
Proof.
  intros Hn (buf' & [= <-] & Hlen & Htake & _).
  rewrite take_ge in Htake by (unfold len in Hlen; lia). done.
Qed.

(** The baseline generator fills a buffer of [n] cells with the first [n]
    values of the sequence. *)
Lemma baseline_generate_spec n buf :
  len buf = n →
  BubbleSortBaseline.generate n (Some buf) = Ok (Some (lcg_values 12345 (Z.to_nat n))).
Proof.
  intros Hlen. pose proof (len_nonneg buf) as Hn. rewrite Hlen in Hn.
  unfold BubbleSortBaseline.generate.
  lazymatch goal with
  | |- bind ?l _ = _ => assert (Hloop : wp l (gen_inv n n) no_fault)
  end.
  { apply wp_for_lt_1; [done | |].
    - exists buf. done.
    - intros i [arr seed] Hi Hinv. cbn beta iota zeta.
      destruct (gen_write n i arr seed Hinv Hi) as (arr' & -> & Hinv').
      cbn [bind wp]. done. }
  destruct (wp_ok_elim _ _ Hloop) as ([arr seed] & -> & Hinv). cbn [bind].
  destruct Hinv as (buf' & -> & Hinv).
  f_equal. f_equal. apply (gen_inv_full n buf' seed Hn). exists buf'. done.
Qed.

(** The unrolled generator produces the same buffer, whatever [n] is. *)
Lemma optimized_generate_spec n buf :
  len buf = n →
  BubbleSortOptimized.generate n (Some buf) = Ok (Some (lcg_values 12345 (Z.to_nat n))).
Proof.
  intros Hlen. pose proof (len_nonneg buf) as Hn. rewrite Hlen in Hn.
  unfold BubbleSortOptimized.generate. cbn zeta.
  pose (I := fun (i : Z) (st : ptr Z * Z) => gen_inv n (Z.min i n) st).
  lazymatch goal with
  | |- bind ?l _ = _ =>
      assert (Hloop : wp l (fun st => ∃ i, I i st ∧ n ≤ i ∧ (i = 0 ∨ i < n + 4)) no_fault)
  end.
  { apply wp_for_lt; [lia | |].
    - exists buf. unfold I. rewrite Z.min_l by lia. done.
    - intros i [arr seed] Hi Hinv. unfold I in Hinv. rewrite Z.min_l in Hinv by lia.
      cbn beta iota zeta. change ((seed * 1103515245 + 12345) mod 2 ^ 32) with (lcg_next seed).
      destruct (gen_write n i arr seed Hinv Hi) as (arr1 & -> & Hinv1). cbn [bind].
      destruct (Z.ltb_spec (i + 1) n) as [H1 | H1]; cbn [bind];
        [| rewrite (proj2 (Z.ltb_ge (i + 2) n)), (proj2 (Z.ltb_ge (i + 3) n)) by lia;
           cbn [bind wp]; unfold I; by replace (Z.min (i + 4) n) with (i + 1) by lia].
      change ((lcg_next seed * 1103515245 + 12345) mod 2 ^ 32) with (lcg_next (lcg_next seed)).
      destruct (gen_write n (i + 1) _ _ Hinv1 ltac:(lia)) as (arr2 & -> & Hinv2). cbn [bind].
      replace (i + 1 + 1) with (i + 2) in Hinv2 by lia.
      destruct (Z.ltb_spec (i + 2) n) as [H2 | H2]; cbn [bind];
        [| rewrite (proj2 (Z.ltb_ge (i + 3) n)) by lia;
           cbn [bind wp]; unfold I; by replace (Z.min (i + 4) n) with (i + 2) by lia].
      change ((lcg_next (lcg_next seed) * 1103515245 + 12345) mod 2 ^ 32)
        with (lcg_next (lcg_next (lcg_next seed))).
      destruct (gen_write n (i + 2) _ _ Hinv2 ltac:(lia)) as (arr3 & -> & Hinv3). cbn [bind].
      replace (i + 2 + 1) with (i + 3) in Hinv3 by lia.
      destruct (Z.ltb_spec (i + 3) n) as [H3 | H3]; cbn [bind];
        [| cbn [wp]; unfold I; by replace (Z.min (i + 4) n) with (i + 3) by lia].
      change ((lcg_next (lcg_next (lcg_next seed)) * 1103515245 + 12345) mod 2 ^ 32)
        with (lcg_next (lcg_next (lcg_next (lcg_next seed)))).
      destruct (gen_write n (i + 3) _ _ Hinv3 ltac:(lia)) as (arr4 & -> & Hinv4).
      cbn [bind wp]. replace (i + 3 + 1) with (i + 4) in Hinv4 by lia.
      unfold I. by replace (Z.min (i + 4) n) with (i + 4) by lia. }
  destruct (wp_ok_elim _ _ Hloop) as ([arr seed] & -> & i & Hinv & Hi & _). cbn [bind].
  unfold I in Hinv. rewrite Z.min_r in Hinv by lia.
  destruct Hinv as (buf' & -> & Hinv).
  f_equal. f_equal. apply (gen_inv_full n buf' seed Hn). exists buf'. done.
Qed.

(** ** The checksum of the sort kernel *)

Lemma pload_nth (a : list Z) p :
  0 ≤ p < len a → pload (Some a) p = Ok (nth (Z.to_nat p) a 0).
Proof.
  intros Hp. cbn [pload]. destruct (load_in_range a p Hp) as (v & -> & Hv).
  f_equal. symmetry. by apply nth_lookup_Some.
Qed.

Lemma weighted_sum_next a p :
  0 ≤ p →
  weighted_sum a (Z.to_nat (p + 1)) =
    weighted_sum a (Z.to_nat p) + nth (Z.to_nat p) a 0 * (p + 1).
Proof.
  intros Hp. replace (Z.to_nat (p + 1)) with (Datatypes.S (Z.to_nat p)) by lia.
  simpl. by rewrite Z2Nat.id by lia.
Qed.

(** The baseline checksum is the plain weighted sum. *)
Lemma baseline_checksum_spec n a :
  0 ≤ n ≤ len a →
  BubbleSortBaseline.checksum_loop n (Some a) = Ok (weighted_sum a (Z.to_nat n)).
Proof.
  intros Hn. unfold BubbleSortBaseline.checksum_loop.
  pose (I := fun (i checksum : Z) => checksum = weighted_sum a (Z.to_nat i)).
  lazymatch goal with
  | |- ?l = _ => assert (Hloop : wp l (I n) no_fault)
  end.
  { apply wp_for_lt_1; [lia | done |].
    intros i checksum Hi ->. cbn beta. rewrite pload_nth by lia. cbn [bind wp].
    unfold I. by rewrite weighted_sum_next by lia. }
  destruct (wp_ok_elim _ _ Hloop) as (checksum & -> & ->). done.
Qed.

(** The unrolled checksum is the weighted sum of the complete groups of
    four: what the remainder branch adds is overwritten at the end. *)
Lemma optimized_checksum_spec n a :
  0 ≤ n ≤ len a →
  BubbleSortOptimized.checksum_loop n (Some a) =
    Ok (weighted_sum a (Z.to_nat (4 * (n / 4)))).
Proof.
  intros Hn. unfold BubbleSortOptimized.checksum_loop. cbn zeta.
  pose proof (Z.div_mod n 4 ltac:(lia)) as Hdiv.
  pose proof (Z.mod_pos_bound n 4 ltac:(lia)) as Hmod.
  pose (I := fun (i : Z) (st : Z * Z * Z * Z * Z) =>
               let '(_, sum1, sum2, sum3, sum4) := st in
               i mod 4 = 0
               ∧ sum1 + sum2 + sum3 + sum4 =
                   weighted_sum a (Z.to_nat (Z.min i (4 * (n / 4))))).
  lazymatch goal with
  | |- bind ?l _ = _ =>
      assert (Hloop : wp l (fun st => ∃ i, I i st ∧ n ≤ i ∧ (i = 0 ∨ i < n + 4)) no_fault)
  end.
  { apply wp_for_lt; [lia | |].
    - unfold I. split; [done |]. rewrite Z.min_l by lia. done.
    - intros i [[[[checksum sum1] sum2] sum3] sum4] Hi [Hi4 Hsum]. cbn beta iota zeta.
      pose proof (Z.div_mod i 4 ltac:(lia)) as Hidiv.
      assert (Hi4' : (i + 4) mod 4 = 0).
      { rewrite <- Z.add_mod_idemp_r, Z.mod_same, Z.add_0_r by lia. done. }
      destruct (Z.ltb_spec (i + 3) n) as [Hfull | Hrest].
      + rewrite !pload_nth by lia. cbn [bind wp]. unfold I. split; [done |].
        rewrite Z.min_l in Hsum by lia. rewrite Z.min_l by lia.
        replace (i + 4) with (i + 1 + 1 + 1 + 1) by lia.
        rewrite !weighted_sum_next by lia.
        replace (i + 1 + 1) with (i + 2) by lia. replace (i + 2 + 1) with (i + 3) by lia.
        lia.
      + pose (J := fun (st : Z * Z) => i ≤ st.1 ≤ n).
        pose (V := fun (st : Z * Z) => n - st.1).
        lazymatch goal with
        | |- wp (bind ?l _) _ _ => assert (Hrem : wp l J no_fault)
        end.
        { eapply wp_mono; [eapply (wp_while J V no_fault) | |].
          - intros [j cs] HJ Hcond. unfold J, V in *. cbn [fst snd] in *.
            cbn beta iota in Hcond |- *.
            apply andb_true_iff in Hcond as [Hjn _]. apply Z.ltb_lt in Hjn.
            split; [lia |]. rewrite pload_nth by lia. cbn [bind wp fst snd]. lia.
          - unfold V. simpl. lia.
          - unfold J. simpl. lia.
          - cbn beta. intros st [HJ _]. done.
          - auto. }
        destruct (wp_ok_elim _ _ Hrem) as ([j cs] & -> & _). cbn [bind wp]. unfold I.
        split; [done |]. rewrite Hsum. f_equal. lia. }
  destruct (wp_ok_elim _ _ Hloop)
    as ([[[[checksum sum1] sum2] sum3] sum4] & -> & i & [Hi4 Hsum] & Hi & _).
  cbn [bind]. rewrite Hsum. do 2 f_equal. lia.
Qed.

(** ** Matrix multiply *)

Ltac zcases :=
  repeat match goal with
    | |- context [?a <? ?b] => destruct (Z.ltb_spec a b)
    | |- context [?a =? ?b] => destruct (Z.eqb_spec a b)
    end;
  cbn [andb]; subst; try lia; try reflexivity.

Section MatrixProofs.
Context {T : Type} (zero : T) (add mul : T → T → T).

Lemma cell_index n i j : 0 ≤ i < n → 0 ≤ j < n → 0 ≤ i * n + j < n * n.
Proof. intros Hi Hj. nia. Qed.

Lemma cell_index_inj n i j i' j' :
  0 ≤ j < n → 0 ≤ j' < n → i * n + j = i' * n + j' → i = i' ∧ j = j'.
Proof. intros Hj Hj' Heq. assert (i = i') by nia. subst. lia. Qed.

Lemma load_entry n (M : list T) i j :
  len M = n * n → 0 ≤ i < n → 0 ≤ j < n →
  load M (i * n + j) = Ok (entry zero n M i j).
Proof.
  intros Hlen Hi Hj. pose proof (cell_index n i j Hi Hj) as Hidx.
  destruct (load_in_range M (i * n + j)) as (v & -> & Hv); [lia |].
  f_equal. unfold entry. symmetry. by apply nth_lookup_Some.
Qed.

Lemma cells_initial n (C : list T) :
  len C = n * n → cells n C (entry zero n C).
Proof.
  intros Hlen. split; [done |]. intros i j Hi Hj.
  pose proof (cell_index n i j Hi Hj) as Hidx.
  destruct (lookup_lt_is_Some_2 C (Z.to_nat (i * n + j))) as [v Hv];
    [unfold len in Hlen; lia |].
  rewrite Hv. f_equal. unfold entry. symmetry. by apply nth_lookup_Some.
Qed.

Lemma cells_load n (C : list T) f i j :
  cells n C f → 0 ≤ i < n → 0 ≤ j < n → load C (i * n + j) = Ok (f i j).
Proof.
  intros [Hlen Hf] Hi Hj. pose proof (cell_index n i j Hi Hj) as Hidx.
  apply load_ok; [lia | by apply Hf].
Qed.

Lemma cells_store n (C : list T) f i j v :
  cells n C f → 0 ≤ i < n → 0 ≤ j < n →
  ∃ C', store C (i * n + j) v = Ok C'
        ∧ cells n C' (fun i' j' => if (i' =? i) && (j' =? j) then v else f i' j').
Proof.
  intros [Hlen Hf] Hi Hj. pose proof (cell_index n i j Hi Hj) as Hidx.
  rewrite store_ok by lia. eexists. split; [done |]. split; [by rewrite len_insert |].
  intros i' j' Hi' Hj'. pose proof (cell_index n i' j' Hi' Hj') as Hidx'.
  destruct (Z.eqb_spec i' i) as [-> | Hne]; cbn [andb].
  - destruct (Z.eqb_spec j' j) as [-> | Hne'].
    + apply list_lookup_insert_eq. unfold len in Hlen. lia.
    + rewrite list_lookup_insert_ne by lia. by apply Hf.
  - rewrite list_lookup_insert_ne; [by apply Hf |].
    intros Heq. apply Hne. symmetry.
    apply (cell_index_inj n i j i' j' Hj Hj'). lia.
Qed.

Lemma cells_ext n (C : list T) f g :
  cells n C f →
  (∀ i j, 0 ≤ i < n → 0 ≤ j < n → f i j = g i j) →
  cells n C g.
Proof.
  intros [Hlen Hf] Hfg. split; [done |]. intros i j Hi Hj.
  rewrite <- Hfg by done. by apply Hf.
Qed.

Lemma cells_unique n (C C' : list T) f :
  0 ≤ n → cells n C f → cells n C' f → C = C'.
Proof.
  intros Hn [Hlen Hf] [Hlen' Hf']. apply list_eq. intros p.
  destruct (decide (p < Z.to_nat (n * n))%nat) as [Hp | Hp].
  - assert (Hn0 : 0 < n) by nia.
    pose proof (Z.div_mod (Z.of_nat p) n ltac:(lia)) as Hdiv.
    pose proof (Z.mod_pos_bound (Z.of_nat p) n Hn0) as Hmod.
    assert (Hrow : 0 ≤ Z.of_nat p / n < n).
    { split; [apply Z.div_pos; lia | apply Z.div_lt_upper_bound; nia]. }
    replace p with (Z.to_nat ((Z.of_nat p / n) * n + Z.of_nat p mod n)) by lia.
    rewrite Hf, Hf' by done. done.
  - rewrite !lookup_ge_None_2 by (unfold len in *; lia). done.
Qed.

Lemma dot_next n (A B : list T) i j k :
  0 ≤ k →
  dot zero add mul n A B i j (Z.to_nat (k + 1)) =
    add (dot zero add mul n A B i j (Z.to_nat k))
        (mul (entry zero n A i k) (entry zero n B k j)).
Proof.
  intros Hk. replace (Z.to_nat (k + 1)) with (Datatypes.S (Z.to_nat k)) by lia.
  simpl. by rewrite Z2Nat.id by lia.
Qed.

(** The baseline writes the triple product into every cell. *)
Lemma baseline_matrix_multiply_spec n (A B C : list T) :
  0 ≤ n → len A = n * n → len B = n * n → len C = n * n →
  ∃ C', MatrixMultiplyBaseline.matrix_multiply_n zero add mul n A B C = Ok C'
        ∧ cells n C' (fun i j => dot zero add mul n A B i j (Z.to_nat n)).
Proof.
  intros Hn HA HB HC. unfold MatrixMultiplyBaseline.matrix_multiply_n.
  pose (P := fun (p : Z) (C' : list T) =>
               cells n C' (fun i j => if i * n + j <? p
                                      then dot zero add mul n A B i j (Z.to_nat n)
                                      else entry zero n C i j)).
  lazymatch goal with
  | |- ∃ _, ?l = _ ∧ _ => assert (Hloop : wp l (fun C' => P (n * n) C') no_fault)
  end.
  { apply (wp_for_lt_1 (fun i C' => P (i * n) C')); [done | |].
    - unfold P. eapply cells_ext; [by apply cells_initial |].
      intros i j Hi Hj. cbn beta. pose proof (cell_index n i j Hi Hj). zcases.
    - intros i C1 Hi HP. cbn beta.
      eapply wp_mono;
        [apply (wp_for_lt_1 (fun j C' => P (i * n + j) C') no_fault) | |].
      + lia.
      + by rewrite Z.add_0_r.
      + intros j C2 Hj HP2. cbn beta zeta.
        pose (K := fun (k : Z) (sum : T) =>
                     sum = dot zero add mul n A B i j (Z.to_nat k)).
        lazymatch goal with
        | |- wp (bind ?l _) _ _ => assert (Hsum : wp l (K n) no_fault)
        end.
        { apply wp_for_lt_1; [done | done |].
          intros k sum Hk ->. cbn beta.
          rewrite (load_entry n A i k), (load_entry n B k j) by done.
          cbn [bind wp]. unfold K. by rewrite dot_next by lia. }
        destruct (wp_ok_elim _ _ Hsum) as (sum & -> & ->). cbn [bind].
        destruct (cells_store n C2 _ i j (dot zero add mul n A B i j (Z.to_nat n)) HP2)
          as (C3 & -> & HC3); [done | done |].
        cbn [wp]. unfold P. eapply cells_ext; [exact HC3 |].
        intros i' j' Hi' Hj'. cbn beta.
        destruct (Z.eqb_spec i' i) as [-> | Hne]; cbn [andb].
        * zcases.
        * assert (i' * n + j' ≠ i * n + j).
          { intros Heq. apply Hne. apply (cell_index_inj n i' j' i j Hj' Hj Heq). }
          zcases.
      + cbn beta. intros C2 HP2. replace ((i + 1) * n) with (i * n + n) by lia. done.
      + auto. }
  destruct (wp_ok_elim _ _ Hloop) as (C' & -> & HP). exists C'. split; [done |].
  eapply cells_ext; [exact HP |]. intros i j Hi Hj. cbn beta.
  pose proof (cell_index n i j Hi Hj). zcases.
Qed.

Lemma loadu_pd_cells n (C : list T) f i j :
  cells n C f → 0 ≤ i < n → 0 ≤ j → j + 3 < n →
  MatrixMultiplyOptimized._mm256_loadu_pd C (i * n + j) =
    Ok (f i j, f i (j + 1), f i (j + 2), f i (j + 3)).
Proof.
  intros HC Hi Hj Hj3. unfold MatrixMultiplyOptimized._mm256_loadu_pd.
  replace (i * n + j + 1) with (i * n + (j + 1)) by lia.
  replace (i * n + j + 2) with (i * n + (j + 2)) by lia.
  replace (i * n + j + 3) with (i * n + (j + 3)) by lia.
  rewrite !(cells_load n C f) by (done || lia). done.
Qed.

Lemma storeu_pd_cells n (C : list T) f i j (v : MatrixMultiplyOptimized.m256d) :
  cells n C f → 0 ≤ i < n → 0 ≤ j → j + 3 < n →
  ∃ C', MatrixMultiplyOptimized._mm256_storeu_pd C (i * n + j) v = Ok C'
        ∧ cells n C' (fun i' j' =>
            if (i' =? i) && (j' =? j) then v.1.1.1
            else if (i' =? i) && (j' =? j + 1) then v.1.1.2
            else if (i' =? i) && (j' =? j + 2) then v.1.2
            else if (i' =? i) && (j' =? j + 3) then v.2
            else f i' j').
Proof.
  intros HC Hi Hj Hj3. destruct v as [[[x0 x1] x2] x3].
  unfold MatrixMultiplyOptimized._mm256_storeu_pd.
  replace (i * n + j + 1) with (i * n + (j + 1)) by lia.
  replace (i * n + j + 2) with (i * n + (j + 2)) by lia.
  replace (i * n + j + 3) with (i * n + (j + 3)) by lia.
  destruct (cells_store n C _ i j x0 HC) as (C1 & -> & HC1); [lia .. |]. cbn [bind].
  destruct (cells_store n C1 _ i (j + 1) x1 HC1) as (C2 & -> & HC2); [lia .. |]. cbn [bind].
  destruct (cells_store n C2 _ i (j + 2) x2 HC2) as (C3 & -> & HC3); [lia .. |]. cbn [bind].
  destruct (cells_store n C3 _ i (j + 3) x3 HC3) as (C4 & -> & HC4); [lia .. |].
  exists C4. split; [done |]. eapply cells_ext; [exact HC4 |].
  intros i' j' Hi' Hj'. cbn [fst snd]. zcases.
Qed.

(** The optimized kernel reaches the same cells. *)
Lemma optimized_matrix_multiply_spec n (A B C : list T) :
  0 ≤ n → len A = n * n → len B = n * n → len C = n * n →
  ∃ C', MatrixMultiplyOptimized.matrix_multiply_n zero add mul n A B C = Ok C'
        ∧ cells n C' (fun i j => dot zero add mul n A B i j (Z.to_nat n)).
Proof.
  intros Hn HA HB HC. unfold MatrixMultiplyOptimized.matrix_multiply_n.
  (* zero initialisation *)
  pose (Z0 := fun (p : Z) (C' : list T) =>
                len C' = n * n
                ∧ ∀ q : nat, Z.of_nat q < p → C' !! q = Some zero).
  lazymatch goal with
  | |- ∃ _, bind ?l _ = _ ∧ _ => assert (Hinit : wp l (Z0 (n * n)) no_fault)
  end.
  { apply wp_for_lt_1; [nia | |].
    - split; [done |]. intros q Hq. lia.
    - intros p C1 Hp [Hlen Hzero]. cbn beta. rewrite store_ok by lia. cbn [wp].
      split; [by rewrite len_insert |]. intros q Hq.
      destruct (decide (q = Z.to_nat p)) as [-> | Hne].
      + apply list_lookup_insert_eq. unfold len in Hlen. lia.
      + rewrite list_lookup_insert_ne by lia. apply Hzero. lia. }
  destruct (wp_ok_elim _ _ Hinit) as (C0 & -> & Hlen0 & Hzero0). cbn [bind].
  (* rows *)
  pose (D := fun i j (k : Z) => dot zero add mul n A B i j (Z.to_nat k)).
  pose (Rows := fun (i : Z) (C' : list T) =>
                  cells n C' (fun i' j' => if i' <? i then D i' j' n else zero)).
  pose (Row := fun (i k j : Z) (C' : list T) =>
                 cells n C' (fun i' j' =>
                   if i' <? i then D i' j' n
                   else if i' =? i then (if j' <? j then D i j' (k + 1) else D i j' k)
                   else zero)).
  lazymatch goal with
  | |- ∃ _, ?l = _ ∧ _ => assert (Hloop : wp l (Rows n) no_fault)
  end.
  { apply wp_for_lt_1; [done | |].
    - split; [done |]. intros i j Hi Hj. pose proof (cell_index n i j Hi Hj).
      destruct (Z.ltb_spec i 0); [lia |]. apply Hzero0. lia.
    - intros i C1 Hi HRows. cbn beta.
      eapply wp_mono; [apply (wp_for_lt_1 (fun k C' => Row i k 0 C') no_fault) | |].
      + done.
      + eapply cells_ext; [exact HRows |]. intros i' j' Hi' Hj'. cbn beta.
        unfold D. zcases.
      + intros k C2 Hk HRow. cbn beta zeta.
        rewrite (load_entry n A i k) by done. cbn [bind].
        set (a_val := entry zero n A i k).
        assert (Hstep : ∀ j', 0 ≤ j' < n →
                  add (D i j' k) (mul a_val (entry zero n B k j')) = D i j' (k + 1)).
        { intros j' Hj'. unfold D. by rewrite dot_next by lia. }
        (* the vector loop *)
        pose (Inv := fun (st : Z * list T) => 0 ≤ st.1 ≤ n ∧ Row i k st.1 st.2).
        pose (Var := fun (st : Z * list T) => n - st.1).
        lazymatch goal with
        | |- wp (bind ?l _) _ _ => assert (Hvec : wp l Inv no_fault)
        end.
        { eapply wp_mono; [eapply (wp_while Inv Var no_fault) | |].
          - intros [j C3] [Hj HC3] Hcond. unfold Inv, Var in *. cbn [fst snd] in *.
            cbn beta iota in Hcond |- *. apply Z.leb_le in Hcond.
            split; [lia |].
            rewrite (loadu_pd_cells n C3 _ i j HC3) by (done || lia). cbn [bind].
            rewrite (loadu_pd_cells n B (entry zero n B) k j) by
              (done || lia || by apply cells_initial). cbn [bind].
            destruct (storeu_pd_cells n C3 _ i j
                        (MatrixMultiplyOptimized._mm256_add_pd add
                           (let f := fun i' j' : Z =>
                              if i' <? i then D i' j' n
                              else if i' =? i
                                   then (if j' <? j then D i j' (k + 1) else D i j' k)
                                   else zero in
                            (f i j, f i (j + 1), f i (j + 2), f i (j + 3)))
                           (MatrixMultiplyOptimized._mm256_mul_pd mul
                              (MatrixMultiplyOptimized._mm256_set1_pd a_val)
                              (entry zero n B k j, entry zero n B k (j + 1),
                               entry zero n B k (j + 2), entry zero n B k (j + 3))))
                        HC3) as (C4 & HC4eq & HC4); [lia .. |].
            cbn zeta in HC4eq. rewrite HC4eq. cbn [bind wp fst snd].
            split; [| lia]. split; [lia |].
            unfold Row. eapply cells_ext; [exact HC4 |].
            intros i' j' Hi' Hj'.
            cbn [MatrixMultiplyOptimized._mm256_add_pd MatrixMultiplyOptimized._mm256_mul_pd
                 MatrixMultiplyOptimized._mm256_set1_pd fst snd].
            cbn beta iota zeta.
            pose proof (Hstep j) as Hs0. pose proof (Hstep (j + 1)) as Hs1.
            pose proof (Hstep (j + 2)) as Hs2. pose proof (Hstep (j + 3)) as Hs3.
            destruct (Z.eqb_spec i' i) as [-> | Hne]; cbn [andb]; [| zcases].
            destruct (Z.ltb_spec i i); [lia |].
            destruct (Z.eqb_spec j' j) as [-> | Hne0];
              [zcases; rewrite Hs0 by lia; reflexivity |].
            destruct (Z.eqb_spec j' (j + 1)) as [-> | Hne1];
              [zcases; rewrite Hs1 by lia; reflexivity |].
            destruct (Z.eqb_spec j' (j + 2)) as [-> | Hne2];
              [zcases; rewrite Hs2 by lia; reflexivity |].
            destruct (Z.eqb_spec j' (j + 3)) as [-> | Hne3];
              [zcases; rewrite Hs3 by lia; reflexivity |].
            zcases.
          - unfold Var. cbn [fst]. lia.
          - unfold Inv. cbn [fst snd]. split; [lia | done].
          - cbn beta. intros st [HInv _]. done.
          - auto. }
        destruct (wp_ok_elim _ _ Hvec) as ([j1 C3] & -> & Hj1 & HC3). cbn [bind].
        cbn [fst snd] in Hj1, HC3.
        (* the remainder loop *)
        lazymatch goal with
        | |- wp (bind ?l _) _ _ =>
            assert (Hrem : wp l (fun st => Inv st ∧ n ≤ st.1) no_fault)
        end.
        { eapply wp_mono; [eapply (wp_while Inv Var no_fault) | |].
          - intros [j C4] [Hj HC4] Hcond. unfold Inv, Var in *. cbn [fst snd] in *.
            cbn beta iota in Hcond |- *. apply Z.ltb_lt in Hcond.
            split; [lia |].
            rewrite (cells_load n C4 _ i j HC4) by (done || lia). cbn [bind].
            rewrite (load_entry n B k j) by (done || lia). cbn [bind].
            destruct (cells_store n C4 _ i j
                        (add (if i <? i then D i j n
                              else if i =? i
                                   then (if j <? j then D i j (k + 1) else D i j k)
                                   else zero)
                             (mul a_val (entry zero n B k j))) HC4)
              as (C5 & -> & HC5); [lia .. |].
            cbn [bind wp fst snd]. split; [| lia]. split; [lia |].
            unfold Row. eapply cells_ext; [exact HC5 |].
            intros i' j' Hi' Hj'. cbn beta.
            pose proof (Hstep j) as Hs0.
            zcases; try (rewrite Hs0 by lia; reflexivity).
          - unfold Var. cbn [fst]. lia.
          - done.
          - cbn beta. intros [j C4] [HInv Hcond]. split; [done |].
            cbn [fst] in *. cbn beta iota in Hcond. apply Z.ltb_ge in Hcond. done.
          - auto. }
        destruct (wp_ok_elim _ _ Hrem) as ([j2 C4] & -> & [Hj2 HC4] & Hend).
        cbn [bind wp fst snd] in *.
        unfold Row. eapply cells_ext; [exact HC4 |].
        intros i' j' Hi' Hj'. cbn beta. zcases.
      + cbn beta. intros C2 HRow. unfold Rows. eapply cells_ext; [exact HRow |].
        intros i' j' Hi' Hj'. cbn beta. unfold D. zcases.
      + auto. }
  destruct (wp_ok_elim _ _ Hloop) as (C' & -> & HRows). exists C'. split; [done |].
  eapply cells_ext; [exact HRows |]. intros i j Hi Hj. cbn beta. unfold D. zcases.
Qed.

End MatrixProofs.

(** ** Allocation failure *)

(** A loop whose first round faults, faults. *)
Lemma for_lt_first_fault {S} lo hi stride (body : Z → S → result S) s f :
  lo < hi → body lo s = Fault f → for_lt lo hi stride body s = Fault f.
Proof.
  intros Hlt Hbody. unfold for_lt.
  destruct (Z.to_nat (hi - lo)) as [| fuel] eqn:Hfuel; [lia |].
  unfold for_loop. destruct (Z.ltb_spec lo hi); [| lia].
  rewrite Hbody. reflexivity.
Qed.

Lemma bubble_sort_baseline_run_null n :
  0 < n → BubbleSortBaseline.run n None = Fault NullPointer.
Proof.
  intros Hn. unfold BubbleSortBaseline.run, BubbleSortBaseline.generate. cbn zeta.
  rewrite (for_lt_first_fault _ _ _ _ _ NullPointer) by done. reflexivity.
Qed.

Lemma bubble_sort_optimized_run_null n :
  0 < n → BubbleSortOptimized.run n None = Fault NullPointer.
Proof.
  intros Hn. unfold BubbleSortOptimized.run, BubbleSortOptimized.generate. cbn zeta.
  rewrite (for_lt_first_fault _ _ _ _ _ NullPointer) by done. reflexivity.
Qed.

Lemma string_search_baseline_run_null text_len :
  StringSearchBaseline.run text_len None = Fault NullPointer.
Proof.
  unfold StringSearchBaseline.run, StringSearchBaseline.fill_text. cbn zeta.
  destruct (Z.lt_ge_cases 0 text_len) as [Hpos | Hneg].
  - rewrite (for_lt_first_fault _ _ _ _ _ NullPointer) by done. reflexivity.
  - rewrite for_lt_empty by lia. reflexivity.
Qed.

Lemma string_search_optimized_run_null text_len :
  StringSearchOptimized.run text_len None = Fault NullPointer.
Proof.
  unfold StringSearchOptimized.run, StringSearchOptimized.fill_text. cbn zeta.
  destruct (Z.lt_ge_cases 0 text_len) as [Hpos | Hneg].
  - rewrite (for_lt_first_fault _ _ _ _ _ NullPointer) by done. reflexivity.
  - rewrite for_lt_empty by lia. reflexivity.
Qed.

Section AllocationProofs.
Context {T : Type} (zero : T) (add mul div : T → T → T) (of_int : Z → T).

Lemma array_sum_baseline_run_null n :
  0 < n → ArraySumBaseline.run zero add div of_int n None = Fault NullPointer.
Proof.
  intros Hn. unfold ArraySumBaseline.run, ArraySumBaseline.fill. cbn zeta.
  rewrite (for_lt_first_fault _ _ _ _ _ NullPointer) by done. reflexivity.
Qed.

Lemma array_sum_optimized_run_null array_sum n :
  ArraySumOptimized.run div of_int array_sum n None = Ok (1, None).
Proof. reflexivity. Qed.

Lemma matrix_multiply_baseline_run_null n mB mC :
  0 < n →
  MatrixMultiplyBaseline.run zero add mul div of_int n None mB mC = Fault NullPointer.
Proof.
  intros Hn. unfold MatrixMultiplyBaseline.run, MatrixMultiplyBaseline.init.
  rewrite (for_lt_first_fault _ _ _ _ _ NullPointer) by (nia || done). reflexivity.
Qed.

Lemma matrix_multiply_optimized_run_null n mA mB mC :
  mA = None ∨ mB = None ∨ mC = None →
  MatrixMultiplyOptimized.run zero add mul div of_int n mA mB mC = Ok (1, None).
Proof.
  unfold MatrixMultiplyOptimized.run.
  intros H. destruct mA, mB, mC; try reflexivity.
  destruct H as [H | [H | H]]; discriminate.
Qed.

End AllocationProofs.

(** * The claims of the specification *)

(** C1 (as amended). For every text and every non-empty pattern whose
    objects cover the sixteen bytes of each vector load, the optimized
    search ([optimized_search], both the vector path for patterns of at
    most 16 bytes and the scalar Horspool path) returns the same match
    count as the naive sliding search ([naive_search]), and that count is
    the number of alignments at which the pattern occurs, overlapping
    occurrences included.  For the empty pattern the two differ: the naive
    search counts every alignment, [strlen text + 1] of them, and the
    optimized search returns 0 from its guard. *)
Theorem search_counts_agree (text pattern : list ascii) :
  (strlen pattern ≠ 0 → loads_in_bounds text pattern →
   ∃ count,
     StringSearchBaseline.naive_search text pattern = Ok count
     ∧ StringSearchOptimized.optimized_search text pattern = Ok count
     ∧ count = occurrences text pattern)
  ∧ (strlen pattern = 0 →
     StringSearchBaseline.naive_search text pattern = Ok (strlen text + 1)
     ∧ StringSearchOptimized.optimized_search text pattern = Ok 0).
Proof.
  split.
  - intros Hm Hloads. exists (occurrences text pattern).
    split; [apply naive_search_spec |]. split; [by apply optimized_search_spec | done].
  - intros Hm. split.
    + rewrite naive_search_spec. by rewrite occurrences_empty_pattern.
    + apply optimized_search_guard. by left.
Qed.

Lemma search_counts_agree_witness :
  strlen (char_array 16 "ABCDABD") ≠ 0
  ∧ loads_in_bounds (char_array 32 "ABCDABDABCDABD") (char_array 16 "ABCDABD")
  ∧ ∃ count,
      StringSearchBaseline.naive_search (char_array 32 "ABCDABDABCDABD")
        (char_array 16 "ABCDABD") = Ok count
      ∧ StringSearchOptimized.optimized_search (char_array 32 "ABCDABDABCDABD")
          (char_array 16 "ABCDABD") = Ok count
      ∧ count = occurrences (char_array 32 "ABCDABDABCDABD") (char_array 16 "ABCDABD").
Proof.
  assert (H1 : strlen (char_array 16 "ABCDABD") ≠ 0) by (vm_compute; discriminate).
  assert (H2 : loads_in_bounds (char_array 32 "ABCDABDABCDABD") (char_array 16 "ABCDABD")).
  { intros _ _. split; vm_compute; discriminate. }
  split; [exact H1 |]. split; [exact H2 |].
  exact (proj1 (search_counts_agree (char_array 32 "ABCDABDABCDABD")
                  (char_array 16 "ABCDABD")) H1 H2).
Defined.

(** C1 as stated fails on the empty pattern: the naive search counts every
    alignment, the optimized search returns 0. *)
Lemma search_counts_differ_on_empty_pattern :
  StringSearchBaseline.naive_search (c_string "AAAAA") (c_string "") = Ok 6
  ∧ StringSearchOptimized.optimized_search (c_string "AAAAA") (c_string "") = Ok 0.
Proof. split; reflexivity. Qed.

(** C2. For every array whose values all lie in [[0, 32768)], of any length,
    the exchange sort ([bubble_sort]) and the counting sort
    ([optimized_sort]) both return, and what they leave in the array is a
    non-decreasing permutation of the input. *)
Theorem sorts_return_sorted_permutation (arr : list Z) :
  Forall (in_domain 32768) arr →
  (∃ out, BubbleSortBaseline.bubble_sort arr (len arr) = Ok out
          ∧ Sorted Z.le out ∧ Permutation arr out)
  ∧ (∃ out, BubbleSortOptimized.optimized_sort arr (len arr) = Ok out
            ∧ Sorted Z.le out ∧ Permutation arr out).
Proof.
  intros Hdom. split.
  - destruct (bubble_sort_spec arr) as (out & Hout & Hsorted & Hperm).
    exists out. split; [done |]. split; [by apply StronglySorted_Sorted | by symmetry].
  - pose proof (optimized_sort_with_spec 32768 arr ltac:(lia)) as Hwp.
    unfold BubbleSortOptimized.optimized_sort, BubbleSortOptimized.MAX_VAL.
    destruct (BubbleSortOptimized.optimized_sort_with _ _ _ _) as [out | f]; cbn [wp] in Hwp.
    + destruct Hwp as [_ ->]. eexists. split; [done |]. split.
      * apply StronglySorted_Sorted, emitted_sorted.
      * symmetry. by apply emitted_perm.
    + destruct Hwp as (v & Hv & Hout & _). exfalso. apply Hout.
      by apply (proj1 (Forall_forall _ _) Hdom).
Qed.

Lemma sorts_return_sorted_permutation_witness :
  Forall (in_domain 32768) [3; 1; 2]
  ∧ (∃ out, BubbleSortBaseline.bubble_sort [3; 1; 2] (len [3; 1; 2]) = Ok out
            ∧ Sorted Z.le out ∧ Permutation [3; 1; 2] out)
  ∧ (∃ out, BubbleSortOptimized.optimized_sort [3; 1; 2] (len [3; 1; 2]) = Ok out
            ∧ Sorted Z.le out ∧ Permutation [3; 1; 2] out).
Proof.
  assert (H : Forall (in_domain 32768) [3; 1; 2]).
  { repeat constructor; unfold in_domain; lia. }
  split; [exact H |]. exact (sorts_return_sorted_permutation [3; 1; 2] H).
Defined.

(** What the counting sort does outside its domain, for any table size. *)
Lemma optimized_sort_with_fault max_val (arr : list Z) :
  0 ≤ max_val →
  Exists (fun v => ¬ in_domain max_val v) arr →
  ∃ v, v ∈ arr ∧ ¬ in_domain max_val v
       ∧ BubbleSortOptimized.optimized_sort_with max_val
           (BubbleSortOptimized.calloc max_val) arr (len arr)
         = Fault (OutOfBounds v max_val).
Proof.
  intros Hmax Hex.
  pose proof (optimized_sort_with_spec max_val arr Hmax) as Hwp.
  destruct (BubbleSortOptimized.optimized_sort_with _ _ _ _) as [out | f]; cbn [wp] in Hwp.
  - destruct Hwp as [Hdom _]. exfalso.
    apply Exists_exists in Hex as (v & Hv & Hout). apply Hout.
    by apply (proj1 (Forall_forall _ _) Hdom).
  - destruct Hwp as (v & Hv & Hout & ->). eauto.
Qed.

(** C3 (as amended). [optimized_sort] has no domain check and no fallback:
    for every array that contains a value outside [[0, 32768)] it uses such
    a value as an index into its table of 32768 counters, an access out of
    range. *)
Theorem optimized_sort_out_of_domain (arr : list Z) :
  Exists (fun v => ¬ in_domain 32768 v) arr →
  ∃ v, v ∈ arr ∧ ¬ in_domain 32768 v
       ∧ BubbleSortOptimized.optimized_sort arr (len arr) = Fault (OutOfBounds v 32768).
Proof. apply (optimized_sort_with_fault 32768). lia. Qed.

Lemma optimized_sort_out_of_domain_witness :
  Exists (fun v => ¬ in_domain 32768 v) [40000]
  ∧ ∃ v, v ∈ [40000] ∧ ¬ in_domain 32768 v
         ∧ BubbleSortOptimized.optimized_sort [40000] (len [40000])
           = Fault (OutOfBounds v 32768).
Proof.
  assert (H : Exists (fun v => ¬ in_domain 32768 v) [40000]).
  { constructor. unfold in_domain. lia. }
  split; [exact H |]. exact (optimized_sort_out_of_domain [40000] H).
Defined.

(** C3 as stated fails: on the array [[40000]] the counting sort neither
    reports a domain error nor sorts by comparison, it reads the counter
    number 40000 of a table of 32768. *)
Lemma optimized_sort_indexes_out_of_range :
  BubbleSortOptimized.optimized_sort [40000] 1 = Fault (OutOfBounds 40000 32768).
Proof.
  destruct (optimized_sort_with_fault 32768 [40000]) as (v & Hv & _ & Heq).
  - lia.
  - constructor. unfold in_domain. lia.
  - apply list_elem_of_singleton in Hv as ->. exact Heq.
Qed.

(** C4. For every pair of 256 by 256 row-major matrices, over any
    arithmetic (exact or rounding), the optimized i-k-j vectorised multiply
    and the baseline i-j-k triple loop return the same matrix, element for
    element: each cell accumulates the same products in the same order.
    Every cell holds the triple product, the sum over [k] of
    [A[i][k] * B[k][j]]. *)
Theorem matrix_multiply_agree {T : Type} (zero : T) (add mul : T → T → T)
    (A B C : list T) :
  len A = 256 * 256 → len B = 256 * 256 → len C = 256 * 256 →
  ∃ out,
    MatrixMultiplyBaseline.matrix_multiply zero add mul A B C = Ok out
    ∧ MatrixMultiplyOptimized.matrix_multiply zero add mul A B C = Ok out
    ∧ cells 256 out (fun i j => dot zero add mul 256 A B i j 256).
Proof.
  intros HA HB HC.
  destruct (baseline_matrix_multiply_spec zero add mul 256 A B C) as (out & Hout & Hcells);
    [lia | done | done | done |].
  destruct (optimized_matrix_multiply_spec zero add mul 256 A B C) as (out' & Hout' & Hcells');
    [lia | done | done | done |].
  assert (out' = out) as -> by (apply (cells_unique 256 _ _ _ ltac:(lia) Hcells' Hcells)).
  exists out. split; [exact Hout |]. split; [exact Hout' |]. exact Hcells.
Qed.

Lemma matrix_multiply_agree_witness :
  len ones_matrix = 256 * 256 ∧ len ones_matrix = 256 * 256 ∧ len ones_matrix = 256 * 256
  ∧ ∃ out,
      MatrixMultiplyBaseline.matrix_multiply 0 Z.add Z.mul ones_matrix ones_matrix ones_matrix
        = Ok out
      ∧ MatrixMultiplyOptimized.matrix_multiply 0 Z.add Z.mul ones_matrix ones_matrix
          ones_matrix = Ok out
      ∧ cells 256 out (fun i j => dot 0 Z.add Z.mul 256 ones_matrix ones_matrix i j 256).
Proof.
  assert (H : len ones_matrix = 256 * 256)
    by (unfold ones_matrix, len; rewrite length_replicate; lia).
  split; [exact H |]. split; [exact H |]. split; [exact H |].
  exact (matrix_multiply_agree 0 Z.add Z.mul ones_matrix ones_matrix ones_matrix H H H).
Defined.

(** C5. The baseline trial division and the optimized test classify every
    integer below 100000 identically, 0 and 1 are not prime and 2 is, and
    the optimized scan of the odd numbers prints the same pair (count, sum)
    as the baseline's full scan. *)
Theorem prime_kernels_agree (n : Z) :
  n < 100000 →
  (∃ b, PrimeSieveBaseline.is_prime n = Ok b
        ∧ PrimeSieveOptimized.is_prime_optimized n = Ok b)
  ∧ PrimeSieveBaseline.is_prime 0 = Ok false
  ∧ PrimeSieveBaseline.is_prime 1 = Ok false
  ∧ PrimeSieveBaseline.is_prime 2 = Ok true
  ∧ PrimeSieveOptimized.is_prime_optimized 0 = Ok false
  ∧ PrimeSieveOptimized.is_prime_optimized 1 = Ok false
  ∧ PrimeSieveOptimized.is_prime_optimized 2 = Ok true
  ∧ ∃ count sum,
      PrimeSieveBaseline.main = Ok (0, Some (count, sum))
      ∧ PrimeSieveOptimized.main = Ok (0, Some (count, sum)).
Proof.
  intros _. split.
  { exists (primeb n). split; [apply baseline_is_prime_spec | apply optimized_is_prime_spec]. }
  do 6 (split; [reflexivity |]).
  unfold PrimeSieveBaseline.main, PrimeSieveOptimized.main.
  rewrite baseline_scan_spec, optimized_scan_spec
    by (unfold PrimeSieveBaseline.MAX, PrimeSieveOptimized.MAX; lia).
  change PrimeSieveOptimized.MAX with PrimeSieveBaseline.MAX.
  destruct (prime_tally _) as [count sum]. exists count, sum. split; reflexivity.
Qed.

Lemma prime_kernels_agree_witness :
  97 < 100000
  ∧ (∃ b, PrimeSieveBaseline.is_prime 97 = Ok b
          ∧ PrimeSieveOptimized.is_prime_optimized 97 = Ok b)
  ∧ PrimeSieveBaseline.is_prime 0 = Ok false
  ∧ PrimeSieveBaseline.is_prime 1 = Ok false
  ∧ PrimeSieveBaseline.is_prime 2 = Ok true
  ∧ PrimeSieveOptimized.is_prime_optimized 0 = Ok false
  ∧ PrimeSieveOptimized.is_prime_optimized 1 = Ok false
  ∧ PrimeSieveOptimized.is_prime_optimized 2 = Ok true
  ∧ ∃ count sum,
      PrimeSieveBaseline.main = Ok (0, Some (count, sum))
      ∧ PrimeSieveOptimized.main = Ok (0, Some (count, sum)).
Proof.
  assert (H : 97 < 100000) by lia.
  split; [exact H |]. exact (prime_kernels_agree 97 H).
Defined.

(** C6 (as amended). Both versions of [fibonacci] return
    0, 1, 1, 2, 3, 5, 8, 13, 21, 34, 55 for n = 0..10; the running sum of
    [fibonacci(i)] over i = 0..9 is 88, and over i = 0..10 it is 143. *)
Theorem fibonacci_first_values :
  map FibonacciBaseline.fibonacci (seqZ 0 11)
    = map Ok [0; 1; 1; 2; 3; 5; 8; 13; 21; 34; 55]
  ∧ map FibonacciOptimized.fibonacci (seqZ 0 11)
    = map Ok [0; 1; 1; 2; 3; 5; 8; 13; 21; 34; 55]
  ∧ FibonacciBaseline.sum_loop 10 = Ok 88
  ∧ FibonacciOptimized.sum_loop 10 = Ok 88
  ∧ FibonacciBaseline.sum_loop 11 = Ok 143
  ∧ FibonacciOptimized.sum_loop 11 = Ok 143.
Proof. repeat split; reflexivity. Qed.

(** C6 as stated fails: the running sum over i = 0..9 is not 143. *)
Lemma fibonacci_sum_to_9_is_not_143 :
  FibonacciBaseline.sum_loop 10 ≠ Ok 143 ∧ FibonacciOptimized.sum_loop 10 ≠ Ok 143.
Proof. split; vm_compute; discriminate. Qed.

(** C7, at the failing input. With five elements the unrolled checksum of
    the sort kernel drops the fifth: the remainder branch adds it to
    [checksum], which is then overwritten by the four partial sums.  The
    plain reduction keeps it. *)
Theorem sort_checksum_drops_remainder :
  BubbleSortOptimized.checksum_loop 5 (Some [0; 0; 0; 0; 1]) = Ok 0
  ∧ BubbleSortBaseline.checksum_loop 5 (Some [0; 0; 0; 0; 1]) = Ok 5.
Proof. split; reflexivity. Qed.

(** C8, at the failing input. When [malloc] returns the null pointer the
    three baseline entry points store through it: nothing checks the
    pointer before its first use. *)
Theorem baseline_mains_use_null_buffer :
  BubbleSortBaseline.main None = Fault NullPointer
  ∧ StringSearchBaseline.main None = Fault NullPointer
  ∧ ∀ (T : Type) (zero : T) (add div : T → T → T) (of_int : Z → T),
      ArraySumBaseline.main zero add div of_int None = Fault NullPointer.
Proof.
  split; [| split].
  - apply bubble_sort_baseline_run_null. unfold BubbleSortBaseline.N. lia.
  - apply string_search_baseline_run_null.
  - intros T zero add div of_int. apply array_sum_baseline_run_null.
    unfold ArraySumBaseline.N. lia.
Qed.

(** C9. If the pattern is empty or longer than the text, [optimized_search]
    returns 0. *)
Theorem optimized_search_rejects (text pattern : list ascii) :
  strlen pattern = 0 ∨ strlen text < strlen pattern →
  StringSearchOptimized.optimized_search text pattern = Ok 0.
Proof.
  intros H. unfold StringSearchOptimized.optimized_search. cbn zeta.
  destruct (Z.eqb_spec (strlen pattern) 0) as [? | Hne]; [done |].
  destruct (Z.ltb_spec (strlen text) (strlen pattern)) as [? | Hge]; [done |].
  lia.
Qed.

Lemma optimized_search_rejects_witness :
  (strlen (c_string "ABC") = 0 ∨ strlen (c_string "AB") < strlen (c_string "ABC"))
  ∧ StringSearchOptimized.optimized_search (c_string "AB") (c_string "ABC") = Ok 0.
Proof.
  assert (H : strlen (c_string "ABC") = 0 ∨ strlen (c_string "AB") < strlen (c_string "ABC")).
  { right. vm_compute. reflexivity. }
  split; [exact H |]. exact (optimized_search_rejects (c_string "AB") (c_string "ABC") H).
Defined.

(** C10. Every value that the generator of the sort kernel produces lies in
    [[0, 32768)]; on the benchmark input (seed 12345, 10000 elements, from
    either generator loop) every access of [optimized_sort] to its table of
    32768 counters is in range, so the sort returns. *)
Theorem benchmark_input_in_domain (buf : list Z) :
  len buf = 10000 →
  (∀ seed, 0 ≤ Z.land (Z.shiftr seed 16) 32767 < 32768)
  ∧ ∃ arr,
      BubbleSortBaseline.generate BubbleSortBaseline.N (Some buf) = Ok (Some arr)
      ∧ BubbleSortOptimized.generate BubbleSortOptimized.N (Some buf) = Ok (Some arr)
      ∧ len arr = 10000
      ∧ Forall (in_domain BubbleSortOptimized.MAX_VAL) arr
      ∧ ∃ out, BubbleSortOptimized.optimized_sort arr BubbleSortOptimized.N = Ok out.
Proof.
  intros Hlen. split.
  { intros seed. change 32767 with (Z.ones 15). rewrite Z.land_ones by lia.
    apply Z.mod_pos_bound. lia. }
  exists (lcg_values 12345 (Z.to_nat 10000)).
  split; [by apply baseline_generate_spec |].
  split; [by apply optimized_generate_spec |].
  assert (Hlen' : len (lcg_values 12345 (Z.to_nat 10000)) = 10000).
  { unfold len. rewrite lcg_values_length. lia. }
  split; [exact Hlen' |].
  split; [apply lcg_values_in_domain |].
  pose proof (optimized_sort_with_spec 32768 (lcg_values 12345 (Z.to_nat 10000))
                ltac:(lia)) as Hwp.
  rewrite Hlen' in Hwp.
  unfold BubbleSortOptimized.optimized_sort, BubbleSortOptimized.MAX_VAL, BubbleSortOptimized.N.
  destruct (BubbleSortOptimized.optimized_sort_with _ _ _ _) as [out | f]; cbn [wp] in Hwp.
  - eauto.
  - destruct Hwp as (v & Hv & Hout & _). exfalso. apply Hout.
    by apply (proj1 (Forall_forall _ _) (lcg_values_in_domain 12345 (Z.to_nat 10000))).
Qed.

Lemma benchmark_input_in_domain_witness :
  len zero_buffer = 10000
  ∧ (∀ seed, 0 ≤ Z.land (Z.shiftr seed 16) 32767 < 32768)
  ∧ ∃ arr,
      BubbleSortBaseline.generate BubbleSortBaseline.N (Some zero_buffer) = Ok (Some arr)
      ∧ BubbleSortOptimized.generate BubbleSortOptimized.N (Some zero_buffer) = Ok (Some arr)
      ∧ len arr = 10000
      ∧ Forall (in_domain BubbleSortOptimized.MAX_VAL) arr
      ∧ ∃ out, BubbleSortOptimized.optimized_sort arr BubbleSortOptimized.N = Ok out.
Proof.
  assert (H : len zero_buffer = 10000)
    by (unfold zero_buffer, len; rewrite length_replicate; lia).
  split; [exact H |]. exact (benchmark_input_in_domain zero_buffer H).
Defined.

(** * Further properties of the kernels *)

(** ** Sort kernel *)

Lemma sorted_perm_unique (l1 l2 : list Z) :
  StronglySorted Z.le l1 → StronglySorted Z.le l2 → l1 ≡ₚ l2 → l1 = l2.
Proof. apply StronglySorted_unique_strong. intros x1 x2 _ _ H1 H2. lia. Qed.

Lemma optimized_sort_with_ok max_val (arr : list Z) :
  0 ≤ max_val → Forall (in_domain max_val) arr →
  BubbleSortOptimized.optimized_sort_with max_val
    (BubbleSortOptimized.calloc max_val) arr (len arr)
  = Ok (emitted (occ arr) (Z.to_nat max_val)).
Proof.
  intros Hmax Hdom. pose proof (optimized_sort_with_spec max_val arr Hmax) as Hwp.
  destruct (BubbleSortOptimized.optimized_sort_with _ _ _ _) as [out | f]; cbn [wp] in Hwp.
  - destruct Hwp as [_ ->]. done.
  - destruct Hwp as (v & Hv & Hout & _). exfalso. apply Hout.
    by apply (proj1 (Forall_forall _ _) Hdom).
Qed.

Lemma sorts_same_output (arr : list Z) :
  Forall (in_domain 32768) arr →
  ∃ out, BubbleSortBaseline.bubble_sort arr (len arr) = Ok out
         ∧ BubbleSortOptimized.optimized_sort arr (len arr) = Ok out
         ∧ len out = len arr.
Proof.
  intros Hdom. destruct (bubble_sort_spec arr) as (out & Hout & Hsorted & Hperm).
  exists out. split; [done |]. split.
  - unfold BubbleSortOptimized.optimized_sort, BubbleSortOptimized.MAX_VAL.
    rewrite optimized_sort_with_ok by (done || lia). f_equal.
    apply sorted_perm_unique; [apply emitted_sorted | done |].
    rewrite Hperm. by apply emitted_perm.
  - unfold len. by rewrite (Permutation_length Hperm).
Qed.

(** X1. The exchange sort needs no assumption on the values: it returns a
    non-decreasing permutation of any array of [int]. *)
Theorem bubble_sort_sorts_any_array (arr : list Z) :
  ∃ out, BubbleSortBaseline.bubble_sort arr (len arr) = Ok out
         ∧ Sorted Z.le out ∧ Permutation arr out ∧ len out = len arr.
Proof.
  destruct (bubble_sort_spec arr) as (out & Hout & Hsorted & Hperm).
  exists out. split; [done |]. split; [by apply StronglySorted_Sorted |].
  split; [by symmetry |]. unfold len. by rewrite (Permutation_length Hperm).
Qed.

(** X2. On arrays inside the domain the two sorts return the very same array. *)
Theorem sorts_agree (arr : list Z) :
  Forall (in_domain 32768) arr →
  ∃ out, BubbleSortBaseline.bubble_sort arr (len arr) = Ok out
         ∧ BubbleSortOptimized.optimized_sort arr (len arr) = Ok out.
Proof.
  intros Hdom. destruct (sorts_same_output arr Hdom) as (out & H1 & H2 & _). eauto.
Qed.

Lemma sorts_agree_witness :
  Forall (in_domain 32768) [5; 3; 5; 0; 32767]
  ∧ ∃ out, BubbleSortBaseline.bubble_sort [5; 3; 5; 0; 32767] (len [5; 3; 5; 0; 32767]) = Ok out
           ∧ BubbleSortOptimized.optimized_sort [5; 3; 5; 0; 32767]
               (len [5; 3; 5; 0; 32767]) = Ok out.
Proof.
  assert (H : Forall (in_domain 32768) [5; 3; 5; 0; 32767]).
  { repeat constructor; unfold in_domain; lia. }
  split; [exact H |]. exact (sorts_agree [5; 3; 5; 0; 32767] H).
Defined.

(** X3. The counting sort returns exactly when every value is in
    [[0, 32768)]. *)
Theorem optimized_sort_returns_iff_in_domain (arr : list Z) :
  (∃ out, BubbleSortOptimized.optimized_sort arr (len arr) = Ok out)
  ↔ Forall (in_domain 32768) arr.
Proof.
  unfold BubbleSortOptimized.optimized_sort, BubbleSortOptimized.MAX_VAL. split.
  - intros [out Hout].
    pose proof (optimized_sort_with_spec 32768 arr ltac:(lia)) as Hwp.
    rewrite Hout in Hwp. cbn [wp] in Hwp. tauto.
  - intros Hdom. rewrite optimized_sort_with_ok by (done || lia). eauto.
Qed.

(** The counting sort writes each value as often as it occurs, in ascending
    order of the values. *)
Theorem optimized_sort_output (arr : list Z) :
  Forall (in_domain 32768) arr →
  BubbleSortOptimized.optimized_sort arr (len arr) = Ok (emitted (occ arr) (Z.to_nat 32768)).
Proof.
  intros Hdom. unfold BubbleSortOptimized.optimized_sort, BubbleSortOptimized.MAX_VAL.
  rewrite optimized_sort_with_ok by (done || lia). done.
Qed.

Lemma optimized_sort_output_witness :
  Forall (in_domain 32768) [2; 0; 2]
  ∧ BubbleSortOptimized.optimized_sort [2; 0; 2] (len [2; 0; 2])
    = Ok (emitted (occ [2; 0; 2]) (Z.to_nat 32768)).
Proof.
  assert (H : Forall (in_domain 32768) [2; 0; 2]).
  { repeat constructor; unfold in_domain; lia. }
  split; [exact H |]. exact (optimized_sort_output [2; 0; 2] H).
Defined.

(** X4. When [calloc] returns the null pointer the counting sort uses it all the
    same: nothing in [optimized_sort] checks the table pointer. *)
Theorem optimized_sort_uses_null_table (arr : list Z) :
  BubbleSortOptimized.optimized_sort_with BubbleSortOptimized.MAX_VAL None arr (len arr)
  = Fault NullPointer.
Proof.
  unfold BubbleSortOptimized.optimized_sort_with, BubbleSortOptimized.MAX_VAL.
  destruct arr as [| v arr].
  - rewrite for_lt_empty by (unfold len; simpl; lia). cbn [bind].
    rewrite (for_lt_first_fault _ _ _ _ _ NullPointer) by done. reflexivity.
  - rewrite (for_lt_first_fault _ _ _ _ _ NullPointer);
      [reflexivity | unfold len; simpl; lia | reflexivity].
Qed.

(** X5. The two generator loops fill the buffer with the same values for every
    element count, a multiple of the unroll factor or not, and every value
    lies in [[0, 32768)]. *)
Theorem generators_agree (n : Z) (buf : list Z) :
  len buf = n →
  ∃ arr, BubbleSortBaseline.generate n (Some buf) = Ok (Some arr)
         ∧ BubbleSortOptimized.generate n (Some buf) = Ok (Some arr)
         ∧ len arr = n ∧ Forall (in_domain 32768) arr.
Proof.
  intros Hlen. pose proof (len_nonneg buf).
  exists (lcg_values 12345 (Z.to_nat n)).
  split; [by apply baseline_generate_spec |].
  split; [by apply optimized_generate_spec |].
  split; [unfold len; rewrite lcg_values_length; lia | apply lcg_values_in_domain].
Qed.

Lemma generators_agree_witness :
  len [7; 7; 7; 7; 7; 7] = 6
  ∧ ∃ arr, BubbleSortBaseline.generate 6 (Some [7; 7; 7; 7; 7; 7]) = Ok (Some arr)
           ∧ BubbleSortOptimized.generate 6 (Some [7; 7; 7; 7; 7; 7]) = Ok (Some arr)
           ∧ len arr = 6 ∧ Forall (in_domain 32768) arr.
Proof.
  assert (H : len [7; 7; 7; 7; 7; 7] = 6) by reflexivity.
  split; [exact H |]. exact (generators_agree 6 [7; 7; 7; 7; 7; 7] H).
Defined.

(** The unrolled checksum equals the plain one when the element count is a
    multiple of four. *)
Theorem checksums_agree_on_multiples_of_4 (n : Z) (a : list Z) :
  0 ≤ n ≤ len a → n mod 4 = 0 →
  ∃ c, BubbleSortBaseline.checksum_loop n (Some a) = Ok c
       ∧ BubbleSortOptimized.checksum_loop n (Some a) = Ok c.
Proof.
  intros Hn Hmod. exists (weighted_sum a (Z.to_nat n)).
  split; [by apply baseline_checksum_spec |].
  rewrite optimized_checksum_spec by done. do 2 f_equal.
  pose proof (Z.div_mod n 4 ltac:(lia)). lia.
Qed.

Lemma checksums_agree_on_multiples_of_4_witness :
  0 ≤ 4 ≤ len [1; 2; 3; 4; 5] ∧ 4 mod 4 = 0
  ∧ ∃ c, BubbleSortBaseline.checksum_loop 4 (Some [1; 2; 3; 4; 5]) = Ok c
         ∧ BubbleSortOptimized.checksum_loop 4 (Some [1; 2; 3; 4; 5]) = Ok c.
Proof.
  assert (H1 : 0 ≤ 4 ≤ len [1; 2; 3; 4; 5]) by (vm_compute; split; discriminate).
  assert (H2 : 4 mod 4 = 0) by reflexivity.
  split; [exact H1 |]. split; [exact H2 |].
  exact (checksums_agree_on_multiples_of_4 4 [1; 2; 3; 4; 5] H1 H2).
Defined.

(** X6. For any element count the unrolled checksum is the plain checksum of the
    leading complete groups of four: the elements of the last, incomplete
    group never reach the result. *)
Theorem optimized_checksum_covers_complete_groups (n : Z) (a : list Z) :
  0 ≤ n ≤ len a →
  BubbleSortOptimized.checksum_loop n (Some a)
  = BubbleSortBaseline.checksum_loop (4 * (n / 4)) (Some a).
Proof.
  intros Hn. rewrite optimized_checksum_spec by done.
  rewrite baseline_checksum_spec; [done |].
  pose proof (Z.div_mod n 4 ltac:(lia)). pose proof (Z.mod_pos_bound n 4 ltac:(lia)). lia.
Qed.

Lemma optimized_checksum_covers_complete_groups_witness :
  0 ≤ 5 ≤ len [1; 2; 3; 4; 5]
  ∧ BubbleSortOptimized.checksum_loop 5 (Some [1; 2; 3; 4; 5])
    = BubbleSortBaseline.checksum_loop (4 * (5 / 4)) (Some [1; 2; 3; 4; 5]).
Proof.
  assert (H : 0 ≤ 5 ≤ len [1; 2; 3; 4; 5]) by (vm_compute; split; discriminate).
  split; [exact H |]. exact (optimized_checksum_covers_complete_groups 5 [1; 2; 3; 4; 5] H).
Defined.

(** X7. End to end: on a buffer of [n] cells, [n] a multiple of four (as the
    compiled-in 10000 is), both sort programs exit with status 0 and print
    the same checksum. *)
Theorem sort_programs_agree (n : Z) (buf : list Z) :
  len buf = n → n mod 4 = 0 →
  ∃ checksum,
    BubbleSortBaseline.run n (Some buf) = Ok (0, Some checksum)
    ∧ BubbleSortOptimized.run n (Some buf) = Ok (0, Some checksum).
Proof.
  intros Hlen Hmod. pose proof (len_nonneg buf) as Hn. rewrite Hlen in Hn.
  set (arr := lcg_values 12345 (Z.to_nat n)).
  assert (Harr : len arr = n) by (unfold len, arr; rewrite lcg_values_length; lia).
  destruct (sorts_same_output arr (lcg_values_in_domain _ _)) as (out & H1 & H2 & Hout).
  rewrite Harr in H1, H2, Hout.
  exists (weighted_sum out (Z.to_nat n)).
  unfold BubbleSortBaseline.run, BubbleSortOptimized.run. cbn zeta.
  rewrite baseline_generate_spec, optimized_generate_spec by done.
  cbn [bind with_buffer]. fold arr. rewrite H1, H2. cbn [bind].
  rewrite baseline_checksum_spec, optimized_checksum_spec by lia. cbn [bind].
  split; [done |]. do 4 f_equal. pose proof (Z.div_mod n 4 ltac:(lia)). lia.
Qed.

Lemma sort_programs_agree_witness :
  len zero_buffer = 10000 ∧ 10000 mod 4 = 0
  ∧ ∃ checksum,
      BubbleSortBaseline.run 10000 (Some zero_buffer) = Ok (0, Some checksum)
      ∧ BubbleSortOptimized.run 10000 (Some zero_buffer) = Ok (0, Some checksum).
Proof.
  assert (H1 : len zero_buffer = 10000)
    by (unfold zero_buffer, len; rewrite length_replicate; lia).
  assert (H2 : 10000 mod 4 = 0) by reflexivity.
  split; [exact H1 |]. split; [exact H2 |].
  exact (sort_programs_agree 10000 zero_buffer H1 H2).
Defined.

(** ** Search kernel *)

(** X8. The naive search returns the number of alignments at which the pattern
    occurs, whatever the text and the pattern. *)
Theorem naive_search_counts_occurrences (text pattern : list ascii) :
  StringSearchBaseline.naive_search text pattern = Ok (occurrences text pattern)
  ∧ 0 ≤ occurrences text pattern
  ∧ occurrences text pattern ≤ Z.max 0 (strlen text - strlen pattern + 1).
Proof.
  split; [apply naive_search_spec |]. unfold occurrences.
  split; [apply occurrences_below_nonneg |].
  pose proof (occurrences_below_le text pattern
                (Z.to_nat (strlen text - strlen pattern + 1))). lia.
Qed.

(** X9. On the empty pattern the naive search counts every alignment, the one
    at the terminator included. *)
Theorem naive_search_empty_pattern (text pattern : list ascii) :
  strlen pattern = 0 →
  StringSearchBaseline.naive_search text pattern = Ok (strlen text + 1).
Proof.
  intros Hm. rewrite naive_search_spec. unfold occurrences.
  rewrite occurrences_below_empty_pattern by done.
  pose proof (strlen_nonneg text). f_equal. lia.
Qed.

Lemma naive_search_empty_pattern_witness :
  strlen (c_string "") = 0
  ∧ StringSearchBaseline.naive_search (c_string "ABAB") (c_string "")
    = Ok (strlen (c_string "ABAB") + 1).
Proof.
  assert (H : strlen (c_string "") = 0) by reflexivity.
  split; [exact H |]. exact (naive_search_empty_pattern (c_string "ABAB") (c_string "") H).
Defined.



(** X11. The shift table of the optimized search: 256 entries; the entry of a
    byte is [m] when the byte does not occur among the first [m - 1] bytes
    of the pattern and [m - 1 - k] for its last position [k] among them
    otherwise, so every shift is between 1 and [m]. *)
Theorem bad_char_table_built (pattern : list ascii) :
  1 ≤ strlen pattern →
  ∃ bad_char,
    StringSearchOptimized.build_bad_char pattern (strlen pattern) = Ok bad_char
    ∧ length bad_char = 256%nat
    ∧ ∀ c, ∃ s, load bad_char (uchar c) = Ok s
                ∧ bad_char_entry pattern (strlen pattern) (strlen pattern - 1) c s
                ∧ 1 ≤ s ≤ strlen pattern.
Proof.
  intros Hm. destruct (build_bad_char_spec pattern _ Hm) as (bad_char & Hbuild & Hlen & Htab).
  exists bad_char. split; [done |]. split; [done |]. intros c.
  destruct (Htab c) as (s & Hs & Hentry). exists s.
  pose proof (uchar_range c).
  split; [apply load_ok; [lia | done] |]. split; [done |].
  eapply bad_char_entry_bounds; [| exact Hentry]. lia.
Qed.

Lemma bad_char_table_built_witness :
  1 ≤ strlen (c_string "ABCDABD")
  ∧ ∃ bad_char,
      StringSearchOptimized.build_bad_char (c_string "ABCDABD") (strlen (c_string "ABCDABD"))
        = Ok bad_char
      ∧ length bad_char = 256%nat
      ∧ ∀ c, ∃ s, load bad_char (uchar c) = Ok s
                  ∧ bad_char_entry (c_string "ABCDABD") (strlen (c_string "ABCDABD"))
                      (strlen (c_string "ABCDABD") - 1) c s
                  ∧ 1 ≤ s ≤ strlen (c_string "ABCDABD").
Proof.
  assert (H : 1 ≤ strlen (c_string "ABCDABD")) by (vm_compute; discriminate).
  split; [exact H |]. exact (bad_char_table_built (c_string "ABCDABD") H).
Defined.

(** X12. Where the sixteen bytes of both loads lie inside the objects, the
    vector test of the fast path says exactly whether the pattern occurs at
    the alignment: the lanes behind the pattern, whatever they read, do not
    influence it. *)
Theorem simd_test_decides_occurrence (text pattern : list ascii) (i : Z) :
  strlen pattern ≤ 16 → 0 ≤ i → i + 16 ≤ len text → 16 ≤ len pattern →
  ∃ text_vec pattern_vec,
    StringSearchOptimized._mm_loadu_si128 text i = Ok text_vec
    ∧ StringSearchOptimized._mm_loadu_si128 pattern 0 = Ok pattern_vec
    ∧ (Z.land (StringSearchOptimized._mm_movemask_epi8
                 (StringSearchOptimized._mm_cmpeq_epi8 text_vec pattern_vec))
              (Z.shiftl 1 (strlen pattern) - 1) =? Z.shiftl 1 (strlen pattern) - 1)
      = occurs_at text pattern i.
Proof. apply simd_test_spec. Qed.

Lemma simd_test_decides_occurrence_witness :
  strlen (char_array 16 "ABD") ≤ 16 ∧ 0 ≤ 2
  ∧ 2 + 16 ≤ len (char_array 18 "ABABD") ∧ 16 ≤ len (char_array 16 "ABD")
  ∧ ∃ text_vec pattern_vec,
      StringSearchOptimized._mm_loadu_si128 (char_array 18 "ABABD") 2 = Ok text_vec
      ∧ StringSearchOptimized._mm_loadu_si128 (char_array 16 "ABD") 0 = Ok pattern_vec
      ∧ (Z.land (StringSearchOptimized._mm_movemask_epi8
                   (StringSearchOptimized._mm_cmpeq_epi8 text_vec pattern_vec))
                (Z.shiftl 1 (strlen (char_array 16 "ABD")) - 1)
           =? Z.shiftl 1 (strlen (char_array 16 "ABD")) - 1)
        = occurs_at (char_array 18 "ABABD") (char_array 16 "ABD") 2.
Proof.
  assert (H1 : strlen (char_array 16 "ABD") ≤ 16) by (vm_compute; discriminate).
  assert (H2 : 0 ≤ 2) by lia.
  assert (H3 : 2 + 16 ≤ len (char_array 18 "ABABD")) by (vm_compute; discriminate).
  assert (H4 : 16 ≤ len (char_array 16 "ABD")) by (vm_compute; discriminate).
  split; [exact H1 |]. split; [exact H2 |]. split; [exact H3 |]. split; [exact H4 |].
  exact (simd_test_decides_occurrence (char_array 18 "ABABD") (char_array 16 "ABD") 2
           H1 H2 H3 H4).
Defined.

(** X13. After a mismatch the shift taken from the table is at least 1 and skips
    no alignment at which the pattern occurs. *)
Theorem bad_char_shift_is_safe (pattern : list ascii) :
  1 ≤ strlen pattern →
  ∃ bad_char,
    StringSearchOptimized.build_bad_char pattern (strlen pattern) = Ok bad_char
    ∧ ∀ text i,
        0 ≤ i → occurs_at text pattern i = false →
        ∃ s, StringSearchOptimized.bad_char_shift bad_char text i (strlen pattern) = Ok s
             ∧ 1 ≤ s ≤ strlen pattern
             ∧ ∀ i', i ≤ i' < i + s → occurs_at text pattern i' = false.
Proof.
  intros Hm.
  destruct (build_bad_char_spec pattern _ Hm) as (bad_char & Hbuild & Htab).
  exists bad_char. split; [done |]. intros text i Hi Hmiss.
  by apply bad_char_shift_spec.
Qed.

Lemma bad_char_shift_is_safe_witness :
  1 ≤ strlen (c_string "ABCDABD")
  ∧ ∃ bad_char,
      StringSearchOptimized.build_bad_char (c_string "ABCDABD") (strlen (c_string "ABCDABD"))
        = Ok bad_char
      ∧ ∀ text i,
          0 ≤ i → occurs_at text (c_string "ABCDABD") i = false →
          ∃ s, StringSearchOptimized.bad_char_shift bad_char text i
                 (strlen (c_string "ABCDABD")) = Ok s
               ∧ 1 ≤ s ≤ strlen (c_string "ABCDABD")
               ∧ ∀ i', i ≤ i' < i + s → occurs_at text (c_string "ABCDABD") i' = false.
Proof.
  assert (H : 1 ≤ strlen (c_string "ABCDABD")) by (vm_compute; discriminate).
  split; [exact H |]. exact (bad_char_shift_is_safe (c_string "ABCDABD") H).
Defined.

Lemma uchar_char_of_int z : 0 ≤ z < 256 → uchar (char_of_int z) = z.
Proof.
  intros Hz. unfold uchar, char_of_int. rewrite Z.mod_small by done.
  rewrite N_ascii_embedding by lia. lia.
Qed.

Lemma lcg_next_range seed : 0 ≤ lcg_next seed < 2 ^ 32.
Proof. unfold lcg_next. apply Z.mod_pos_bound. lia. Qed.

Lemma generated_letter seed :
  0 ≤ seed → letter (char_of_int (65 + Z.rem (Z.shiftr seed 16) 8)).
Proof.
  intros Hseed. unfold letter.
  assert (0 ≤ Z.shiftr seed 16) by (apply Z.shiftr_nonneg; lia).
  rewrite Z.rem_mod_nonneg by lia.
  pose proof (Z.mod_pos_bound (Z.shiftr seed 16) 8 ltac:(lia)).
  rewrite uchar_char_of_int by lia. lia.
Qed.

Lemma letter_not_nul c : letter c → c ≠ NUL.
Proof. intros Hc ->. unfold letter in Hc. vm_compute in Hc. destruct Hc as [Hc _]. by apply Hc. Qed.

Lemma char_at_insert (s : list ascii) (i p : Z) c :
  0 ≤ i < len s → 0 ≤ p →
  char_at (<[Z.to_nat i := c]> s) p = if decide (p = i) then c else char_at s p.
Proof.
  intros Hi Hp. unfold char_at. rewrite !nth_lookup.
  destruct (decide (p = i)) as [-> | Hne].
  - rewrite list_lookup_insert_eq by (unfold len in Hi; lia). done.
  - rewrite list_lookup_insert_ne by lia. done.
Qed.

Lemma strlen_first_nul (s : list ascii) : ∀ k,
  0 ≤ k → (∀ p, 0 ≤ p < k → char_at s p ≠ NUL) → char_at s k = NUL → strlen s = k.
Proof.
  induction s as [| c s IH]; intros k Hk Hbefore Hat.
  - destruct (decide (k = 0)) as [-> | Hne]; [done |].
    exfalso. apply (Hbefore 0); [lia |]. unfold char_at. by destruct (Z.to_nat 0).
  - cbn [strlen]. destruct (Ascii.eqb_spec c NUL) as [-> | Hc].
    + destruct (decide (k = 0)) as [-> | Hne]; [done |].
      exfalso. by apply (Hbefore 0); [lia |].
    + destruct (decide (k = 0)) as [-> | Hne]; [done |].
      rewrite (IH (k - 1)); [lia | lia | |].
      * intros p Hp. specialize (Hbefore (p + 1) ltac:(lia)). unfold char_at in *.
        replace (Z.to_nat (p + 1)) with (Datatypes.S (Z.to_nat p)) in Hbefore by lia. done.
      * unfold char_at in *.
        replace (Z.to_nat k) with (Datatypes.S (Z.to_nat (k - 1))) in Hat by lia. done.
Qed.

(** The text generator fills a buffer of [text_len + 1] bytes with a C
    string of exactly [text_len] letters ['A'] to ['H']. *)
Lemma fill_text_spec text_len buf :
  0 ≤ text_len → len buf = text_len + 1 →
  ∃ text, StringSearchBaseline.fill_text text_len (Some buf) = Ok (Some text)
          ∧ len text = text_len + 1
          ∧ strlen text = text_len
          ∧ ∀ p, 0 ≤ p < text_len → letter (char_at text p).
Proof.
  intros Hn Hlen. unfold StringSearchBaseline.fill_text.
  lazymatch goal with
  | |- ∃ _, bind ?l _ = _ ∧ _ => assert (Hloop : wp l (text_inv text_len text_len) no_fault)
  end.
  { apply wp_for_lt_1; [done | |].
    - exists buf. split; [done |]. split; [done |]. split; [lia |]. intros p Hp. lia.
    - intros i [text seed] Hi (buf' & -> & Hlen' & Hseed & Hletters).
      cbn beta iota zeta. cbn [pstore]. rewrite store_ok by lia. cbn [bind wp].
      eexists. split; [done |]. split; [by rewrite len_insert |].
      split; [apply lcg_next_range |].
      intros p Hp. rewrite char_at_insert by lia.
      destruct (decide (p = i)) as [-> | Hne].
      + apply generated_letter. pose proof (lcg_next_range seed). lia.
      + apply Hletters. lia. }
  destruct (wp_ok_elim _ _ Hloop) as ([text seed] & -> & buf' & -> & Hlen' & _ & Hletters).
  cbn [bind pstore]. rewrite store_ok by lia. cbn [bind].
  eexists. split; [done |]. split; [by rewrite len_insert |].
  assert (Hchars : ∀ p, 0 ≤ p < text_len →
            letter (char_at (<[Z.to_nat text_len := NUL]> buf') p)).
  { intros p Hp. rewrite char_at_insert by lia.
    destruct (decide (p = text_len)); [lia | by apply Hletters]. }
  split; [| done].
  apply strlen_first_nul; [done | |].
  - intros p Hp. apply letter_not_nul. by apply Hchars.
  - rewrite char_at_insert by lia. by destruct (decide (text_len = text_len)).
Qed.

(** X14. The generated text is a C string of [text_len] letters. *)
Theorem generated_text_is_c_string (text_len : Z) (buf : list ascii) :
  0 ≤ text_len → len buf = text_len + 1 →
  ∃ text, StringSearchBaseline.fill_text text_len (Some buf) = Ok (Some text)
          ∧ StringSearchOptimized.fill_text text_len (Some buf) = Ok (Some text)
          ∧ strlen text = text_len
          ∧ ∀ p, 0 ≤ p < text_len → letter (char_at text p).
Proof.
  intros Hn Hlen. destruct (fill_text_spec text_len buf Hn Hlen) as (text & H1 & _ & H2 & H3).
  exists text. split; [done |]. split; [exact H1 |]. done.
Qed.

Lemma generated_text_is_c_string_witness :
  0 ≤ 3 ∧ len (c_string "zzzz") = 3 + 1
  ∧ ∃ text, StringSearchBaseline.fill_text 3 (Some (c_string "zzzz")) = Ok (Some text)
            ∧ StringSearchOptimized.fill_text 3 (Some (c_string "zzzz")) = Ok (Some text)
            ∧ strlen text = 3
            ∧ ∀ p, 0 ≤ p < 3 → letter (char_at text p).
Proof.
  assert (H1 : 0 ≤ 3) by lia.
  assert (H2 : len (c_string "zzzz") = 3 + 1) by reflexivity.
  split; [exact H1 |]. split; [exact H2 |].
  exact (generated_text_is_c_string 3 (c_string "zzzz") H1 H2).
Defined.



(** ** Fibonacci kernel *)

Lemma fib_succ_le k : fib k ≤ fib (Datatypes.S k).
Proof.
  destruct k as [| k]; [simpl; lia |].
  change (fib (Datatypes.S (Datatypes.S k))) with (fib (Datatypes.S k) + fib k).
  pose proof (fib_nonneg k). lia.
Qed.

Lemma fib_mono k k' : (k ≤ k')%nat → fib k ≤ fib k'.
Proof.
  induction 1 as [| k' _ IH]; [lia |]. pose proof (fib_succ_le k'). lia.
Qed.

Lemma sum_loop_spec (fibonacci : Z → result Z) bound :
  (∀ n, 0 ≤ n → fibonacci n = Ok (fib (Z.to_nat n))) →
  0 ≤ bound →
  for_lt 0 bound 1 (fun i sum => f <- fibonacci i ;; Ok (sum + f)) 0
  = Ok (fib (Z.to_nat (bound + 1)) - 1).
Proof.
  intros Hfib Hbound.
  pose (I := fun (i sum : Z) => sum = fib (Z.to_nat (i + 1)) - 1).
  lazymatch goal with
  | |- ?l = _ => assert (Hloop : wp l (I bound) no_fault)
  end.
  { apply wp_for_lt_1; [done | reflexivity |].
    intros i sum Hi ->. cbn beta. rewrite Hfib by lia. cbn [bind wp]. unfold I.
    rewrite (fib_step (i + 1 + 1)) by lia.
    replace (i + 1 + 1 - 1) with (i + 1) by lia. replace (i + 1 + 1 - 2) with i by lia. lia. }
  destruct (wp_ok_elim _ _ Hloop) as (sum & -> & ->). done.
Qed.

Lemma fib_92 : fib (Z.to_nat 92) = 7540113804746346429.
Proof.
  assert (Hval : FibonacciOptimized.fibonacci 92 = Ok 7540113804746346429)
    by reflexivity.
  rewrite optimized_fibonacci_spec in Hval.
  destruct (Z.ltb_spec 92 0); [lia |]. exact (Ok_inj _ _ Hval).
Qed.

(** Up to index 92 the Fibonacci numbers fit a 64-bit [long long]. *)
Lemma fib_fits_long_long n : 0 ≤ n ≤ 92 → 0 ≤ fib (Z.to_nat n) ≤ 2 ^ 63 - 1.
Proof.
  intros Hn. split; [apply fib_nonneg |].
  pose proof (fib_mono (Z.to_nat n) (Z.to_nat 92) ltac:(lia)) as Hle.
  rewrite fib_92 in Hle. lia.
Qed.

(** X16. For every argument up to 92, the range in which the values fit a
    [long long], the recursive and the iterative [fibonacci] return the same
    value: the Fibonacci number for [n >= 0], which lies within the 64-bit
    range, and [n] itself for a negative [n]. *)
Theorem fibonacci_versions_agree (n : Z) :
  n ≤ 92 →
  FibonacciBaseline.fibonacci n = FibonacciOptimized.fibonacci n
  ∧ FibonacciOptimized.fibonacci n = Ok (if n <? 0 then n else fib (Z.to_nat n))
  ∧ (0 ≤ n → 0 ≤ fib (Z.to_nat n) ≤ 2 ^ 63 - 1).
Proof.
  intros Hn. rewrite baseline_fibonacci_spec, optimized_fibonacci_spec.
  split; [done |]. split; [done |]. intros Hn0. apply fib_fits_long_long. lia.
Qed.

Lemma fibonacci_versions_agree_witness :
  10 ≤ 92
  ∧ FibonacciBaseline.fibonacci 10 = FibonacciOptimized.fibonacci 10
  ∧ FibonacciOptimized.fibonacci 10 = Ok (if 10 <? 0 then 10 else fib (Z.to_nat 10))
  ∧ (0 ≤ 10 → 0 ≤ fib (Z.to_nat 10) ≤ 2 ^ 63 - 1).
Proof.
  assert (H : 10 ≤ 92) by lia.
  split; [exact H |]. exact (fibonacci_versions_agree 10 H).
Defined.

Lemma sum_loops_spec (bound : Z) :
  0 ≤ bound →
  FibonacciBaseline.sum_loop bound = Ok (fib (Z.to_nat (bound + 1)) - 1)
  ∧ FibonacciOptimized.sum_loop bound = Ok (fib (Z.to_nat (bound + 1)) - 1).
Proof.
  intros Hbound. unfold FibonacciBaseline.sum_loop, FibonacciOptimized.sum_loop. split.
  - apply sum_loop_spec; [| done]. intros n Hn. rewrite baseline_fibonacci_spec.
    destruct (Z.ltb_spec n 0); [lia | done].
  - apply sum_loop_spec; [| done]. intros n Hn. rewrite optimized_fibonacci_spec.
    destruct (Z.ltb_spec n 0); [lia | done].
Qed.

(** X17. For every bound from 0 to 91, the range in which the sum fits a
    [long long], the summing loop of both programs yields the sum of the
    first [bound] Fibonacci numbers, which is one less than the Fibonacci
    number of index [bound + 1] and lies within the 64-bit range. *)
Theorem fibonacci_running_sum (bound : Z) :
  0 ≤ bound ≤ 91 →
  FibonacciBaseline.sum_loop bound = Ok (fib (Z.to_nat (bound + 1)) - 1)
  ∧ FibonacciOptimized.sum_loop bound = Ok (fib (Z.to_nat (bound + 1)) - 1)
  ∧ 0 ≤ fib (Z.to_nat (bound + 1)) - 1 ≤ 2 ^ 63 - 1.
Proof.
  intros Hbound. destruct (sum_loops_spec bound ltac:(lia)) as [Hbase Hopt].
  split; [exact Hbase |]. split; [exact Hopt |].
  pose proof (fib_fits_long_long (bound + 1) ltac:(lia)) as Hfits.
  pose proof (fib_mono 1 (Z.to_nat (bound + 1)) ltac:(lia)) as Hone.
  change (fib 1) with 1 in Hone. lia.
Qed.

Lemma fibonacci_running_sum_witness :
  0 ≤ 5 ≤ 91
  ∧ FibonacciBaseline.sum_loop 5 = Ok (fib (Z.to_nat (5 + 1)) - 1)
  ∧ FibonacciOptimized.sum_loop 5 = Ok (fib (Z.to_nat (5 + 1)) - 1)
  ∧ 0 ≤ fib (Z.to_nat (5 + 1)) - 1 ≤ 2 ^ 63 - 1.
Proof.
  assert (H : 0 ≤ 5 ≤ 91) by lia.
  split; [exact H |]. exact (fibonacci_running_sum 5 H).
Defined.

Lemma fibonacci_sums_to_40_agree :
  FibonacciBaseline.sum_loop 40 = FibonacciOptimized.sum_loop 40.
Proof.
  destruct (sum_loops_spec 40 ltac:(lia)) as [H1 H2]. rewrite H1, H2. reflexivity.
Qed.

Lemma optimized_fibonacci_sum_to_40 : FibonacciOptimized.sum_loop 40 = Ok 165580140.
Proof. reflexivity. Qed.

(** X18. Both Fibonacci programs exit with status 0 and print 165580140, the sum
    of the first forty Fibonacci numbers. *)
Theorem fibonacci_programs_agree :
  FibonacciBaseline.main = Ok (0, Some 165580140)
  ∧ FibonacciOptimized.main = Ok (0, Some 165580140).
Proof.
  unfold FibonacciBaseline.main, FibonacciOptimized.main.
  rewrite fibonacci_sums_to_40_agree, optimized_fibonacci_sum_to_40.
  split; reflexivity.
Qed.

(** X19. The results fit a 64-bit [long long] for every [n] up to 92, and for
    [n = 93] the Fibonacci number no longer does: the kernel is valid up to
    92. *)
Theorem fibonacci_fits_long_long (n : Z) :
  0 ≤ n ≤ 92 →
  (∃ v, FibonacciBaseline.fibonacci n = Ok v
        ∧ FibonacciOptimized.fibonacci n = Ok v
        ∧ 0 ≤ v ≤ 2 ^ 63 - 1)
  ∧ ∃ w, FibonacciOptimized.fibonacci 93 = Ok w ∧ 2 ^ 63 - 1 < w.
Proof.
  intros Hn. split.
  - exists (fib (Z.to_nat n)). rewrite baseline_fibonacci_spec, optimized_fibonacci_spec.
    destruct (Z.ltb_spec n 0); [lia |]. split; [done |]. split; [done |].
    split; [apply fib_nonneg |].
    assert (H92 : fib (Z.to_nat 92) = 7540113804746346429).
    { assert (Hval : FibonacciOptimized.fibonacci 92 = Ok 7540113804746346429)
        by reflexivity.
      rewrite optimized_fibonacci_spec in Hval.
      destruct (Z.ltb_spec 92 0); [lia |]. exact (Ok_inj _ _ Hval). }
    pose proof (fib_mono (Z.to_nat n) (Z.to_nat 92) ltac:(lia)). lia.
  - exists 12200160415121876738. split; [reflexivity | lia].
Qed.

Lemma fibonacci_fits_long_long_witness :
  0 ≤ 90 ≤ 92
  ∧ (∃ v, FibonacciBaseline.fibonacci 90 = Ok v
          ∧ FibonacciOptimized.fibonacci 90 = Ok v
          ∧ 0 ≤ v ≤ 2 ^ 63 - 1)
  ∧ ∃ w, FibonacciOptimized.fibonacci 93 = Ok w ∧ 2 ^ 63 - 1 < w.
Proof.
  assert (H : 0 ≤ 90 ≤ 92) by lia.
  split; [exact H |]. exact (fibonacci_fits_long_long 90 H).
Defined.

(** ** Prime kernel *)

(** X20. The baseline test returns for every [int], and returns [true] exactly
    on the primes. *)
Theorem is_prime_decides_primality (n : Z) :
  ∃ b, PrimeSieveBaseline.is_prime n = Ok b ∧ (b = true ↔ Z.prime n).
Proof. exists (primeb n). split; [apply baseline_is_prime_spec | apply primeb_true]. Qed.

(** X21. So does the optimized test, which tries the odd divisors up to the
    square root only. *)
Theorem is_prime_optimized_decides_primality (n : Z) :
  ∃ b, PrimeSieveOptimized.is_prime_optimized n = Ok b ∧ (b = true ↔ Z.prime n).
Proof. exists (primeb n). split; [apply optimized_is_prime_spec | apply primeb_true]. Qed.

(** X22. For every bound of at least 3 the two scans return the same pair: the
    number of primes below the bound and their sum. *)
Theorem prime_scans_agree (max : Z) :
  3 ≤ max →
  PrimeSieveBaseline.scan max = Ok (prime_tally (Z.to_nat (max - 2)))
  ∧ PrimeSieveOptimized.scan max = Ok (prime_tally (Z.to_nat (max - 2))).
Proof.
  intros Hmax. split; [apply baseline_scan_spec; lia | by apply optimized_scan_spec].
Qed.

Lemma prime_scans_agree_witness :
  3 ≤ 30
  ∧ PrimeSieveBaseline.scan 30 = Ok (prime_tally (Z.to_nat (30 - 2)))
  ∧ PrimeSieveOptimized.scan 30 = Ok (prime_tally (Z.to_nat (30 - 2))).
Proof.
  assert (H : 3 ≤ 30) by lia.
  split; [exact H |]. exact (prime_scans_agree 30 H).
Defined.

(** Below 3 the scans part ways: the optimized one starts from count 1 and
    sum 2 whatever the bound, the baseline finds no prime below a bound of
    at most 2. *)
Theorem prime_scans_differ_below_3 (max : Z) :
  max ≤ 2 →
  PrimeSieveBaseline.scan max = Ok (0, 0)
  ∧ PrimeSieveOptimized.scan max = Ok (1, 2).
Proof.
  intros Hmax. split.
  - unfold PrimeSieveBaseline.scan. by rewrite for_lt_empty by lia.
  - unfold PrimeSieveOptimized.scan, while_loop.
    destruct (Z.to_nat max); destruct (Z.ltb_spec 3 max); (lia || reflexivity).
Qed.

Lemma prime_scans_differ_below_3_witness :
  2 ≤ 2
  ∧ PrimeSieveBaseline.scan 2 = Ok (0, 0)
  ∧ PrimeSieveOptimized.scan 2 = Ok (1, 2).
Proof.
  assert (H : 2 ≤ 2) by lia.
  split; [exact H |]. exact (prime_scans_differ_below_3 2 H).
Defined.

(** ** Matrix kernel *)

Section MatrixExtras.
Context {T : Type} (zero : T) (add mul div : T → T → T) (of_int : Z → T).

Lemma matrix_multiply_n_agree (n : Z) (A B C C' : list T) :
  0 ≤ n → len A = n * n → len B = n * n → len C = n * n → len C' = n * n →
  ∃ out,
    MatrixMultiplyBaseline.matrix_multiply_n zero add mul n A B C = Ok out
    ∧ MatrixMultiplyOptimized.matrix_multiply_n zero add mul n A B C' = Ok out
    ∧ cells n out (fun i j => dot zero add mul n A B i j (Z.to_nat n)).
Proof.
  intros Hn HA HB HC HC'.
  destruct (baseline_matrix_multiply_spec zero add mul n A B C) as (out & Hout & Hcells);
    [done .. |].
  destruct (optimized_matrix_multiply_spec zero add mul n A B C') as (out' & Hout' & Hcells');
    [done .. |].
  assert (out' = out) as -> by (apply (cells_unique n _ _ _ Hn Hcells' Hcells)).
  exists out. done.
Qed.

(** X23. The two kernels agree for every matrix size, a multiple of the vector
    width or not, and do not depend on what the output buffer held. *)
Theorem matrix_multiply_any_size (n : Z) (A B C C' : list T) :
  0 ≤ n → len A = n * n → len B = n * n → len C = n * n → len C' = n * n →
  ∃ out,
    MatrixMultiplyBaseline.matrix_multiply_n zero add mul n A B C = Ok out
    ∧ MatrixMultiplyOptimized.matrix_multiply_n zero add mul n A B C' = Ok out
    ∧ cells n out (fun i j => dot zero add mul n A B i j (Z.to_nat n)).
Proof. apply matrix_multiply_n_agree. Qed.

Lemma load_seq (C : list T) i :
  0 ≤ i < len C → load C i = Ok (nth (Z.to_nat i) C zero).
Proof.
  intros Hi. destruct (load_in_range C i Hi) as (v & -> & Hv).
  f_equal. symmetry. by apply nth_lookup_Some.
Qed.

Lemma seq_sum_next (C : list T) i :
  0 ≤ i →
  seq_sum zero add C (Z.to_nat (i + 1)) =
    add (seq_sum zero add C (Z.to_nat i)) (nth (Z.to_nat i) C zero).
Proof.
  intros Hi. replace (Z.to_nat (i + 1)) with (Datatypes.S (Z.to_nat i)) by lia. done.
Qed.

(** The baseline reduction is the plain left-to-right sum. *)
Lemma baseline_matrix_checksum_spec count (C : list T) :
  0 ≤ count ≤ len C →
  MatrixMultiplyBaseline.checksum_loop zero add count C
  = Ok (seq_sum zero add C (Z.to_nat count)).
Proof.
  intros Hcount. unfold MatrixMultiplyBaseline.checksum_loop.
  pose (I := fun (i : Z) (checksum : T) => checksum = seq_sum zero add C (Z.to_nat i)).
  lazymatch goal with
  | |- ?l = _ => assert (Hloop : wp l (I count) no_fault)
  end.
  { apply wp_for_lt_1; [lia | done |].
    intros i checksum Hi ->. cbn beta. rewrite load_seq by lia. cbn [bind wp].
    unfold I. by rewrite seq_sum_next by lia. }
  destruct (wp_ok_elim _ _ Hloop) as (checksum & -> & ->). done.
Qed.

Section Laws.
Hypothesis add_assoc : ∀ x y z, add x (add y z) = add (add x y) z.
Hypothesis add_comm : ∀ x y, add x y = add y x.
Hypothesis add_zero_zero : add zero zero = zero.

Lemma add_interchange a b x y : add (add a x) (add b y) = add (add a b) (add x y).
Proof.
  rewrite <- !add_assoc. f_equal. rewrite !add_assoc. f_equal. apply add_comm.
Qed.

Lemma hsum_step t0 t1 t2 t3 c0 c1 c2 c3 :
  hsum add (add t0 c0, add t1 c1, add t2 c2, add t3 c3) =
    add (add (add (add (hsum add (t0, t1, t2, t3)) c0) c1) c2) c3.
Proof.
  unfold hsum.
  rewrite (add_interchange t0 t1 c0 c1).
  rewrite (add_interchange (add t0 t1) t2 (add c0 c1) c2).
  rewrite (add_interchange (add (add t0 t1) t2) t3 (add (add c0 c1) c2) c3).
  rewrite !add_assoc. reflexivity.
Qed.

(** With an associative and commutative addition the vectorised reduction,
    remainder loop included, equals the plain sum for every element
    count. *)
Lemma optimized_matrix_checksum_spec count (C : list T) :
  0 ≤ count ≤ len C →
  MatrixMultiplyOptimized.checksum_loop zero add count C
  = Ok (seq_sum zero add C (Z.to_nat count)).
Proof.
  intros Hcount. unfold MatrixMultiplyOptimized.checksum_loop. cbn zeta.
  pose (I := fun (st : Z * (T * T * T * T)) =>
               0 ≤ st.1 ≤ count ∧ hsum add st.2 = seq_sum zero add C (Z.to_nat st.1)).
  pose (V := fun (st : Z * (T * T * T * T)) => count - st.1).
  lazymatch goal with
  | |- bind ?l _ = _ => assert (Hvec : wp l I no_fault)
  end.
  { eapply wp_mono; [eapply (wp_while I V no_fault) | |].
    - intros [i [[[t0 t1] t2] t3]] [Hi Hsum] Hcond. unfold I, V in *. cbn [fst snd] in *.
      cbn beta iota in Hcond |- *. apply Z.leb_le in Hcond. split; [lia |].
      unfold MatrixMultiplyOptimized._mm256_loadu_pd.
      rewrite !load_seq by lia. cbn [bind wp fst snd MatrixMultiplyOptimized._mm256_add_pd].
      split; [| lia]. split; [lia |].
      rewrite hsum_step, Hsum.
      replace (i + 4) with (i + 1 + 1 + 1 + 1) by lia.
      rewrite !seq_sum_next by lia.
      replace (i + 1 + 1) with (i + 2) by lia. replace (i + 2 + 1) with (i + 3) by lia.
      reflexivity.
    - unfold V. cbn [fst]. lia.
    - unfold I, MatrixMultiplyOptimized._mm256_setzero_pd, hsum. cbn [fst snd].
      split; [lia |]. rewrite !add_zero_zero. reflexivity.
    - cbn beta. intros st [HI _]. exact HI.
    - auto. }
  destruct (wp_ok_elim _ _ Hvec) as ([i [[[t0 t1] t2] t3]] & -> & Hi & Hsum).
  cbn [bind fst snd] in *. unfold hsum in Hsum.
  pose (J := fun (st : Z * T) =>
               0 ≤ st.1 ≤ count ∧ st.2 = seq_sum zero add C (Z.to_nat st.1)).
  pose (W := fun (st : Z * T) => count - st.1).
  lazymatch goal with
  | |- bind ?l _ = _ => assert (Hrem : wp l (fun st => J st ∧ count ≤ st.1) no_fault)
  end.
  { eapply wp_mono; [eapply (wp_while J W no_fault) | |].
    - intros [j checksum] [Hj Hsum'] Hcond. unfold J, W in *. cbn [fst snd] in *.
      cbn beta iota in Hcond |- *. apply Z.ltb_lt in Hcond. split; [lia |].
      rewrite load_seq by lia. cbn [bind wp fst snd]. split; [| lia]. split; [lia |].
      by rewrite seq_sum_next, Hsum' by lia.
    - unfold W. cbn [fst]. lia.
    - unfold J. cbn [fst snd]. done.
    - cbn beta. intros [j checksum] [HJ Hcond]. split; [exact HJ |].
      cbn [fst] in *. cbn beta iota in Hcond. apply Z.ltb_ge in Hcond. done.
    - auto. }
  destruct (wp_ok_elim _ _ Hrem) as ([j checksum] & -> & [Hj Hsum'] & Hend).
  cbn [bind fst snd] in *. rewrite Hsum'. do 2 f_equal. lia.
Qed.

(** X24. In exact arithmetic the vectorised checksum of the matrix kernel,
    remainder included, is the plain checksum for every element count. *)
Theorem matrix_checksums_agree (count : Z) (C : list T) :
  0 ≤ count ≤ len C →
  ∃ checksum,
    MatrixMultiplyBaseline.checksum_loop zero add count C = Ok checksum
    ∧ MatrixMultiplyOptimized.checksum_loop zero add count C = Ok checksum.
Proof.
  intros Hcount. exists (seq_sum zero add C (Z.to_nat count)).
  split; [by apply baseline_matrix_checksum_spec | by apply optimized_matrix_checksum_spec].
Qed.

End Laws.

End MatrixExtras.

Lemma matrix_multiply_any_size_witness :
  0 ≤ 3 ∧ len [1; 2; 3; 4; 5; 6; 7; 8; 9] = 3 * 3 ∧ len [9; 8; 7; 6; 5; 4; 3; 2; 1] = 3 * 3
  ∧ len [0; 0; 0; 0; 0; 0; 0; 0; 0] = 3 * 3 ∧ len [5; 5; 5; 5; 5; 5; 5; 5; 5] = 3 * 3
  ∧ ∃ out,
      MatrixMultiplyBaseline.matrix_multiply_n 0 Z.add Z.mul 3
        [1; 2; 3; 4; 5; 6; 7; 8; 9] [9; 8; 7; 6; 5; 4; 3; 2; 1] [0; 0; 0; 0; 0; 0; 0; 0; 0]
        = Ok out
      ∧ MatrixMultiplyOptimized.matrix_multiply_n 0 Z.add Z.mul 3
          [1; 2; 3; 4; 5; 6; 7; 8; 9] [9; 8; 7; 6; 5; 4; 3; 2; 1] [5; 5; 5; 5; 5; 5; 5; 5; 5]
          = Ok out
      ∧ cells 3 out (fun i j => dot 0 Z.add Z.mul 3
          [1; 2; 3; 4; 5; 6; 7; 8; 9] [9; 8; 7; 6; 5; 4; 3; 2; 1] i j (Z.to_nat 3)).
Proof.
  assert (H0 : 0 ≤ 3) by lia.
  assert (HA : len [1; 2; 3; 4; 5; 6; 7; 8; 9] = 3 * 3) by reflexivity.
  assert (HB : len [9; 8; 7; 6; 5; 4; 3; 2; 1] = 3 * 3) by reflexivity.
  assert (HC : len [0; 0; 0; 0; 0; 0; 0; 0; 0] = 3 * 3) by reflexivity.
  assert (HC' : len [5; 5; 5; 5; 5; 5; 5; 5; 5] = 3 * 3) by reflexivity.
  split; [exact H0 |]. split; [exact HA |]. split; [exact HB |]. split; [exact HC |].
  split; [exact HC' |].
  exact (matrix_multiply_any_size 0 Z.add Z.mul 3 _ _ _ _ H0 HA HB HC HC').
Defined.

Lemma matrix_checksums_agree_witness :
  (∀ x y z, x + (y + z) = x + y + z) ∧ (∀ x y, x + y = y + x) ∧ 0 + 0 = 0
  ∧ 0 ≤ 7 ≤ len [1; 2; 3; 4; 5; 6; 7]
  ∧ ∃ checksum,
      MatrixMultiplyBaseline.checksum_loop 0 Z.add 7 [1; 2; 3; 4; 5; 6; 7] = Ok checksum
      ∧ MatrixMultiplyOptimized.checksum_loop 0 Z.add 7 [1; 2; 3; 4; 5; 6; 7] = Ok checksum.
Proof.
  assert (H1 : ∀ x y z, x + (y + z) = x + y + z) by (intros; lia).
  assert (H2 : ∀ x y, x + y = y + x) by (intros; lia).
  assert (H3 : 0 + 0 = 0) by reflexivity.
  assert (H4 : 0 ≤ 7 ≤ len [1; 2; 3; 4; 5; 6; 7]) by (vm_compute; split; discriminate).
  split; [exact H1 |]. split; [exact H2 |]. split; [exact H3 |]. split; [exact H4 |].
  exact (matrix_checksums_agree 0 Z.add H1 H2 H3 7 [1; 2; 3; 4; 5; 6; 7] H4).
Defined.

Section MatrixPrograms.
Context {T : Type} (zero : T) (add mul div : T → T → T) (of_int : Z → T).

(** The initialisation loop writes every cell of both input matrices. *)
Lemma matrix_init_spec n (A0 B0 : list T) :
  len A0 = n * n → len B0 = n * n →
  ∃ A B, MatrixMultiplyBaseline.init div of_int n (Some A0) (Some B0) = Ok (Some A, Some B)
         ∧ len A = n * n ∧ len B = n * n.
Proof.
  intros HA HB. unfold MatrixMultiplyBaseline.init.
  pose (I := fun (i : Z) (st : ptr T * ptr T) =>
               ∃ A B, st = (Some A, Some B) ∧ len A = n * n ∧ len B = n * n).
  lazymatch goal with
  | |- ∃ _ _, ?l = _ ∧ _ => assert (Hloop : wp l (I (n * n)) no_fault)
  end.
  { apply wp_for_lt_1; [rewrite <- HA; apply len_nonneg | by exists A0, B0 |].
    intros i [A B] Hi (A' & B' & [= -> ->] & HA' & HB'). cbn beta iota. cbn [pstore].
    rewrite !store_ok by lia. cbn [bind wp].
    eexists _, _. split; [done |]. by rewrite !len_insert. }
  destruct (wp_ok_elim _ _ Hloop) as ([A B] & -> & A' & B' & [= -> ->] & HA' & HB').
  by exists A', B'.
Qed.

Section Laws.
Hypothesis add_assoc : ∀ x y z, add x (add y z) = add (add x y) z.
Hypothesis add_comm : ∀ x y, add x y = add y x.
Hypothesis add_zero_zero : add zero zero = zero.

(** X25. End to end, in exact arithmetic: for every matrix size both matrix
    programs exit with status 0 and print the same checksum. *)
Theorem matrix_programs_agree (n : Z) (A0 B0 C0 : list T) :
  0 ≤ n → len A0 = n * n → len B0 = n * n → len C0 = n * n →
  ∃ checksum,
    MatrixMultiplyBaseline.run zero add mul div of_int n (Some A0) (Some B0) (Some C0)
      = Ok (0, Some checksum)
    ∧ MatrixMultiplyOptimized.run zero add mul div of_int n (Some A0) (Some B0) (Some C0)
      = Ok (0, Some checksum).
Proof.
  intros Hn HA HB HC.
  destruct (matrix_init_spec n A0 B0 HA HB) as (A & B & Hinit & HA' & HB').
  destruct (matrix_multiply_n_agree zero add mul n A B C0 C0 Hn HA' HB' HC HC)
    as (out & Hbase & Hopt & [Hlen _]).
  exists (seq_sum zero add out (Z.to_nat (n * n))).
  unfold MatrixMultiplyBaseline.run, MatrixMultiplyOptimized.run. cbn [is_null orb].
  change (MatrixMultiplyOptimized.init div of_int n (Some A0) (Some B0))
    with (MatrixMultiplyBaseline.init div of_int n (Some A0) (Some B0)).
  rewrite Hinit. cbn [bind with_buffer]. rewrite Hbase, Hopt. cbn [bind].
  rewrite baseline_matrix_checksum_spec by nia.
  rewrite optimized_matrix_checksum_spec by (done || nia). done.
Qed.

End Laws.

Section Identity.
Variable one : T.
Hypothesis add_0_l : ∀ x, add zero x = x.
Hypothesis add_0_r : ∀ x, add x zero = x.
Hypothesis mul_1_l : ∀ x, mul one x = x.
Hypothesis mul_0_l : ∀ x, mul zero x = zero.

Lemma dot_identity n (A B : list T) i j (k : nat) :
  0 ≤ i < n → (Z.of_nat k ≤ n) →
  (∀ i' k', 0 ≤ i' < n → 0 ≤ k' < n →
     entry zero n A i' k' = if i' =? k' then one else zero) →
  dot zero add mul n A B i j k = if i <? Z.of_nat k then entry zero n B i j else zero.
Proof.
  intros Hi Hk HA. induction k as [| k IH].
  - cbn [dot]. destruct (Z.ltb_spec i (Z.of_nat 0)); [lia | done].
  - cbn [dot]. rewrite IH by lia. rewrite HA by lia.
    destruct (Z.eqb_spec i (Z.of_nat k)) as [-> | Hne].
    + destruct (Z.ltb_spec (Z.of_nat k) (Z.of_nat k)); [lia |].
      destruct (Z.ltb_spec (Z.of_nat k) (Z.of_nat (Datatypes.S k))); [| lia].
      by rewrite mul_1_l, add_0_l.
    + rewrite mul_0_l, add_0_r.
      destruct (Z.ltb_spec i (Z.of_nat k)), (Z.ltb_spec i (Z.of_nat (Datatypes.S k)));
        (done || lia).
Qed.

(** X26. In exact arithmetic, that is over a carrier in which 0 is a unit of
    the addition on both sides, 1 a left unit of the multiplication and
    [0 * x = 0] for every [x], multiplying by the identity matrix on the
    left returns the second matrix, from both kernels and for every
    size. *)
Theorem matrix_multiply_identity (n : Z) (A B C : list T) :
  0 ≤ n → len A = n * n → len B = n * n → len C = n * n →
  (∀ i k, 0 ≤ i < n → 0 ≤ k < n → entry zero n A i k = if i =? k then one else zero) →
  MatrixMultiplyBaseline.matrix_multiply_n zero add mul n A B C = Ok B
  ∧ MatrixMultiplyOptimized.matrix_multiply_n zero add mul n A B C = Ok B.
Proof.
  intros Hn HA HB HC Hid.
  destruct (matrix_multiply_n_agree zero add mul n A B C C Hn HA HB HC HC)
    as (out & Hbase & Hopt & Hcells).
  assert (out = B) as ->; [| done].
  apply (cells_unique n _ _ (entry zero n B) Hn); [| by apply cells_initial].
  eapply cells_ext; [exact Hcells |]. intros i j Hi Hj. cbn beta.
  rewrite dot_identity by (done || lia).
  destruct (Z.ltb_spec i (Z.of_nat (Z.to_nat n))); [done | lia].
Qed.

End Identity.

End MatrixPrograms.

Lemma matrix_programs_agree_witness :
  (∀ x y z, x + (y + z) = x + y + z) ∧ (∀ x y, x + y = y + x) ∧ 0 + 0 = 0
  ∧ 0 ≤ 2 ∧ len [0; 0; 0; 0] = 2 * 2 ∧ len [1; 1; 1; 1] = 2 * 2 ∧ len [2; 2; 2; 2] = 2 * 2
  ∧ ∃ checksum,
      MatrixMultiplyBaseline.run 0 Z.add Z.mul Z.div id 2
        (Some [0; 0; 0; 0]) (Some [1; 1; 1; 1]) (Some [2; 2; 2; 2]) = Ok (0, Some checksum)
      ∧ MatrixMultiplyOptimized.run 0 Z.add Z.mul Z.div id 2
          (Some [0; 0; 0; 0]) (Some [1; 1; 1; 1]) (Some [2; 2; 2; 2]) = Ok (0, Some checksum).
Proof.
  assert (H1 : ∀ x y z, x + (y + z) = x + y + z) by (intros; lia).
  assert (H2 : ∀ x y, x + y = y + x) by (intros; lia).
  assert (H3 : 0 + 0 = 0) by reflexivity.
  assert (H4 : 0 ≤ 2) by lia.
  assert (HA : len [0; 0; 0; 0] = 2 * 2) by reflexivity.
  assert (HB : len [1; 1; 1; 1] = 2 * 2) by reflexivity.
  assert (HC : len [2; 2; 2; 2] = 2 * 2) by reflexivity.
  split; [exact H1 |]. split; [exact H2 |]. split; [exact H3 |]. split; [exact H4 |].
  split; [exact HA |]. split; [exact HB |]. split; [exact HC |].
  exact (matrix_programs_agree 0 Z.add Z.mul Z.div id H1 H2 H3 2 _ _ _ H4 HA HB HC).
Defined.

Lemma matrix_multiply_identity_witness :
  (∀ x, 0 + x = x) ∧ (∀ x, x + 0 = x) ∧ (∀ x, 1 * x = x) ∧ (∀ x, 0 * x = 0)
  ∧ 0 ≤ 2 ∧ len [1; 0; 0; 1] = 2 * 2 ∧ len [5; 6; 7; 8] = 2 * 2 ∧ len [9; 9; 9; 9] = 2 * 2
  ∧ (∀ i k, 0 ≤ i < 2 → 0 ≤ k < 2 →
       entry 0 2 [1; 0; 0; 1] i k = if i =? k then 1 else 0)
  ∧ MatrixMultiplyBaseline.matrix_multiply_n 0 Z.add Z.mul 2 [1; 0; 0; 1] [5; 6; 7; 8]
      [9; 9; 9; 9] = Ok [5; 6; 7; 8]
  ∧ MatrixMultiplyOptimized.matrix_multiply_n 0 Z.add Z.mul 2 [1; 0; 0; 1] [5; 6; 7; 8]
      [9; 9; 9; 9] = Ok [5; 6; 7; 8].
Proof.
  assert (H1 : ∀ x, 0 + x = x) by (intros; lia).
  assert (H2 : ∀ x, x + 0 = x) by (intros; lia).
  assert (H3 : ∀ x, 1 * x = x) by (intros; lia).
  assert (H4 : ∀ x, 0 * x = 0) by (intros; lia).
  assert (H5 : 0 ≤ 2) by lia.
  assert (HA : len [1; 0; 0; 1] = 2 * 2) by reflexivity.
  assert (HB : len [5; 6; 7; 8] = 2 * 2) by reflexivity.
  assert (HC : len [9; 9; 9; 9] = 2 * 2) by reflexivity.
  assert (Hid : ∀ i k, 0 ≤ i < 2 → 0 ≤ k < 2 →
            entry 0 2 [1; 0; 0; 1] i k = if i =? k then 1 else 0).
  { intros i k Hi Hk.
    assert (i = 0 ∨ i = 1) as [-> | ->] by lia;
      (assert (k = 0 ∨ k = 1) as [-> | ->] by lia); reflexivity. }
  split; [exact H1 |]. split; [exact H2 |]. split; [exact H3 |]. split; [exact H4 |].
  split; [exact H5 |]. split; [exact HA |]. split; [exact HB |]. split; [exact HC |].
  split; [exact Hid |].
  exact (matrix_multiply_identity 0 Z.add Z.mul 1 H1 H2 H3 H4 2 _ _ _ H5 HA HB HC Hid).
Defined.

(** ** Array-sum kernel *)

Section ArraySumExtras.
Context {T : Type} (zero : T) (add div : T → T → T) (of_int : Z → T).

Lemma array_sum_in_bounds (arr : list T) n :
  n ≤ len arr →
  ArraySumBaseline.array_sum zero add arr n = Ok (seq_sum zero add arr (Z.to_nat n)).
Proof.
  intros Hn. unfold ArraySumBaseline.array_sum.
  destruct (Z.le_gt_cases 0 n) as [Hpos | Hneg];
    [| rewrite for_lt_empty by lia; by replace (Z.to_nat n) with O by lia].
  pose (I := fun (i : Z) (sum : T) => sum = seq_sum zero add arr (Z.to_nat i)).
  lazymatch goal with
  | |- ?l = _ => assert (Hloop : wp l (I n) no_fault)
  end.
  { apply wp_for_lt_1; [done | done |].
    intros i sum Hi ->. cbn beta. rewrite (load_seq zero) by lia. cbn [bind wp].
    unfold I. by rewrite seq_sum_next by lia. }
  destruct (wp_ok_elim _ _ Hloop) as (sum & -> & ->). done.
Qed.

Lemma array_sum_past_end (arr : list T) n :
  len arr < n →
  ArraySumBaseline.array_sum zero add arr n = Fault (OutOfBounds (len arr) (len arr)).
Proof.
  intros Hn. unfold ArraySumBaseline.array_sum. pose proof (len_nonneg arr) as Hlen.
  pose (I := fun (i : Z) (sum : T) => i ≤ len arr).
  pose (Q := fun f => f = OutOfBounds (len arr) (len arr)).
  lazymatch goal with
  | |- ?l = _ => assert (Hloop : wp l (I n) Q)
  end.
  { apply wp_for_lt_1; [lia | done |].
    intros i sum Hi HI. cbn beta. unfold I in *.
    destruct (decide (i = len arr)) as [-> | Hne].
    - rewrite load_out_of_range by lia. cbn [bind wp]. done.
    - rewrite (load_seq zero) by lia. cbn [bind wp]. lia. }
  destruct (for_lt _ _ _ _ _) as [sum | f]; cbn [wp] in Hloop.
  - unfold I in Hloop. lia.
  - by rewrite Hloop.
Qed.

(** X27. [array_sum] returns the left-to-right sum of the first [n] elements
    (zero for [n <= 0]); asked for more elements than the array holds, it
    reads one past the end. *)
Theorem array_sum_sequential (arr : list T) (n : Z) :
  ArraySumBaseline.array_sum zero add arr n =
    if n <=? len arr then Ok (seq_sum zero add arr (Z.to_nat n))
    else Fault (OutOfBounds (len arr) (len arr)).
Proof.
  destruct (Z.leb_spec n (len arr)); [by apply array_sum_in_bounds | by apply array_sum_past_end].
Qed.

Lemma harmonic_terms_length n : 0 ≤ n → len (harmonic_terms div of_int n) = n.
Proof. intros Hn. unfold len, harmonic_terms. rewrite length_map, length_seqZ. lia. Qed.

Lemma harmonic_terms_next i :
  0 ≤ i →
  harmonic_terms div of_int (i + 1) =
    harmonic_terms div of_int i ++ [div (of_int 1) (of_int (i + 1))].
Proof.
  intros Hi. unfold harmonic_terms.
  rewrite seqZ_app by lia. rewrite map_app. reflexivity.
Qed.

(** The fill loop writes the term [1.0 / (i + 1)] into every cell. *)
Lemma fill_spec n (buf : list T) :
  len buf = n →
  ArraySumBaseline.fill div of_int n (Some buf) = Ok (Some (harmonic_terms div of_int n)).
Proof.
  intros Hlen. pose proof (len_nonneg buf) as Hn. rewrite Hlen in Hn.
  unfold ArraySumBaseline.fill.
  pose (I := fun (i : Z) (arr : ptr T) =>
               ∃ buf', arr = Some buf' ∧ len buf' = n
                       ∧ take (Z.to_nat i) buf' = harmonic_terms div of_int i).
  lazymatch goal with
  | |- ?l = _ => assert (Hloop : wp l (I n) no_fault)
  end.
  { apply wp_for_lt_1; [done | by exists buf |].
    intros i arr Hi (buf' & -> & Hlen' & Htake). cbn beta. cbn [pstore].
    rewrite store_ok by lia. cbn [bind wp].
    eexists. split; [done |]. split; [by rewrite len_insert |].
    replace (Z.to_nat (i + 1)) with (Datatypes.S (Z.to_nat i)) by lia.
    rewrite (take_S_r _ _ (div (of_int 1) (of_int (i + 1))))
      by (apply list_lookup_insert_eq; unfold len in Hlen'; lia).
    rewrite take_insert_ge by lia. rewrite Htake. by rewrite harmonic_terms_next by lia. }
  destruct (wp_ok_elim _ _ Hloop) as (arr & -> & buf' & -> & Hlen' & Htake).
  do 2 f_equal. rewrite <- Htake. symmetry. apply take_ge. unfold len in Hlen'. lia.
Qed.

(** X28. End to end: on a buffer of [n] cells the baseline array-sum program
    exits with status 0 and prints the left-to-right sum of the terms
    [1.0 / (i + 1)]; the optimized one hands the very same array to its
    parallel reduction and prints what that returns. *)
Theorem array_sum_programs (n : Z) (buf : list T) (omp_sum : list T → Z → result T) :
  len buf = n →
  ArraySumBaseline.run zero add div of_int n (Some buf)
    = Ok (0, Some (seq_sum zero add (harmonic_terms div of_int n) (Z.to_nat n)))
  ∧ ArraySumOptimized.run div of_int omp_sum n (Some buf)
    = (r <- omp_sum (harmonic_terms div of_int n) n ;; Ok (0, Some r)).
Proof.
  intros Hlen. pose proof (len_nonneg buf) as Hn. rewrite Hlen in Hn.
  unfold ArraySumBaseline.run, ArraySumOptimized.run. cbn [is_null negb].
  change (ArraySumOptimized.fill div of_int n (Some buf))
    with (ArraySumBaseline.fill div of_int n (Some buf)).
  rewrite fill_spec by done. cbn [bind with_buffer].
  rewrite array_sum_in_bounds by (rewrite harmonic_terms_length; lia). done.
Qed.

End ArraySumExtras.

Lemma array_sum_programs_witness :
  len [0; 0; 0] = 3
  ∧ ArraySumBaseline.run 0 Z.add Z.div id 3 (Some [0; 0; 0])
      = Ok (0, Some (seq_sum 0 Z.add (harmonic_terms Z.div id 3) (Z.to_nat 3)))
  ∧ ArraySumOptimized.run Z.div id (fun _ _ => Ok 0) 3 (Some [0; 0; 0])
      = (r <- (fun _ _ => Ok 0) (harmonic_terms Z.div id 3) 3 ;; Ok (0, Some r)).
Proof.
  assert (H : len [0; 0; 0] = 3) by reflexivity.
  split; [exact H |].
  exact (array_sum_programs 0 Z.add Z.div id 3 [0; 0; 0] (fun _ _ => Ok 0) H).
Defined.

(** ** Allocation failure in the other entry points *)

(** X29. The two entry points that test their pointers exit with status 1 and
    print nothing when an allocation fails. *)
Theorem checked_mains_report_allocation_failure {T : Type} (zero : T)
    (add mul div : T → T → T) (of_int : Z → T) (omp_sum : list T → Z → result T)
    (mA mB mC : ptr T) :
  ArraySumOptimized.main div of_int omp_sum None = Ok (1, None)
  ∧ MatrixMultiplyOptimized.main zero add mul div of_int None mB mC = Ok (1, None)
  ∧ MatrixMultiplyOptimized.main zero add mul div of_int mA None mC = Ok (1, None)
  ∧ MatrixMultiplyOptimized.main zero add mul div of_int mA mB None = Ok (1, None).
Proof.
  split; [reflexivity |]. unfold MatrixMultiplyOptimized.main.
  split; [| split]; apply matrix_multiply_optimized_run_null; auto.
Qed.

(** X30. The optimized sort and search programs and the baseline matrix program
    do not test theirs: on a null pointer from the allocator they store
    through it. *)
Theorem unchecked_mains_use_null_buffer {T : Type} (zero : T)
    (add mul div : T → T → T) (of_int : Z → T) (mB mC : ptr T) :
  BubbleSortOptimized.main None = Fault NullPointer
  ∧ StringSearchOptimized.main None = Fault NullPointer
  ∧ MatrixMultiplyBaseline.main zero add mul div of_int None mB mC = Fault NullPointer.
Proof.
  split; [| split].
  - apply bubble_sort_optimized_run_null. unfold BubbleSortOptimized.N. lia.
  - apply string_search_optimized_run_null.
  - apply matrix_multiply_baseline_run_null. unfold MatrixMultiplyBaseline.N. lia.
Qed.
